(** * The volume-ramp filter of MPD (filter/plugins/VolumeRampFilterPlugin)

    A shallow embedding of [VolumeRampFilter] (state machine, timing
    accumulator and delay line) and of [PreparedVolumeRampFilter] (the
    factory), followed by the properties of the filter contract.

    The filter is written against a handful of collaborators that live
    outside the plugin: single-precision arithmetic, the audio-format
    descriptor, the PCM silence and gain primitives, the FIFO buffer and
    the C library's number parsers.  They are gathered in two interfaces,
    [FloatOps] and [PcmOps]; the embedding is parametric in them, and a
    concrete platform (IEEE binary32, 8-bit PCM) is given in module
    [Binary32] so that the filter can be run on concrete inputs. *)

From Stdlib Require Import Ascii String Bool NArith ZArith QArith Qround Qpower.
From Stdlib Require Import List Sorted Lia.
From Stdlib Require Import Floats.SpecFloat.
Import ListNotations.

Local Open Scope N_scope.

(** [std::byte]. *)
Definition byte := Byte.byte.

(** [size_t] is 64 bits wide; arithmetic on it wraps. *)
Definition SIZE_MAX1 : N := 2 ^ 64.
Definition size_t (n : N) : N := n mod SIZE_MAX1.

(** * Collaborators *)

(** The [float] type of the source with the operations the plugin uses. *)
Class FloatOps (float : Type) : Type := {
  f_zero : float;                       (* 0.0 *)
  f_one : float;                        (* 1.0f *)
  f_tenth : float;                      (* the literal 0.1 narrowed to float *)
  f_add : float -> float -> float;
  f_sub : float -> float -> float;
  f_mul : float -> float -> float;
  f_div : float -> float -> float;
  f_ge : float -> float -> bool;        (* >= *)
  f_ne : float -> float -> bool;        (* != *)
  f_of_unsigned : N -> float;           (* unsigned converted for a float product *)
  f_to_unsigned : float -> N            (* the cast (unsigned)x *)
}.

(** Modelled from the spec: the audio-format descriptor
    (pcm/AudioFormat.hxx) carries a sample rate, a sample encoding and a
    channel count. *)
Record AudioFormat (SampleFormat : Type) : Type := {
  sample_rate : N;
  format : SampleFormat;
  channels : N
}.
Arguments sample_rate {SampleFormat} _.
Arguments format {SampleFormat} _.
Arguments channels {SampleFormat} _.

Definition with_format {SF : Type} (af : AudioFormat SF) (s : SF) : AudioFormat SF :=
  {| sample_rate := sample_rate af; format := s; channels := channels af |}.

(** The PCM primitives the plugin calls: the format's conversions between
    durations and byte lengths, the silence pattern, [PCM_VOLUME_1] and the
    gain primitive [PcmVolume], whose private state (volume, dither) is kept
    abstract. *)
Class PcmOps (float : Type) : Type := {
  SampleFormat : Type;
  PcmVolume : Type;
  GetFrameSize : AudioFormat SampleFormat -> N;
  TimeToSize : AudioFormat SampleFormat -> float -> N;
  SizeToTime : AudioFormat SampleFormat -> N -> float;
  silence_pattern : SampleFormat -> byte;
  PCM_VOLUME_1 : N;
  pv_init : PcmVolume;
  pv_Open : PcmVolume -> SampleFormat -> bool -> PcmVolume * SampleFormat;
  pv_SetVolume : PcmVolume -> N -> PcmVolume;
  pv_Apply : PcmVolume -> list byte -> PcmVolume * list byte;
  strtof : string -> float;
  strtoul10 : string -> N               (* strtoul(s, nullptr, 10) *)
}.

(** What the plugin relies on: a gain never changes the length of a block
    (the volume is opened without format conversion). *)
Class PcmLaws {float : Type} (P : PcmOps float) : Prop := {
  pv_Apply_length : forall v xs, length (snd (pv_Apply v xs)) = length xs
}.

(** What the C library promises when no conversion can be performed (an
    empty or unparsable string): zero is returned. *)
Class LibcLaws {float : Type} (F : FloatOps float) (P : PcmOps float) : Prop := {
  strtof_empty : f_ne (strtof EmptyString) f_zero = false;
  strtoul10_empty : strtoul10 EmptyString = 0
}.

(** Modelled from the spec: the silence-generation primitive
    (pcm/Silence.hxx) overwrites a span with the canonical silence pattern
    of the format. *)
Definition PcmSilence {float} {P : PcmOps float} (fmt : SampleFormat) (n : N) : list byte :=
  repeat (silence_pattern fmt) (N.to_nat n).

(** * The delay line *)

(** Modelled from the spec: the growable byte FIFO
    (util/DynamicFifoBuffer.hxx): bytes are appended at the tail, a prefix is
    read at the head without removing it, a prefix is consumed explicitly,
    and the capacity grows on demand.  [fifo_data] is the readable region. *)
Record DynamicFifoBuffer : Type := {
  fifo_data : list byte;
  fifo_capacity : N
}.

(** [DynamicFifoBuffer(nullptr)]. *)
Definition fifo_null : DynamicFifoBuffer :=
  {| fifo_data := []; fifo_capacity := 0 |}.

Definition fifo_available (b : DynamicFifoBuffer) : N :=
  N.of_nat (length (fifo_data b)).

Definition fifo_Grow (new_capacity : N) (b : DynamicFifoBuffer) : DynamicFifoBuffer :=
  {| fifo_data := fifo_data b;
     fifo_capacity := N.max (fifo_capacity b) new_capacity |}.

(** Makes room for [n] more bytes. *)
Definition fifo_WantWrite (n : N) (b : DynamicFifoBuffer) : DynamicFifoBuffer :=
  fifo_Grow (fifo_available b + n) b.

(** The size of the span [Write()] returns: the free space. *)
Definition fifo_Write_size (b : DynamicFifoBuffer) : N :=
  fifo_capacity b - fifo_available b.

(** [Append(n)] after [written] was stored at the start of the [Write()]
    span. *)
Definition fifo_Append (written : list byte) (n : N) (b : DynamicFifoBuffer)
  : DynamicFifoBuffer :=
  {| fifo_data := fifo_data b ++ firstn (N.to_nat n) written;
     fifo_capacity := fifo_capacity b |}.

Definition fifo_Read (b : DynamicFifoBuffer) : list byte := fifo_data b.

Definition fifo_Consume (n : N) (b : DynamicFifoBuffer) : DynamicFifoBuffer :=
  {| fifo_data := skipn (N.to_nat n) (fifo_data b);
     fifo_capacity := fifo_capacity b |}.

(** A span of the readable region is a view: writing through it changes
    the buffer in place. *)
Definition span_read (i n : N) (data : list byte) : list byte :=
  firstn (N.to_nat n) (skipn (N.to_nat i) data).

Definition span_write (i : N) (new : list byte) (data : list byte) : list byte :=
  firstn (N.to_nat i) data ++ new ++ skipn (N.to_nat i + length new) data.

Definition fifo_write_at (i : N) (new : list byte) (b : DynamicFifoBuffer)
  : DynamicFifoBuffer :=
  {| fifo_data := span_write i new (fifo_data b);
     fifo_capacity := fifo_capacity b |}.

(** * The filter *)

Inductive VolumeRampState : Type := RampDown | Silence | RampUp | Final.

Definition VolumeRampState_eqb (a b : VolumeRampState) : bool :=
  match a, b with
  | RampDown, RampDown | Silence, Silence | RampUp, RampUp | Final, Final => true
  | _, _ => false
  end.

Section Filter.

Context {float : Type} {F : FloatOps float} {P : PcmOps float}.

(** The fields of [class VolumeRampFilter] (the mutex apart), preceded by
    the output format of the [Filter] base class. *)
Record VolumeRampFilter : Type := {
  out_audio_format : AudioFormat SampleFormat;
  pv : PcmVolume;
  state : VolumeRampState;
  cur_time : float;
  delay_buf : DynamicFifoBuffer;
  last_delay_buf_size : N;
  volume_ramp_time : float;
  silence_add_time : float;
  ramp_block_size : N;
  input_fmt : AudioFormat SampleFormat
}.

Definition set_pv (v : PcmVolume) (f : VolumeRampFilter) : VolumeRampFilter :=
  {| out_audio_format := out_audio_format f; pv := v; state := state f;
     cur_time := cur_time f; delay_buf := delay_buf f;
     last_delay_buf_size := last_delay_buf_size f;
     volume_ramp_time := volume_ramp_time f;
     silence_add_time := silence_add_time f;
     ramp_block_size := ramp_block_size f; input_fmt := input_fmt f |}.

Definition set_state (s : VolumeRampState) (f : VolumeRampFilter) : VolumeRampFilter :=
  {| out_audio_format := out_audio_format f; pv := pv f; state := s;
     cur_time := cur_time f; delay_buf := delay_buf f;
     last_delay_buf_size := last_delay_buf_size f;
     volume_ramp_time := volume_ramp_time f;
     silence_add_time := silence_add_time f;
     ramp_block_size := ramp_block_size f; input_fmt := input_fmt f |}.

Definition set_cur_time (t : float) (f : VolumeRampFilter) : VolumeRampFilter :=
  {| out_audio_format := out_audio_format f; pv := pv f; state := state f;
     cur_time := t; delay_buf := delay_buf f;
     last_delay_buf_size := last_delay_buf_size f;
     volume_ramp_time := volume_ramp_time f;
     silence_add_time := silence_add_time f;
     ramp_block_size := ramp_block_size f; input_fmt := input_fmt f |}.

Definition set_delay_buf (b : DynamicFifoBuffer) (f : VolumeRampFilter) : VolumeRampFilter :=
  {| out_audio_format := out_audio_format f; pv := pv f; state := state f;
     cur_time := cur_time f; delay_buf := b;
     last_delay_buf_size := last_delay_buf_size f;
     volume_ramp_time := volume_ramp_time f;
     silence_add_time := silence_add_time f;
     ramp_block_size := ramp_block_size f; input_fmt := input_fmt f |}.

Definition set_last_delay_buf_size (n : N) (f : VolumeRampFilter) : VolumeRampFilter :=
  {| out_audio_format := out_audio_format f; pv := pv f; state := state f;
     cur_time := cur_time f; delay_buf := delay_buf f;
     last_delay_buf_size := n;
     volume_ramp_time := volume_ramp_time f;
     silence_add_time := silence_add_time f;
     ramp_block_size := ramp_block_size f; input_fmt := input_fmt f |}.

(** ** Construction *)

(** [VolumeRampFilter::VolumeRampFilter]. *)
Definition VolumeRampFilter_new (fmt : AudioFormat SampleFormat)
    (ramp_time add_time : float) (block_size : N) : VolumeRampFilter :=
  let buf_cap := TimeToSize fmt ramp_time in
  let b := fifo_Grow buf_cap fifo_null in
  let fill_span := PcmSilence (format fmt) (fifo_Write_size b) in
  let b := fifo_Append fill_span buf_cap b in
  let opened := pv_Open pv_init (format fmt) false in
  {| out_audio_format := with_format fmt (snd opened);
     pv := fst opened;
     state := Silence;
     cur_time := f_zero;
     delay_buf := b;
     last_delay_buf_size := 0;
     volume_ramp_time := ramp_time;
     silence_add_time := add_time;
     ramp_block_size := block_size;
     input_fmt := fmt |}.

(** ** trigger and Reset *)

(** [VolumeRampFilter::trigger]. *)
Definition trigger (f : VolumeRampFilter) : VolumeRampFilter :=
  set_state Silence (set_cur_time f_zero f).

(** [VolumeRampFilter::Reset]. *)
Definition Reset (f : VolumeRampFilter) : VolumeRampFilter :=
  set_state Silence (set_cur_time f_zero f).

(** ** FilterPCM *)

(** The prologue shared by [FilterPCM] and [Flush]: what the previous call
    returned is consumed. *)
Definition consume_last (f : VolumeRampFilter) : VolumeRampFilter :=
  if last_delay_buf_size f =? 0 then f
  else set_last_delay_buf_size 0
         (set_delay_buf (fifo_Consume (last_delay_buf_size f) (delay_buf f)) f).

(** The source block is stored in the delay line. *)
Definition store (src : list byte) (f : VolumeRampFilter) : VolumeRampFilter :=
  let n := N.of_nat (length src) in
  let b := fifo_WantWrite n (delay_buf f) in
  let b := fifo_Append src n b in
  set_last_delay_buf_size n (set_delay_buf b f).

(** [delayed_src]: the prefix of the delay line a call returns. *)
Definition delayed_src (n : N) (f : VolumeRampFilter) : list byte :=
  span_read 0 n (fifo_Read (delay_buf f)).

(** The gain of a rising ramp at accumulated time [t]. *)
Definition ramp_up_volume (ramp_time t : float) : N :=
  N.min (f_to_unsigned (f_mul (f_div t ramp_time) (f_of_unsigned PCM_VOLUME_1)))
        PCM_VOLUME_1.

(** The gain of a falling ramp at accumulated time [t]. *)
Definition ramp_down_volume (ramp_time t : float) : N :=
  N.min (f_to_unsigned (f_mul (f_sub f_one (f_div t ramp_time))
                              (f_of_unsigned PCM_VOLUME_1)))
        PCM_VOLUME_1.

(** The body of the loop of [FilterPCM]: the sub-block of [cur_block_size]
    bytes at offset [i] of [delayed_src]. *)
Definition FilterPCM_block (i cur_block_size : N) (f : VolumeRampFilter)
  : VolumeRampFilter :=
  match state f with
  | RampDown | Silence =>
      let f := set_pv (pv_SetVolume (pv f) 0) f in
      let f := set_cur_time
                 (f_add (cur_time f) (SizeToTime (input_fmt f) cur_block_size)) f in
      let f := if f_ge (cur_time f) (f_add (volume_ramp_time f) (silence_add_time f))
               then set_state RampUp (set_cur_time f_zero f)
               else f in
      set_delay_buf
        (fifo_write_at i (PcmSilence (format (out_audio_format f)) cur_block_size)
                       (delay_buf f)) f
  | RampUp =>
      let volume := ramp_up_volume (volume_ramp_time f) (cur_time f) in
      let f := set_pv (pv_SetVolume (pv f) volume) f in
      let f := set_cur_time
                 (f_add (cur_time f) (SizeToTime (input_fmt f) cur_block_size)) f in
      let f := if f_ge (cur_time f) (volume_ramp_time f)
               then set_state Final (set_cur_time f_zero f)
               else f in
      let applied :=
        pv_Apply (pv f) (span_read i cur_block_size (fifo_Read (delay_buf f))) in
      set_delay_buf (fifo_write_at i (snd applied) (delay_buf f))
                    (set_pv (fst applied) f)
  | Final =>
      set_delay_buf
        (fifo_write_at i (span_read i cur_block_size (fifo_Read (delay_buf f)))
                       (delay_buf f)) f
  end.

(** The loop [for (i = 0; i < src.size(); i += block_size)].  It need not
    terminate (a zero [block_size]), hence the fuel. *)
Fixpoint FilterPCM_loop (fuel : nat) (src_size block_size i : N)
    (f : VolumeRampFilter) : option VolumeRampFilter :=
  if i <? src_size then
    match fuel with
    | O => None
    | S fuel' =>
        let cur_block_size := src_size - i in
        let cur_block_size :=
          if block_size <? cur_block_size then block_size else cur_block_size in
        FilterPCM_loop fuel' src_size block_size (size_t (i + block_size))
                       (FilterPCM_block i cur_block_size f)
    end
  else Some f.

(** [VolumeRampFilter::FilterPCM]: the new state and the returned span. *)
Definition FilterPCM (fuel : nat) (src : list byte) (f : VolumeRampFilter)
  : option (VolumeRampFilter * list byte) :=
  let f := consume_last f in
  let n := N.of_nat (length src) in
  match state f with
  | Final =>
      let f := store src f in
      Some (f, delayed_src n f)
  | _ =>
      let f := store src f in
      let block_size := size_t (GetFrameSize (input_fmt f) * ramp_block_size f) in
      match FilterPCM_loop fuel n block_size 0 f with
      | Some f' => Some (f', delayed_src n f')
      | None => None
      end
  end.

(** ** Flush *)

(** [case VolumeRampState::RampDown] of [Flush]. *)
Definition Flush_RampDown (f : VolumeRampFilter) : VolumeRampFilter * list byte :=
  let volume := ramp_down_volume (volume_ramp_time f) (cur_time f) in
  let cur_block_size := size_t (ramp_block_size f * GetFrameSize (input_fmt f)) in
  let f := set_pv (pv_SetVolume (pv f) volume) f in
  let f := set_cur_time
             (f_add (cur_time f) (SizeToTime (input_fmt f) cur_block_size)) f in
  let f := if f_ge (cur_time f) (volume_ramp_time f)
           then set_state Silence (set_cur_time f_zero f)
           else f in
  let b := fifo_WantWrite cur_block_size (delay_buf f) in
  let dst := PcmSilence (format (input_fmt f)) cur_block_size in
  let b := fifo_Append dst cur_block_size b in
  let f := set_last_delay_buf_size cur_block_size (set_delay_buf b f) in
  let applied := pv_Apply (pv f) (delayed_src cur_block_size f) in
  (set_pv (fst applied) f, snd applied).

(** [case VolumeRampState::Final], which falls through. *)
Definition Flush_Final (f : VolumeRampFilter) : VolumeRampFilter * list byte :=
  Flush_RampDown (set_state RampDown f).

(** [case VolumeRampState::RampUp], which falls through. *)
Definition Flush_RampUp (f : VolumeRampFilter) : VolumeRampFilter * list byte :=
  Flush_Final (set_cur_time (f_sub (volume_ramp_time f) (cur_time f)) f).

(** [VolumeRampFilter::Flush]. *)
Definition Flush (f : VolumeRampFilter) : VolumeRampFilter * list byte :=
  let f := consume_last f in
  match state f with
  | RampUp => Flush_RampUp f
  | Final => Flush_Final f
  | RampDown => Flush_RampDown f
  | Silence =>
      (set_cur_time f_zero (set_pv (pv_SetVolume (pv f) 0) f), [])
  end.

(** * The factory *)

(** Modelled from the spec: a configuration block (config/Block.hxx) is a
    list of named values; [GetBlockValue] returns the value of the first
    parameter of that name, or the default. *)
Definition ConfigBlock : Type := list (string * string).

Fixpoint GetBlockValue (cfg : ConfigBlock) (name default_value : string) : string :=
  match cfg with
  | [] => default_value
  | (k, v) :: rest =>
      if String.eqb k name then v else GetBlockValue rest name default_value
  end.

Record PreparedVolumeRampFilter : Type := {
  prepared_volume_ramp_time : float;
  prepared_silence_add_time : float;
  prepared_ramp_block_size : N
}.

(** [PreparedVolumeRampFilter::PreparedVolumeRampFilter]. *)
Definition PreparedVolumeRampFilter_new (cfg : ConfigBlock) : PreparedVolumeRampFilter :=
  let cfg_ramp_time := strtof (GetBlockValue cfg "ramp_seconds" "") in
  let cfg_add_time := strtof (GetBlockValue cfg "silence_seconds" "") in
  let cfg_block_size := strtoul10 (GetBlockValue cfg "block_size" "") in
  {| prepared_volume_ramp_time :=
       if f_ne cfg_ramp_time f_zero then cfg_ramp_time else f_tenth;
     prepared_silence_add_time :=
       if f_ne cfg_add_time f_zero then cfg_add_time else f_tenth;
     prepared_ramp_block_size :=
       if cfg_block_size =? 0 then 64 else cfg_block_size |}.

(** [PreparedVolumeRampFilter::Open]. *)
Definition Open (p : PreparedVolumeRampFilter) (af : AudioFormat SampleFormat)
  : VolumeRampFilter :=
  VolumeRampFilter_new af (prepared_volume_ramp_time p)
                       (prepared_silence_add_time p) (prepared_ramp_block_size p).

(** * The plugin *)

(** Modelled from the spec: the descriptor through which the plugin loader
    finds a filter plugin (filter/FilterPlugin.hxx), of which the plugin
    sets the name and the initialiser. *)
Record FilterPlugin : Type := {
  name : string;
  init : ConfigBlock -> PreparedVolumeRampFilter
}.

(** [volume_ramp_filter_plugin_init]. *)
Definition volume_ramp_filter_plugin_init (block : ConfigBlock)
  : PreparedVolumeRampFilter :=
  PreparedVolumeRampFilter_new block.

(** [volume_ramp_filter_plugin]. *)
Definition volume_ramp_filter_plugin : FilterPlugin := {|
  name := "volume_ramp";
  init := volume_ramp_filter_plugin_init
|}.

End Filter.

(** * The vocabulary of the properties *)

Section Vocabulary.

Context {float : Type} {F : FloatOps float} {P : PcmOps float}.

Implicit Types f : VolumeRampFilter.

(** The buffered bytes not yet returned to the caller. *)
Definition pending f : list byte :=
  skipn (N.to_nat (last_delay_buf_size f)) (fifo_data (delay_buf f)).

(** The size of a sub-block in bytes. *)
Definition block_bytes f : N :=
  size_t (GetFrameSize (input_fmt f) * ramp_block_size f).

(** The fields no member function assigns after construction. *)
Definition same_config f f' : Prop :=
  out_audio_format f' = out_audio_format f /\
  volume_ramp_time f' = volume_ramp_time f /\
  silence_add_time f' = silence_add_time f /\
  ramp_block_size f' = ramp_block_size f /\
  input_fmt f' = input_fmt f.

(** The state in which [FilterPCM] enters its loop, or returns at once
    when it is [Final]. *)
Definition stored (src : list byte) f : VolumeRampFilter :=
  store src (consume_last f).

(** The loop keeps the delay line's length, what lies behind the returned
    span, the bookkeeping and the configuration. *)
Definition loop_keeps (n : N) f0 f : Prop :=
  length (fifo_data (delay_buf f)) = length (fifo_data (delay_buf f0)) /\
  skipn (N.to_nat n) (fifo_data (delay_buf f)) =
    skipn (N.to_nat n) (fifo_data (delay_buf f0)) /\
  last_delay_buf_size f = last_delay_buf_size f0 /\
  same_config f0 f.

(** The states that render as silence in [FilterPCM]. *)
Definition renders_silence (s : VolumeRampState) : Prop :=
  s = Silence \/ s = RampDown.

(** The invariant of the loop of a call entered in a silent state: the
    first sub-block has been silenced, and so has everything before offset
    [i] as long as the state is silent. *)
Definition silence_inv (n bs : N) (fmt : SampleFormat) f0 (i : N) f : Prop :=
  loop_keeps n f0 f /\
  (i = 0 \/ bs <= i) /\
  (i = 0 -> renders_silence (state f)) /\
  (0 < i -> firstn (N.to_nat (N.min bs n)) (fifo_data (delay_buf f)) =
            PcmSilence fmt (N.min bs n)) /\
  (renders_silence (state f) ->
     firstn (N.to_nat (N.min i n)) (fifo_data (delay_buf f)) =
     PcmSilence fmt (N.min i n)).

(** The accumulator a flush starts its falling ramp from: mirrored when
    the flush interrupts a rising ramp. *)
Definition flush_acc f : float :=
  match state f with
  | RampUp => f_sub (volume_ramp_time f) (cur_time f)
  | _ => cur_time f
  end.

(** The calls a driver makes on a filter. *)
Inductive Call : Type :=
| Process (src : list byte)
| DoFlush
| DoReset
| DoTrigger.

(** One call: the new state and the bytes returned.  [FilterPCM] is given
    one iteration per byte of the source. *)
Definition call (c : Call) f : option (VolumeRampFilter * list byte) :=
  match c with
  | Process src => FilterPCM (length src) src f
  | DoFlush => Some (Flush f)
  | DoReset => Some (Reset f, [])
  | DoTrigger => Some (trigger f, [])
  end.

(** The bytes a call appends to the delay line. *)
Definition appended (c : Call) f : list byte :=
  match c with
  | Process src => src
  | DoFlush =>
      match state f with
      | Silence => []
      | _ => PcmSilence (format (input_fmt f)) (block_bytes f)
      end
  | _ => []
  end.

(** A run of calls: the final state and everything appended to the delay
    line on the way, in order. *)
Fixpoint run (calls : list Call) f : option (VolumeRampFilter * list byte) :=
  match calls with
  | [] => Some (f, [])
  | c :: rest =>
      match call c f with
      | Some (f1, _) =>
          match run rest f1 with
          | Some (f2, W) => Some (f2, appended c f ++ W)
          | None => None
          end
      | None => None
      end
  end.

(** The state after [k] calls of [Flush]. *)
Fixpoint flushes (k : nat) f : VolumeRampFilter :=
  match k with
  | O => f
  | S k' => flushes k' (fst (Flush f))
  end.

(** What call number [k + 1] of a series of flushes returns. *)
Definition flush_out (k : nat) f : list byte := snd (Flush (flushes k f)).

(** The results of the first [k] calls of a series of flushes. *)
Fixpoint flush_outs (k : nat) f : list (list byte) :=
  match k with
  | O => []
  | S k' => snd (Flush f) :: flush_outs k' (fst (Flush f))
  end.

Definition nonempty (out : list byte) : bool :=
  match out with [] => false | _ => true end.

(** The accumulator [t] advanced [k] times by the duration [d]. *)
Fixpoint advance (k : nat) (d t : float) : float :=
  match k with
  | O => t
  | S k' => advance k' d (f_add t d)
  end.

(** The duration of one sub-block of the filter. *)
Definition block_time f : float := SizeToTime (input_fmt f) (block_bytes f).

(** Whether a call returned, and the state it left ([d] when it did not). *)
Definition returned (r : option (VolumeRampFilter * list byte)) : bool :=
  match r with Some _ => true | None => false end.

Definition state_after (r : option (VolumeRampFilter * list byte)) (d : VolumeRampFilter)
  : VolumeRampFilter :=
  match r with Some (f, _) => f | None => d end.

(** No parameter of the block has the given name. *)
Definition key_absent (cfg : ConfigBlock) (name : string) : Prop :=
  forall v, ~ In (name, v) cfg.

End Vocabulary.

(** * The vocabulary of traces and loops *)

Section TraceVocabulary.

Context {float : Type} {F : FloatOps float} {P : PcmOps float}.

Implicit Types f g h : VolumeRampFilter.

(** The states [FilterPCM] can leave a filter in when it finds it in [s]:
    the loop only moves from the silent states to [RampUp] and from there to
    [Final]. *)
Definition forward (s s' : VolumeRampState) : Prop :=
  match s with
  | Final => s' = Final
  | RampUp => s' = RampUp \/ s' = Final
  | _ => s' = s \/ s' = RampUp \/ s' = Final
  end.

(** In [Final] the accumulator is at rest. *)
Definition settled f : Prop := state f = Final -> cur_time f = f_zero.

(** What the FIFO's operations require of the filter: the size recorded
    for the next [Consume] lies within the readable bytes, and these within
    the capacity. *)
Definition buffer_ok f : Prop :=
  (N.to_nat (last_delay_buf_size f) <= length (fifo_data (delay_buf f)))%nat /\
  fifo_available (delay_buf f) <= fifo_capacity (delay_buf f).

(** Two filters in the same state whose delay lines differ by what
    surrounds the bytes: the line of [g] is that of [h] between [pre] and
    [post]. *)
Definition embeds (pre post : list byte) g h : Prop :=
  state g = state h /\ cur_time g = cur_time h /\ pv g = pv h /\
  same_config h g /\
  fifo_data (delay_buf g) = pre ++ fifo_data (delay_buf h) ++ post.

(** The outcomes of two loops are related. *)
Definition both (R : VolumeRampFilter -> VolumeRampFilter -> Prop)
    (x y : option VolumeRampFilter) : Prop :=
  match x, y with
  | Some g, Some h => R g h
  | None, None => True
  | _, _ => False
  end.

(** The invariant of the loop of a call made of [m] whole sub-blocks and
    entered in the silent state [s0] with accumulator [t0], when the first
    [m - 1] additions of the duration [d] stay below the threshold [T]:
    after [j] sub-blocks. *)
Definition hold_inv (m : nat) (n bs : N) (d t0 T : float) (s0 : VolumeRampState)
    (fmt : SampleFormat) f0 (i : N) f : Prop :=
  loop_keeps n f0 f /\
  exists j : nat,
    (j <= m)%nat /\ i = N.of_nat j * bs /\
    firstn (N.to_nat i) (fifo_data (delay_buf f)) = PcmSilence fmt i /\
    ((j < m)%nat -> state f = s0 /\ cur_time f = advance j d t0) /\
    (j = m ->
     if f_ge (advance m d t0) T
     then state f = RampUp /\ cur_time f = f_zero
     else state f = s0 /\ cur_time f = advance m d t0).

(** What a series of [j] flushes reads from: the pending bytes followed by
    the silence the flushes append. *)
Definition flush_line (j : nat) f : list byte :=
  pending f ++ PcmSilence (format (input_fmt f)) (N.of_nat j * block_bytes f).

End TraceVocabulary.

(** * Concrete platforms

    8-bit PCM over a given arithmetic: the conversions of the audio format,
    a plain gain and decimal parsers.  The arithmetic that follows is IEEE
    binary32 as specified by [SpecFloat], on which the filter runs by
    evaluation. *)

Inductive sample_format : Type := S8 | DSD.

(** An 8-bit sample scaled by [volume / 1024], rounded, without dither. *)
Definition scale_sample (volume : N) (b : byte) : byte :=
  let u := Z.of_N (Byte.to_N b) in
  let s := if (u <? 128)%Z then u else (u - 256)%Z in
  let r := Z.shiftr (s * Z.of_N volume + 512) 10 in
  let r := Z.max (-128) (Z.min 127 r) in
  match Byte.of_N (Z.to_N (r mod 256)) with
  | Some b' => b'
  | None => b
  end.

Fixpoint skip_spaces (s : string) : string :=
  match s with
  | String " "%char r => skip_spaces r
  | _ => s
  end.

Definition digit_of (c : ascii) : option N :=
  let n := N_of_ascii c in
  if (48 <=? n) && (n <=? 57) then Some (n - 48) else None.

(** The leading decimal digits of [s]: their value, their number, the
    rest. *)
Fixpoint digits (s : string) (acc : N) (count : nat) : N * nat * string :=
  match s with
  | String c r =>
      match digit_of c with
      | Some d => digits r (10 * acc + d) (S count)
      | None => (acc, count, s)
      end
  | EmptyString => (acc, count, s)
  end.

(** Unsigned decimal numbers, saturated as [strtoul] does. *)
Definition parse_ulong (s : string) : N :=
  let '(v, _, _) := digits (skip_spaces s) 0 O in
  N.min v (SIZE_MAX1 - 1).

Section Pcm8.

Context {float : Type} (F : FloatOps float).

(** The cast of a float to [size_t]. *)
Variable to_size : float -> N.

(** Unsigned decimal fractions [ddd.ddd], converted by one division. *)
Definition parse_float (s : string) : float :=
  let '(ip, ci, r) := digits (skip_spaces s) 0 O in
  match r with
  | String "."%char r' =>
      let '(fp, cf, _) := digits r' 0 O in
      match ci, cf with
      | O, O => f_zero
      | _, _ => f_div (f_of_unsigned (ip * 10 ^ N.of_nat cf + fp))
                      (f_of_unsigned (10 ^ N.of_nat cf))
      end
  | _ => match ci with O => f_zero | _ => f_of_unsigned ip end
  end.

(** One byte per sample in both encodings. *)
Definition frame_size (af : AudioFormat sample_format) : N := channels af.

Definition pcm8 : PcmOps float := {|
  SampleFormat := sample_format;
  PcmVolume := sample_format * N;
  GetFrameSize := frame_size;
  TimeToSize := fun af t =>
    size_t (to_size (f_mul t (f_of_unsigned (sample_rate af))) * frame_size af);
  SizeToTime := fun af size =>
    f_div (f_of_unsigned (size / frame_size af)) (f_of_unsigned (sample_rate af));
  silence_pattern := fun fmt => match fmt with S8 => Byte.x00 | DSD => Byte.x69 end;
  PCM_VOLUME_1 := 1024;
  pv_init := (S8, 1024);
  pv_Open := fun v fmt _ => ((fmt, snd v), fmt);
  pv_SetVolume := fun v volume => (fst v, volume);
  pv_Apply := fun v xs =>
    match fst v with
    | S8 => (v, map (scale_sample (snd v)) xs)
    | DSD => (v, xs)
    end;
  strtof := parse_float;
  strtoul10 := parse_ulong
|}.

End Pcm8.

(** 8-bit mono at [rate] Hz. *)
Definition mono8 (rate : N) : AudioFormat sample_format :=
  {| sample_rate := rate; format := S8; channels := 1 |}.

(** 8-bit stereo at [rate] Hz. *)
Definition stereo8 (rate : N) : AudioFormat sample_format :=
  {| sample_rate := rate; format := S8; channels := 2 |}.

(** ** IEEE binary32 *)
Module Binary32.

Definition prec : Z := 24.
Definition emax : Z := 128.

Definition float32 : Type := spec_float.

Definition of_N (n : N) : float32 := binary_normalize prec emax (Z.of_N n) 0 false.

(** The integer part of a float, saturated to [0, bound]; C++ leaves the
    cast undefined outside the range of the target, saturation is what
    AArch64 does. *)
Definition trunc_sat (bound : N) (x : float32) : N :=
  match x with
  | S754_finite false m (Zneg p) => N.min bound (N.shiftr (Npos m) (Npos p))
  | S754_finite false m e => N.min bound (N.shiftl (Npos m) (Z.to_N e))
  | S754_infinity false => bound
  | _ => 0
  end.

#[export] Instance float32_ops : FloatOps float32 := {
  f_zero := S754_zero false;
  f_one := S754_finite false 8388608 (-23);
  f_tenth := S754_finite false 13421773 (-27);
  f_add := SFadd prec emax;
  f_sub := SFsub prec emax;
  f_mul := SFmul prec emax;
  f_div := SFdiv prec emax;
  f_ge := fun x y => SFleb y x;
  f_ne := fun x y => negb (SFeqb x y);
  f_of_unsigned := of_N;
  f_to_unsigned := trunc_sat (2 ^ 32 - 1)
}.

#[export] Instance pcm : PcmOps float32 :=
  pcm8 float32_ops (trunc_sat (SIZE_MAX1 - 1)).

(** The rational value of a finite float. *)
Definition to_Q (x : float32) : Q :=
  match x with
  | S754_finite s m e =>
      (if s then -1 else 1) * inject_Z (Zpos m) * Qpower 2 e
  | _ => 0
  end.

(** Half a unit in the last place of a finite float. *)
Definition half_ulp (x : float32) : Q :=
  match x with
  | S754_finite _ _ e => Qpower 2 (e - 1)
  | _ => 0
  end.

End Binary32.

(** A single-precision value that is a number other than zero: finite and
    not zero, or infinite. *)
Definition nonzero_number (x : Binary32.float32) : bool :=
  match x with
  | S754_finite _ _ _ | S754_infinity _ => true
  | _ => false
  end.

(** * Single precision on a scale

    The finite values of single precision are integer multiples of
    [2 ^ -149]; on a scale fine enough they and the exact results of the
    operations the filter uses are integers, with at most a sticky
    remainder. *)

Section Scale32.

Local Open Scope Z_scope.

(** A value located on a scale: [U] units and, when [st], something more
    that is less than a unit, held by a shift record whose mantissa counts
    multiples of [2 ^ k] units. *)
Definition rep (U : Z) (st : bool) (k : Z) (mrs : shr_record) : Prop :=
  1 <= k /\
  shr_m mrs = U / 2 ^ k /\
  shr_r mrs = (2 ^ (k - 1) <=? U mod 2 ^ k) /\
  shr_s mrs = st || negb (U mod 2 ^ (k - 1) =? 0).

(** Rounding to nearest, ties to even, of a located value to a multiple of
    [2 ^ k] units: the multiple. *)
Definition rnd (U : Z) (st : bool) (k : Z) : Z :=
  let q := U / 2 ^ k in
  let rem := U mod 2 ^ k in
  let half := 2 ^ (k - 1) in
  if (half <? rem) || ((rem =? half) && (st || Z.odd q)) then q + 1 else q.

(** The regular single-precision values: not negative, not NaN,
    canonical. *)
Definition regular32 (x : spec_float) : Prop :=
  match x with
  | S754_zero _ => True
  | S754_infinity false => True
  | S754_finite false m e => bounded 24 128 m e = true
  | _ => False
  end.

(** The finite ones among them. *)
Definition finite32 (x : spec_float) : Prop :=
  match x with
  | S754_zero _ => True
  | S754_finite false m e => bounded 24 128 m e = true
  | _ => False
  end.

(** Values are counted in units of [2 ^ - sg]. *)
Definition sg : Z := 300.

(** The value of a regular float in these units; infinity counts as
    [2 ^ 128]. *)
Definition uval (x : spec_float) : Z :=
  match x with
  | S754_finite false m e => Zpos m * 2 ^ (e + sg)
  | S754_infinity false => 2 ^ (128 + sg)
  | _ => 0
  end.

(** The exponent, in units, of the grid of single precision around [U]. *)
Definition kof (U : Z) : Z := Z.max (Zdigits2 U - 24) (sg - 149).

(** Rounding to nearest even on the grid of single precision, in units. *)
Definition RNU (U : Z) (st : bool) : Z := rnd U st (kof U) * 2 ^ kof U.

(** Capped rounding: what single precision makes of a located value. *)
Definition RN32 (U : Z) (st : bool) : Z := Z.min (RNU U st) (2 ^ (128 + sg)).

(** A single-precision value above zero: positive, finite and
    canonical. *)
Definition above_zero32 (x : spec_float) : Prop :=
  match x with
  | S754_finite false m e => bounded 24 128 m e = true
  | _ => False
  end.

(** The single-precision values the cast to an unsigned integer sends to
    zero: zeros, negative values and NaN. *)
Definition dead32 (x : spec_float) : Prop :=
  match x with
  | S754_finite false _ _ | S754_infinity false => False
  | _ => True
  end.

End Scale32.

(** * The ramps in single precision *)

Section Ramps32Vocabulary.

Import Binary32.

(** The accumulator of a filter is regular, and below the ramp time on a
    rising ramp. *)
Definition timed (f : VolumeRampFilter) : Prop :=
  regular32 (cur_time f) /\
  (state f = RampUp -> f_ge (cur_time f) (volume_ramp_time f) = false).

(** A ramp time above zero and a sample rate other than zero. *)
Definition ramp_config (f : VolumeRampFilter) : Prop :=
  above_zero32 (volume_ramp_time f) /\ 0 < sample_rate (input_fmt f).

(** The number of calls within which a series of flushes returns an empty
    result: [ceil (ramp_time / (d - u)) + 1], for the sub-block duration [d]
    and half a unit [u] in the last place of the ramp time. *)
Definition flush_bound (f : VolumeRampFilter) : Z :=
  (Qceiling (to_Q (volume_ramp_time f) /
             (to_Q (block_time f) - half_ulp (volume_ramp_time f))) + 1)%Z.

(** The gains that the sub-blocks of sizes [ks] set one after the other,
    for as long as the ramp rises. *)
Fixpoint rising_gains (ks : list N) (f : VolumeRampFilter) : list N :=
  match ks with
  | [] => []
  | k :: rest =>
      match state f with
      | RampUp =>
          let f' := FilterPCM_block 0 k f in
          snd (pv f') :: rising_gains rest f'
      | _ => []
      end
  end.

(** The gains that the first [n] calls of a series of flushes set, for as
    long as the flushes do not find the filter in [Silence]. *)
Fixpoint falling_gains (n : nat) (f : VolumeRampFilter) : list N :=
  match n with
  | O => []
  | S n' =>
      match state f with
      | Silence => []
      | _ =>
          let f' := fst (Flush f) in
          snd (pv f') :: falling_gains n' f'
      end
  end.

End Ramps32Vocabulary.

(** * Filters to run

    [Demo]: 8-bit mono at 1 kHz, a ramp of 5 ms, 3 ms of added silence,
    sub-blocks of two frames.  [Voice]: 8-bit mono at 8 kHz, a ramp of half
    a second, sub-blocks of eight frames (one millisecond).  [Studio]: the
    end-to-end scenario of the specification at 44.1 kHz, mono. *)

Module Demo.

Import Binary32.

Definition config : ConfigBlock :=
  [("ramp_seconds", "0.005"); ("silence_seconds", "0.003"); ("block_size", "2")]%string.

Definition fresh : VolumeRampFilter :=
  Open (PreparedVolumeRampFilter_new config) (mono8 1000).

Definition audio : list byte :=
  [Byte.x10; Byte.x20; Byte.x30; Byte.x40; Byte.x50; Byte.x60; Byte.x70; Byte.x7f;
   Byte.x10; Byte.x20; Byte.x30; Byte.x40; Byte.x50; Byte.x60; Byte.x70; Byte.x7f].

(** The filter after one block of sixteen bytes: the ramp is over. *)
Definition played : VolumeRampFilter :=
  state_after (FilterPCM (length audio) audio fresh) fresh.

(** The filter one flush later: fading down. *)
Definition fading : VolumeRampFilter := fst (Flush played).

(** The filter after ten bytes: one sub-block into its rising ramp. *)
Definition rising : VolumeRampFilter :=
  state_after (FilterPCM 10 (firstn 10 audio) fresh) fresh.

(** The filter after twelve bytes: two sub-blocks into its rising ramp. *)
Definition risen : VolumeRampFilter :=
  state_after (FilterPCM 12 (firstn 12 audio) fresh) fresh.

(** A filter whose added silence time is not a number. *)
Definition mute : VolumeRampFilter :=
  VolumeRampFilter_new (mono8 1000) f_tenth S754_nan 2.

End Demo.

Module Voice.

Import Binary32.

Definition config : ConfigBlock :=
  [("ramp_seconds", "0.5"); ("block_size", "8")]%string.

Definition fresh : VolumeRampFilter :=
  Open (PreparedVolumeRampFilter_new config) (mono8 8000).

(** 1.2 seconds of audio. *)
Definition audio : list byte := repeat Byte.x40 (N.to_nat 9600).

Definition played : VolumeRampFilter :=
  state_after (FilterPCM (length audio) audio fresh) fresh.

(** [ceil (ramp_time / duration of a sub-block) + 1], on the rational
    values of the two floats. *)
Definition nominal_bound (f : VolumeRampFilter) : Z :=
  (Qceiling (to_Q (volume_ramp_time f) / to_Q (block_time f)) + 1)%Z.

End Voice.

Module Studio.

Import Binary32.

Definition config : ConfigBlock :=
  [("ramp_seconds", "0.1"); ("silence_seconds", "0.1"); ("block_size", "64")]%string.

Definition fresh : VolumeRampFilter :=
  Open (PreparedVolumeRampFilter_new config) (mono8 44100).

(** The 138 sub-blocks of the silent phase. *)
Definition lead_in : list byte := repeat Byte.x40 (N.to_nat 8832).

(** The filter at the start of its rising ramp. *)
Definition armed : VolumeRampFilter :=
  state_after (FilterPCM (length lead_in) lead_in fresh) fresh.

End Studio.

Module Slow.

Import Binary32.

(** 8-bit mono at 192 kHz, a ramp of 200 s, sub-blocks of one frame. *)
Definition config : ConfigBlock :=
  [("ramp_seconds", "200"); ("block_size", "1")]%string.

Definition fresh : VolumeRampFilter :=
  Open (PreparedVolumeRampFilter_new config) (mono8 192000).


End Slow.

Module Wide.

Import Binary32.

(** 8-bit stereo at 44.1 kHz with sub-blocks of [2 ^ 63] frames: the size
    of a sub-block in bytes wraps to zero. *)
Definition config : ConfigBlock :=
  [("block_size", "9223372036854775808")]%string.

Definition fresh : VolumeRampFilter :=
  Open (PreparedVolumeRampFilter_new config) (stereo8 44100).

(** The same filter on a falling ramp. *)
Definition fading : VolumeRampFilter := set_state RampDown fresh.

End Wide.

(** * Spans of a list *)

Section Spans.

Variable A : Type.
Implicit Types data new : list A.

Lemma firstn_length_le (n : nat) data :
  (n <= length data)%nat -> length (firstn n data) = n.
Proof. intros H. rewrite length_firstn. lia. Qed.

Lemma skipn_app_le (n : nat) (l1 l2 : list A) :
  (n <= length l1)%nat -> skipn n (l1 ++ l2) = skipn n l1 ++ l2.
Proof.
  intros H. rewrite skipn_app.
  replace (n - length l1)%nat with O by lia. reflexivity.
Qed.

Lemma firstn_app_le (n : nat) (l1 l2 : list A) :
  (n <= length l1)%nat -> firstn n (l1 ++ l2) = firstn n l1.
Proof.
  intros H. rewrite firstn_app.
  replace (n - length l1)%nat with O by lia. cbn. apply app_nil_r.
Qed.

Lemma skipn_app_ge (n : nat) (l1 l2 : list A) :
  (length l1 <= n)%nat -> skipn n (l1 ++ l2) = skipn (n - length l1) l2.
Proof.
  intros H. rewrite skipn_app, skipn_all2 by lia. reflexivity.
Qed.

End Spans.

Arguments firstn_length_le {A}.
Arguments skipn_app_le {A}.
Arguments firstn_app_le {A}.
Arguments skipn_app_ge {A}.

Lemma span_write_length (i : N) (new data : list byte) :
  (N.to_nat i + length new <= length data)%nat ->
  length (span_write i new data) = length data.
Proof.
  intros H. unfold span_write.
  rewrite !length_app, length_firstn, length_skipn. lia.
Qed.

(** Writing a span leaves what follows it as it was. *)
Lemma span_write_skipn (i : N) (new data : list byte) (m : nat) :
  (N.to_nat i + length new <= m)%nat -> (N.to_nat i <= length data)%nat ->
  skipn m (span_write i new data) = skipn m data.
Proof.
  intros H Hi. unfold span_write.
  rewrite skipn_app_ge by (rewrite length_firstn; lia).
  rewrite length_firstn, Nat.min_l by lia.
  rewrite skipn_app_ge by lia.
  rewrite skipn_skipn. f_equal. lia.
Qed.

(** Writing a span leaves what precedes it as it was. *)
Lemma span_write_firstn (i : N) (new data : list byte) (m : nat) :
  (m <= N.to_nat i)%nat -> (N.to_nat i <= length data)%nat ->
  firstn m (span_write i new data) = firstn m data.
Proof.
  intros H Hi. unfold span_write.
  rewrite firstn_app_le by (rewrite length_firstn; lia).
  rewrite firstn_firstn. f_equal. lia.
Qed.

(** Reading back the span just written. *)
Lemma span_read_write (i : N) (new data : list byte) :
  (N.to_nat i <= length data)%nat ->
  span_read i (N.of_nat (length new)) (span_write i new data) = new.
Proof.
  intros Hi. unfold span_read, span_write.
  rewrite skipn_app_ge by (rewrite length_firstn; lia).
  rewrite length_firstn, Nat.min_l by lia.
  rewrite Nat.sub_diag. cbn [skipn].
  rewrite Nat2N.id, firstn_app_le by lia.
  apply firstn_all.
Qed.

(** Copying a span onto itself changes nothing. *)
Lemma span_write_read (i n : N) (data : list byte) :
  span_write i (span_read i n data) data = data.
Proof.
  unfold span_write, span_read.
  replace (skipn (N.to_nat i + length (firstn (N.to_nat n) (skipn (N.to_nat i) data))) data)
    with (skipn (N.to_nat n) (skipn (N.to_nat i) data)).
  - rewrite !firstn_skipn. reflexivity.
  - rewrite skipn_skipn, length_firstn, length_skipn.
    destruct (Nat.le_gt_cases (N.to_nat n) (length data - N.to_nat i)) as [H|H].
    + f_equal. lia.
    + rewrite !skipn_all2; [reflexivity | lia | lia].
Qed.

Lemma span_read_length (i n : N) (data : list byte) :
  (N.to_nat i + N.to_nat n <= length data)%nat ->
  length (span_read i n data) = N.to_nat n.
Proof.
  intros H. unfold span_read. rewrite length_firstn, length_skipn. lia.
Qed.

Lemma PcmSilence_length {float} {P : PcmOps float} (fmt : SampleFormat) (n : N) :
  length (PcmSilence fmt n) = N.to_nat n.
Proof. unfold PcmSilence. apply repeat_length. Qed.

Lemma PcmSilence_app {float} {P : PcmOps float} (fmt : SampleFormat) (a b : N) :
  PcmSilence fmt (a + b) = PcmSilence fmt a ++ PcmSilence fmt b.
Proof. unfold PcmSilence. rewrite N2Nat.inj_add. apply repeat_app. Qed.

(** * Properties of the filter *)

Lemma SIZE_MAX1_eq : SIZE_MAX1 = 18446744073709551616.
Proof. reflexivity. Qed.

Lemma size_t_small (n : N) : n < SIZE_MAX1 -> size_t n = n.
Proof. apply N.mod_small. Qed.

Lemma size_t_bound (n : N) : size_t n < SIZE_MAX1.
Proof. apply N.mod_lt. rewrite SIZE_MAX1_eq. discriminate. Qed.

Section Properties.

Context {float : Type} {F : FloatOps float} {P : PcmOps float}.

Implicit Types f : VolumeRampFilter.

Lemma same_config_refl f : same_config f f.
Proof. repeat split. Qed.

Lemma same_config_trans f1 f2 f3 :
  same_config f1 f2 -> same_config f2 f3 -> same_config f1 f3.
Proof.
  unfold same_config. intros (A1 & A2 & A3 & A4 & A5) (B1 & B2 & B3 & B4 & B5).
  repeat split; congruence.
Qed.

Lemma same_config_block_bytes f f' : same_config f f' -> block_bytes f' = block_bytes f.
Proof. intros (_ & _ & _ & H4 & H5). unfold block_bytes. now rewrite H4, H5. Qed.

(** ** The prologue *)

Lemma consume_last_data f :
  fifo_data (delay_buf (consume_last f)) = pending f.
Proof.
  unfold consume_last, pending.
  destruct (last_delay_buf_size f =? 0) eqn:E.
  - apply N.eqb_eq in E. rewrite E. reflexivity.
  - reflexivity.
Qed.

Lemma consume_last_last f : last_delay_buf_size (consume_last f) = 0.
Proof.
  unfold consume_last.
  destruct (last_delay_buf_size f =? 0) eqn:E; [now apply N.eqb_eq in E | reflexivity].
Qed.

Lemma consume_last_frame f :
  same_config f (consume_last f) /\
  state (consume_last f) = state f /\
  cur_time (consume_last f) = cur_time f /\
  pv (consume_last f) = pv f.
Proof.
  unfold consume_last.
  destruct (last_delay_buf_size f =? 0); repeat split.
Qed.

Lemma consume_last_pending f : pending (consume_last f) = pending f.
Proof.
  unfold pending at 1. rewrite consume_last_last, consume_last_data. reflexivity.
Qed.

Lemma store_data (src : list byte) f :
  fifo_data (delay_buf (store src f)) = fifo_data (delay_buf f) ++ src.
Proof.
  unfold store. cbn. rewrite Nat2N.id, firstn_all. reflexivity.
Qed.

Lemma store_frame (src : list byte) f :
  same_config f (store src f) /\
  state (store src f) = state f /\
  cur_time (store src f) = cur_time f /\
  pv (store src f) = pv f /\
  last_delay_buf_size (store src f) = N.of_nat (length src).
Proof. repeat split. Qed.

(** ** One sub-block *)

(** A sub-block inside the buffer is transformed in place: the buffer keeps
    its length, and the bytes before and after the sub-block are untouched. *)
Lemma FilterPCM_block_buffer {L : PcmLaws P} (i k : N) f :
  (N.to_nat i + N.to_nat k <= length (fifo_data (delay_buf f)))%nat ->
  let f' := FilterPCM_block i k f in
  length (fifo_data (delay_buf f')) = length (fifo_data (delay_buf f)) /\
  (forall m, (N.to_nat i + N.to_nat k <= m)%nat ->
     skipn m (fifo_data (delay_buf f')) = skipn m (fifo_data (delay_buf f))) /\
  (forall m, (m <= N.to_nat i)%nat ->
     firstn m (fifo_data (delay_buf f')) = firstn m (fifo_data (delay_buf f))).
Proof.
  intros Hik. unfold FilterPCM_block.
  assert (Hsil : forall fmt, length (PcmSilence fmt k) = N.to_nat k)
    by (intros; apply PcmSilence_length).
  assert (Happ : forall v,
    length (snd (pv_Apply v (span_read i k (fifo_Read (delay_buf f))))) = N.to_nat k).
  { intros v. rewrite pv_Apply_length. apply span_read_length. exact Hik. }
  destruct (state f); cbn;
    repeat match goal with |- context [if ?c then _ else _] => destruct c; cbn end;
    (split; [apply span_write_length | split; intros m Hm;
       [apply span_write_skipn | apply span_write_firstn]]);
    rewrite ?Hsil, ?Happ, ?span_read_length; unfold fifo_Read; lia.
Qed.

Lemma FilterPCM_block_frame (i k : N) f :
  same_config f (FilterPCM_block i k f) /\
  last_delay_buf_size (FilterPCM_block i k f) = last_delay_buf_size f.
Proof.
  unfold FilterPCM_block.
  destruct (state f); cbn;
    repeat match goal with |- context [if ?c then _ else _] => destruct c; cbn end;
    repeat split.
Qed.

(** ** The loop *)

(** Whatever every sub-block preserves holds when the loop returns. *)
Lemma FilterPCM_loop_inv (Inv : VolumeRampFilter -> Prop) (n bs : N) :
  (forall i f, i < n -> Inv f ->
     Inv (FilterPCM_block i (if bs <? n - i then bs else n - i) f)) ->
  forall fuel i f f',
    Inv f -> FilterPCM_loop fuel n bs i f = Some f' -> Inv f'.
Proof.
  intros Hstep fuel. induction fuel as [|fuel IH]; intros i f f' HI; cbn.
  - destruct (i <? n); [discriminate | intros [= <-]; exact HI].
  - destruct (i <? n) eqn:E; [| intros [= <-]; exact HI].
    apply N.ltb_lt in E. apply IH. now apply Hstep.
Qed.

(** With a non-zero sub-block size the loop returns, within one iteration
    per byte, having visited the offsets 0, bs, 2 bs, ... *)
Lemma FilterPCM_loop_run (Inv : N -> VolumeRampFilter -> Prop) (n bs : N) :
  0 < bs -> bs < SIZE_MAX1 -> n < 2 ^ 63 ->
  (forall i f, i < n -> Inv i f ->
     Inv (i + bs) (FilterPCM_block i (if bs <? n - i then bs else n - i) f)) ->
  forall fuel i f,
    i = 0 \/ bs <= i -> (N.to_nat (n - i) <= fuel)%nat -> Inv i f ->
    exists i' f', FilterPCM_loop fuel n bs i f = Some f' /\ n <= i' /\ Inv i' f'.
Proof.
  intros Hbs Hmax Hn Hstep fuel.
  change (2 ^ 63) with 9223372036854775808 in Hn. rewrite SIZE_MAX1_eq in Hmax.
  induction fuel as [|fuel IH]; intros i f Hi Hfuel HI; cbn.
  - destruct (i <? n) eqn:E.
    + apply N.ltb_lt in E. lia.
    + apply N.ltb_ge in E. now exists i, f.
  - destruct (i <? n) eqn:E.
    + apply N.ltb_lt in E.
      rewrite size_t_small by (rewrite SIZE_MAX1_eq; lia).
      apply IH; [lia | lia | now apply Hstep].
    + apply N.ltb_ge in E. now exists i, f.
Qed.

(** A zero sub-block size makes the loop spin on a non-empty block. *)
Lemma FilterPCM_loop_spins (n : N) :
  0 < n -> forall fuel f, FilterPCM_loop fuel n 0 0 f = None.
Proof.
  intros Hn fuel. induction fuel as [|fuel IH]; intros f; cbn.
  - destruct (0 <? n) eqn:E; [reflexivity | apply N.ltb_ge in E; lia].
  - destruct (0 <? n) eqn:E; [apply IH | apply N.ltb_ge in E; lia].
Qed.

(** ** Returning *)

Lemma firstn_add (A : Type) (a b : nat) (l : list A) :
  firstn (a + b) l = firstn a l ++ firstn b (skipn a l).
Proof.
  revert l. induction a as [|a IH]; intros l; [reflexivity|].
  destruct l as [|x l]; cbn.
  - now rewrite firstn_nil.
  - f_equal. apply IH.
Qed.

Lemma stored_data (src : list byte) f :
  fifo_data (delay_buf (stored src f)) = pending f ++ src.
Proof. unfold stored. now rewrite store_data, consume_last_data. Qed.

Lemma stored_frame (src : list byte) f :
  same_config f (stored src f) /\
  state (stored src f) = state f /\
  cur_time (stored src f) = cur_time f /\
  pv (stored src f) = pv f /\
  last_delay_buf_size (stored src f) = N.of_nat (length src).
Proof.
  unfold stored.
  destruct (consume_last_frame f) as (C & S1 & T1 & V1).
  destruct (store_frame src (consume_last f)) as (C' & S2 & T2 & V2 & L2).
  repeat split; try congruence.
  all: try (destruct C as (? & ? & ? & ? & ?); destruct C' as (? & ? & ? & ? & ?);
            congruence).
Qed.

Lemma FilterPCM_unfold (fuel : nat) (src : list byte) f :
  FilterPCM fuel src f =
  match state f with
  | Final => Some (stored src f, delayed_src (N.of_nat (length src)) (stored src f))
  | _ =>
      match FilterPCM_loop fuel (N.of_nat (length src)) (block_bytes f) 0 (stored src f) with
      | Some f' => Some (f', delayed_src (N.of_nat (length src)) f')
      | None => None
      end
  end.
Proof.
  unfold FilterPCM, stored, block_bytes.
  destruct (consume_last_frame f) as ((_ & _ & _ & C4 & C5) & S1 & _ & _).
  rewrite S1. cbn. rewrite C4, C5. destruct (state f); reflexivity.
Qed.

Lemma delayed_src_length (n : N) f :
  (N.to_nat n <= length (fifo_data (delay_buf f)))%nat ->
  length (delayed_src n f) = N.to_nat n.
Proof.
  intros H. unfold delayed_src. apply span_read_length. cbn. unfold fifo_Read. lia.
Qed.

Lemma loop_keeps_refl (n : N) f : loop_keeps n f f.
Proof. repeat split. Qed.

Lemma loop_keeps_block {L : PcmLaws P} (n bs i : N) f0 f :
  (N.to_nat n <= length (fifo_data (delay_buf f0)))%nat ->
  i < n -> loop_keeps n f0 f ->
  loop_keeps n f0 (FilterPCM_block i (if bs <? n - i then bs else n - i) f).
Proof.
  intros Hn Hi (K1 & K2 & K3 & K4).
  set (k := if bs <? n - i then bs else n - i).
  assert (Hk : k <= n - i).
  { subst k. destruct (bs <? n - i) eqn:E; [apply N.ltb_lt in E|]; lia. }
  destruct (FilterPCM_block_buffer i k f) as (B1 & B2 & _); [lia|].
  destruct (FilterPCM_block_frame i k f) as (B3 & B4).
  repeat split.
  - congruence.
  - rewrite B2 by lia. exact K2.
  - congruence.
  - destruct K4 as (? & ? & ? & ? & ?), B3 as (? & ? & ? & ? & ?). congruence.
  - destruct K4 as (? & ? & ? & ? & ?), B3 as (? & ? & ? & ? & ?). congruence.
  - destruct K4 as (? & ? & ? & ? & ?), B3 as (? & ? & ? & ? & ?). congruence.
  - destruct K4 as (? & ? & ? & ? & ?), B3 as (? & ? & ? & ? & ?). congruence.
  - destruct K4 as (? & ? & ? & ? & ?), B3 as (? & ? & ? & ? & ?). congruence.
Qed.

Lemma stored_long_enough (src : list byte) f :
  (N.to_nat (N.of_nat (length src)) <= length (fifo_data (delay_buf (stored src f))))%nat.
Proof. rewrite stored_data, length_app. lia. Qed.

(** Whenever [FilterPCM] returns, the returned span has the length of the
    source and the delay line holds the former pending bytes and the source,
    of which the returned prefix has been transformed in place. *)
Lemma FilterPCM_result {L : PcmLaws P} (fuel : nat) (src : list byte) f f' out :
  FilterPCM fuel src f = Some (f', out) ->
  length out = length src /\
  out = firstn (length src) (fifo_data (delay_buf f')) /\
  pending f' = skipn (length src) (pending f ++ src) /\
  last_delay_buf_size f' = N.of_nat (length src) /\
  same_config f f'.
Proof.
  rewrite FilterPCM_unfold. intros H.
  pose proof (stored_long_enough src f) as Hlen.
  destruct (stored_frame src f) as (C & _ & _ & _ & HL).
  assert (K : loop_keeps (N.of_nat (length src)) (stored src f) f' /\
              out = delayed_src (N.of_nat (length src)) f').
  { destruct (state f).
    1-3: destruct (FilterPCM_loop _ _ _ _ _) as [f1|] eqn:E; [|discriminate];
         injection H as <- <-; split; [|reflexivity];
         eapply FilterPCM_loop_inv; [| apply loop_keeps_refl | exact E];
         intros i g Hi Hg; now apply loop_keeps_block.
    injection H as <- <-. split; [apply loop_keeps_refl | reflexivity]. }
  destruct K as ((K1 & K2 & K3 & K4) & ->).
  rewrite Nat2N.id in *.
  repeat split.
  - rewrite delayed_src_length; rewrite Nat2N.id; lia.
  - unfold delayed_src, span_read. now rewrite Nat2N.id.
  - unfold pending at 1. rewrite K3, HL, Nat2N.id, K2. now rewrite stored_data.
  - congruence.
  - apply (same_config_trans _ _ _ C K4).
  - apply (same_config_trans _ _ _ C K4).
  - apply (same_config_trans _ _ _ C K4).
  - apply (same_config_trans _ _ _ C K4).
  - apply (same_config_trans _ _ _ C K4).
Qed.

(** With a non-zero sub-block size [FilterPCM] returns. *)
Lemma FilterPCM_returns {L : PcmLaws P} (fuel : nat) (src : list byte) f :
  block_bytes f <> 0 -> N.of_nat (length src) < 2 ^ 63 ->
  (length src <= fuel)%nat ->
  exists f' out, FilterPCM fuel src f = Some (f', out).
Proof.
  intros Hbs Hn Hfuel. rewrite FilterPCM_unfold.
  pose proof (stored_long_enough src f) as Hlen.
  destruct (FilterPCM_loop_run (fun _ g => loop_keeps (N.of_nat (length src)) (stored src f) g)
              (N.of_nat (length src)) (block_bytes f)) with
    (fuel := fuel) (i := 0) (f := stored src f) as (i' & f' & E & _ & _).
  - lia.
  - apply size_t_bound.
  - exact Hn.
  - intros i g Hi Hg. now apply loop_keeps_block.
  - now left.
  - lia.
  - apply loop_keeps_refl.
  - rewrite E. destruct (state f); eauto.
Qed.

(** With a zero sub-block size it does not, outside [Final], on a
    non-empty block: the loop never advances. *)
Lemma FilterPCM_spins (fuel : nat) (src : list byte) f :
  block_bytes f = 0 -> state f <> Final -> src <> [] ->
  FilterPCM fuel src f = None.
Proof.
  intros Hbs Hs Hsrc. rewrite FilterPCM_unfold, Hbs.
  rewrite FilterPCM_loop_spins by (destruct src; [congruence | cbn; lia]).
  destruct (state f); congruence.
Qed.

(** ** Silence *)

Lemma FilterPCM_block_silence (i k : N) f :
  renders_silence (state f) ->
  let f' := FilterPCM_block i k f in
  let t := f_add (cur_time f) (SizeToTime (input_fmt f) k) in
  fifo_data (delay_buf f') =
    span_write i (PcmSilence (format (out_audio_format f)) k) (fifo_data (delay_buf f)) /\
  pv f' = pv_SetVolume (pv f) 0 /\
  (if f_ge t (f_add (volume_ramp_time f) (silence_add_time f))
   then cur_time f' = f_zero /\ state f' = RampUp
   else cur_time f' = t /\ state f' = state f).
Proof.
  intros [E|E]; unfold FilterPCM_block; rewrite E; cbn;
    destruct (f_ge _ _); cbn; repeat split; congruence.
Qed.

Lemma FilterPCM_block_audible (i k : N) f :
  ~ renders_silence (state f) -> ~ renders_silence (state (FilterPCM_block i k f)).
Proof.
  unfold renders_silence, FilterPCM_block. intros H.
  destruct (state f) eqn:E; try (exfalso; apply H; auto; fail); cbn;
    repeat match goal with |- context [if ?c then _ else _] => destruct c; cbn end;
    rewrite ?E; intros [?|?]; congruence.
Qed.

Lemma silence_inv_block {L : PcmLaws P} (n bs i : N) f0 f :
  0 < bs ->
  (N.to_nat n <= length (fifo_data (delay_buf f0)))%nat ->
  i < n -> silence_inv n bs (format (out_audio_format f0)) f0 i f ->
  silence_inv n bs (format (out_audio_format f0)) f0 (i + bs)
    (FilterPCM_block i (if bs <? n - i then bs else n - i) f).
Proof.
  intros Hbs Hn Hi (K & Hib & H0 & Hfirst & Hall).
  set (k := if bs <? n - i then bs else n - i).
  assert (Hk : i + k = N.min (i + bs) n).
  { subst k. destruct (bs <? n - i) eqn:E; [apply N.ltb_lt in E|apply N.ltb_ge in E]; lia. }
  assert (Hlen : length (fifo_data (delay_buf f)) = length (fifo_data (delay_buf f0)))
    by apply K.
  assert (Hfmt : out_audio_format f = out_audio_format f0) by apply K.
  destruct (FilterPCM_block_buffer i k f) as (_ & _ & B3); [lia|].
  split; [now apply loop_keeps_block|].
  split; [right; lia|].
  split; [lia|].
  assert (Hcase : renders_silence (state f) \/ ~ renders_silence (state f)).
  { unfold renders_silence. destruct (state f); auto;
      right; intros [?|?]; discriminate. }
  destruct Hcase as [Hs|Hs].
  - destruct (FilterPCM_block_silence i k f Hs) as (D & _ & _).
    fold k. rewrite Hfmt in D.
    assert (Hrd : span_read i k (fifo_data (delay_buf (FilterPCM_block i k f))) =
                  PcmSilence (format (out_audio_format f0)) k).
    { rewrite D.
      rewrite <- (N2Nat.id k) at 1.
      rewrite <- (PcmSilence_length (format (out_audio_format f0)) k).
      apply span_read_write. lia. }
    assert (Hpre : firstn (N.to_nat (i + k)) (fifo_data (delay_buf (FilterPCM_block i k f))) =
                   PcmSilence (format (out_audio_format f0)) (i + k)).
    { rewrite N2Nat.inj_add, firstn_add, B3 by lia.
      specialize (Hall Hs). rewrite N.min_l in Hall by lia.
      rewrite Hall. fold (span_read i k (fifo_data (delay_buf (FilterPCM_block i k f)))).
      rewrite Hrd. symmetry. apply PcmSilence_app. }
    split.
    + intros _. destruct Hib as [->|Hib].
      * replace (N.min bs n) with (0 + k) by lia. exact Hpre.
      * rewrite B3 by lia. apply Hfirst. lia.
    + intros _. rewrite <- Hk. exact Hpre.
  - split.
    + intros _. destruct Hib as [->|Hib]; [exfalso; now apply Hs, H0|].
      fold k. rewrite B3 by lia. apply Hfirst. lia.
    + intros Hs'. exfalso. revert Hs'. now apply FilterPCM_block_audible.
Qed.

(** A call entered in a silent state returns silence for its first
    sub-block, and for the whole block when it leaves the state silent. *)
Lemma FilterPCM_silence {L : PcmLaws P} (fuel : nat) (src : list byte) f :
  renders_silence (state f) ->
  block_bytes f <> 0 -> N.of_nat (length src) < 2 ^ 63 -> (length src <= fuel)%nat ->
  let n := N.of_nat (length src) in
  let fmt := format (out_audio_format f) in
  exists f' out,
    FilterPCM fuel src f = Some (f', out) /\
    firstn (N.to_nat (N.min (block_bytes f) n)) out = PcmSilence fmt (N.min (block_bytes f) n) /\
    (renders_silence (state f') -> out = PcmSilence fmt n).
Proof.
  intros Hs Hbs Hn Hfuel n fmt. subst n fmt. rewrite FilterPCM_unfold.
  pose proof (stored_long_enough src f) as Hlen.
  destruct (stored_frame src f) as (C & S0 & _).
  set (n := N.of_nat (length src)) in *.
  set (fmt := format (out_audio_format f)).
  assert (Hfmt : format (out_audio_format (stored src f)) = fmt)
    by (subst fmt; f_equal; apply C).
  destruct (FilterPCM_loop_run
              (silence_inv n (block_bytes f) (format (out_audio_format (stored src f)))
                           (stored src f))
              n (block_bytes f)) with
    (fuel := fuel) (i := 0) (f := stored src f)
    as (i' & f' & E & Hi' & (K & Hib & H0 & Hfirst & Hall)).
  - lia.
  - apply size_t_bound.
  - exact Hn.
  - intros i g Hi Hg. apply silence_inv_block; [lia | exact Hlen | exact Hi | exact Hg].
  - now left.
  - subst n. lia.
  - split; [apply loop_keeps_refl|]. split; [now left|]. split; [now rewrite S0|].
    split; [lia|]. intros _. rewrite N.min_l by lia. reflexivity.
  - rewrite E. rewrite Hfmt in *.
    assert (Hst : state f <> Final) by (destruct Hs as [-> | ->]; discriminate).
    exists f', (delayed_src n f').
    split; [destruct (state f); congruence|].
    unfold delayed_src, span_read, fifo_Read. cbn [N.to_nat skipn].
    split.
    + rewrite firstn_firstn, Nat.min_l by lia.
      destruct (N.eq_dec i' 0) as [->|Hne].
      * replace (N.min (block_bytes f) n) with 0 by lia. reflexivity.
      * apply Hfirst. lia.
    + intros Hs'. specialize (Hall Hs'). rewrite N.min_r in Hall by lia. exact Hall.
Qed.

(** ** The filter contract *)

(** C2 (length preservation), amended.  Whenever a call of [FilterPCM]
    returns, in whatever state, the returned span has exactly the byte
    length of the source.  The call does return, for a block shorter than
    [PTRDIFF_MAX] and with one iteration per byte, when the filter is in
    [Final], or the block is empty, or the size of a sub-block in bytes is
    not zero; with a sub-block size of zero it returns in no other case,
    however many iterations it is given. *)
Theorem FilterPCM_length {L : PcmLaws P} (fuel : nat) (src : list byte) f :
  (forall f' out,
     FilterPCM fuel src f = Some (f', out) -> length out = length src) /\
  (state f = Final \/ src = [] \/ block_bytes f <> 0 ->
   N.of_nat (length src) < 2 ^ 63 -> (length src <= fuel)%nat ->
   exists f' out,
     FilterPCM fuel src f = Some (f', out) /\ length out = length src) /\
  (block_bytes f = 0 -> state f <> Final -> src <> [] ->
   FilterPCM fuel src f = None).
Proof.
  assert (Hlen : forall f' out,
             FilterPCM fuel src f = Some (f', out) -> length out = length src).
  { intros f' out E. now apply (FilterPCM_result fuel src f f' out). }
  split; [exact Hlen|]. split; [|apply FilterPCM_spins].
  intros Hcase Hn Hfuel.
  assert (Hret : exists f' out, FilterPCM fuel src f = Some (f', out)).
  { destruct Hcase as [Hs | [-> | Hbs]].
    - rewrite FilterPCM_unfold, Hs. eauto.
    - rewrite FilterPCM_unfold. cbn [length N.of_nat].
      destruct (state f); destruct fuel; cbn; eauto.
    - now apply FilterPCM_returns. }
  destruct Hret as (f' & out & E).
  exists f', out. split; [exact E | exact (Hlen f' out E)].
Qed.

(** C10 (empty input).  In every state and with any fuel, [FilterPCM] on an
    empty block returns an empty span; the ramp state, the accumulator, the
    gain primitive and the configuration are unchanged, and the delay line
    holds what it held, minus the bytes the previous call returned. *)
Theorem FilterPCM_empty (fuel : nat) f :
  exists f',
    FilterPCM fuel [] f = Some (f', []) /\
    state f' = state f /\
    cur_time f' = cur_time f /\
    pv f' = pv f /\
    fifo_data (delay_buf f') = pending f /\
    last_delay_buf_size f' = 0 /\
    pending f' = pending f /\
    same_config f f'.
Proof.
  exists (stored [] f).
  destruct (stored_frame [] f) as (C & S0 & T0 & V0 & L0).
  pose proof (stored_data [] f) as D. rewrite app_nil_r in D.
  split.
  - rewrite FilterPCM_unfold. cbn [length N.of_nat].
    destruct (state f); destruct fuel; reflexivity.
  - repeat split; try assumption; try apply C.
    all: unfold pending at 1; rewrite L0, D; reflexivity.
Qed.

(** C8 (reset frame).  [Reset] sets the accumulator to zero and the state
    to [Silence] and changes nothing else: the delay line, the pending
    consume size, the gain primitive and the configuration are as before, so
    the next call finds the same bytes in the delay line. *)
Theorem Reset_frame f :
  cur_time (Reset f) = f_zero /\
  state (Reset f) = Silence /\
  delay_buf (Reset f) = delay_buf f /\
  last_delay_buf_size (Reset f) = last_delay_buf_size f /\
  pv (Reset f) = pv f /\
  same_config f (Reset f) /\
  pending (Reset f) = pending f /\
  (forall src, fifo_data (delay_buf (stored src (Reset f))) =
               fifo_data (delay_buf (stored src f))).
Proof.
  repeat split. intros src. now rewrite !stored_data.
Qed.


(** ** Flush *)

Lemma block_bytes_comm f :
  size_t (ramp_block_size f * GetFrameSize (input_fmt f)) = block_bytes f.
Proof. unfold block_bytes. now rewrite N.mul_comm. Qed.

Lemma PcmSilence_firstn {fl} {Q : PcmOps fl} (fmt : @SampleFormat fl Q) (n : N) :
  firstn (N.to_nat n) (PcmSilence fmt n) = PcmSilence fmt n.
Proof. apply firstn_all2. now rewrite PcmSilence_length. Qed.

(** What the [RampDown] case of [Flush] does to a filter that has nothing
    left to consume. *)
Lemma Flush_RampDown_spec f :
  let c := cur_time f in
  let n := block_bytes f in
  let t := f_add c (SizeToTime (input_fmt f) n) in
  let line := fifo_data (delay_buf f) ++ PcmSilence (format (input_fmt f)) n in
  let applied :=
    pv_Apply (pv_SetVolume (pv f) (ramp_down_volume (volume_ramp_time f) c))
             (firstn (N.to_nat n) line) in
  let f' := fst (Flush_RampDown f) in
  snd (Flush_RampDown f) = snd applied /\
  pv f' = fst applied /\
  fifo_data (delay_buf f') = line /\
  last_delay_buf_size f' = n /\
  (if f_ge t (volume_ramp_time f)
   then cur_time f' = f_zero /\ state f' = Silence
   else cur_time f' = t /\ state f' = state f) /\
  same_config f f'.
Proof.
  unfold Flush_RampDown. rewrite block_bytes_comm. cbn.
  destruct (f_ge _ _); cbn; unfold delayed_src, span_read, fifo_Read; cbn;
    rewrite PcmSilence_firstn; repeat split.
Qed.

(** A flush outside [Silence] is the [RampDown] case run on the mirrored
    or current accumulator, after the prologue. *)
Lemma Flush_unfold f :
  state f <> Silence ->
  Flush f =
  Flush_RampDown (set_state RampDown (set_cur_time (flush_acc f) (consume_last f))).
Proof.
  intros Hs. unfold Flush, flush_acc, Flush_RampUp, Flush_Final.
  destruct (consume_last_frame f) as (_ & S0 & T0 & _).
  rewrite S0, T0.
  assert (C : volume_ramp_time (consume_last f) = volume_ramp_time f)
    by apply consume_last_frame.
  rewrite C.
  destruct (state f) eqn:E; try congruence;
    try reflexivity;
    f_equal; destruct (consume_last f); cbn in *; subst; reflexivity.
Qed.

Lemma Flush_Silence f :
  state f = Silence ->
  snd (Flush f) = [] /\
  state (fst (Flush f)) = Silence /\
  cur_time (fst (Flush f)) = f_zero /\
  pending (fst (Flush f)) = pending f /\
  same_config f (fst (Flush f)).
Proof.
  intros Hs. unfold Flush.
  destruct (consume_last_frame f) as (C & S0 & _).
  rewrite S0, Hs. cbn.
  split; [reflexivity|]. split; [congruence|]. split; [reflexivity|].
  split.
  - unfold pending. cbn. fold (pending (consume_last f)). apply consume_last_pending.
  - repeat split; apply C.
Qed.

(** The complete effect of a flush outside [Silence]. *)
Lemma Flush_spec {L : PcmLaws P} f :
  state f <> Silence ->
  let c := flush_acc f in
  let n := block_bytes f in
  let t := f_add c (SizeToTime (input_fmt f) n) in
  let line := pending f ++ PcmSilence (format (input_fmt f)) n in
  let applied :=
    pv_Apply (pv_SetVolume (pv f) (ramp_down_volume (volume_ramp_time f) c))
             (firstn (N.to_nat n) line) in
  let f' := fst (Flush f) in
  snd (Flush f) = snd applied /\
  pv f' = fst applied /\
  fifo_data (delay_buf f') = line /\
  last_delay_buf_size f' = n /\
  pending f' = skipn (N.to_nat n) line /\
  (if f_ge t (volume_ramp_time f)
   then cur_time f' = f_zero /\ state f' = Silence
   else cur_time f' = t /\ state f' = RampDown) /\
  same_config f f' /\
  length (snd (Flush f)) = N.to_nat n.
Proof.
  intros Hs c n t line applied f'.
  subst f'. rewrite (Flush_unfold f Hs).
  set (g := set_state RampDown (set_cur_time (flush_acc f) (consume_last f))).
  destruct (consume_last_frame f) as (C & _ & _ & V).
  assert (Cg : same_config f g) by (subst g; destruct C as (? & ? & ? & ? & ?); repeat split; assumption).
  assert (Hn : block_bytes g = n) by (subst n; now apply same_config_block_bytes).
  assert (Hd : fifo_data (delay_buf g) = pending f) by (subst g; cbn; apply consume_last_data).
  destruct (Flush_RampDown_spec g) as (O & V' & D & La & T & C').
  rewrite Hn, Hd in *.
  assert (Hr : volume_ramp_time g = volume_ramp_time f) by apply Cg.
  assert (Hf : input_fmt g = input_fmt f) by apply Cg.
  rewrite Hr, Hf in *.
  change (cur_time g) with c in *. change (pv g) with (pv (consume_last f)) in *.
  rewrite V in *. change (state g) with RampDown in T.
  fold line in O, V', D. fold applied in O, V'. fold t in T.
  repeat split; try assumption.
  - unfold pending. now rewrite La, D.
  - apply (same_config_trans _ _ _ Cg C').
  - apply (same_config_trans _ _ _ Cg C').
  - apply (same_config_trans _ _ _ Cg C').
  - apply (same_config_trans _ _ _ Cg C').
  - apply (same_config_trans _ _ _ Cg C').
  - rewrite O. subst applied. rewrite pv_Apply_length, length_firstn.
    subst line. rewrite length_app, PcmSilence_length. lia.
Qed.


(** C7 (trigger).  [trigger] sets the accumulator to zero and the state to
    [Silence] and touches nothing else, in particular not the delay line,
    where the span already returned lives; triggering twice is triggering
    once; the next [Flush] returns nothing, and the next call of [FilterPCM]
    starts with silence, whatever ramp was in progress. *)
Theorem trigger_effect {L : PcmLaws P} f :
  (cur_time (trigger f) = f_zero /\
   state (trigger f) = Silence /\
   delay_buf (trigger f) = delay_buf f /\
   last_delay_buf_size (trigger f) = last_delay_buf_size f /\
   pv (trigger f) = pv f /\
   same_config f (trigger f)) /\
  trigger (trigger f) = trigger f /\
  snd (Flush (trigger f)) = [] /\
  (forall fuel src,
     block_bytes f <> 0 ->
     N.of_nat (length src) < 2 ^ 63 -> (length src <= fuel)%nat ->
     let n := N.of_nat (length src) in
     let fmt := format (out_audio_format f) in
     exists f' out,
       FilterPCM fuel src (trigger f) = Some (f', out) /\
       firstn (N.to_nat (N.min (block_bytes f) n)) out =
         PcmSilence fmt (N.min (block_bytes f) n) /\
       (state f' = Silence -> out = PcmSilence fmt n)).
Proof.
  split; [repeat split|]. split; [reflexivity|].
  split; [now apply Flush_Silence|].
  intros fuel src Hbs Hn Hfuel n fmt.
  destruct (FilterPCM_silence fuel src (trigger f)) as (f' & out & E & H1 & H2);
    [now left | exact Hbs | exact Hn | exact Hfuel |].
  exists f', out. split; [exact E|]. split; [exact H1|].
  intros Hs. apply H2. now left.
Qed.

(** ** The delay line along a run *)

(** Every call returns as many bytes as it appends, taken from the head of
    the line; what it leaves pending is the rest. *)
Lemma call_fifo {L : PcmLaws P} (c : Call) f f' out :
  call c f = Some (f', out) ->
  pending f' = skipn (length (appended c f)) (pending f ++ appended c f) /\
  length out = length (appended c f) /\
  same_config f f'.
Proof.
  destruct c as [src| | |]; cbn [call appended].
  - intros E. destruct (FilterPCM_result _ _ _ _ _ E) as (Len & _ & Pe & _ & C).
    split; [exact Pe | split; [exact Len | exact C]].
  - intros [= E].
    replace f' with (fst (Flush f)) by now rewrite E.
    replace out with (snd (Flush f)) by now rewrite E.
    clear E. destruct (state f) eqn:Es.
    2: { destruct (Flush_Silence f Es) as (O & _ & _ & Pe & C).
         rewrite O, app_nil_r.
         split; [exact Pe | split; [reflexivity | exact C]]. }
    all: assert (Hs : state f <> Silence) by congruence;
         destruct (Flush_spec f Hs) as (_ & _ & _ & _ & Pe & _ & C & Len);
         rewrite PcmSilence_length;
         split; [exact Pe | split; [exact Len | exact C]].
  - intros [= <- <-]. rewrite app_nil_r.
    split; [reflexivity | split; [reflexivity | repeat split]].
  - intros [= <- <-]. rewrite app_nil_r.
    split; [reflexivity | split; [reflexivity | repeat split]].
Qed.

Lemma run_fifo {L : PcmLaws P} (calls : list Call) :
  forall f f' W,
    run calls f = Some (f', W) ->
    pending f' = skipn (length W) (pending f ++ W) /\ same_config f f'.
Proof.
  induction calls as [|c rest IH]; intros f f' W; cbn [run].
  - intros [= <- <-]. rewrite app_nil_r. split; [reflexivity | apply same_config_refl].
  - destruct (call c f) as [[f1 out]|] eqn:Ec; [|discriminate].
    destruct (run rest f1) as [[f2 W']|] eqn:Er; [|discriminate].
    intros [= <- <-].
    destruct (call_fifo c f f1 out Ec) as (Pe & _ & C).
    destruct (IH f1 f2 W' Er) as (Pe' & C').
    split; [|apply (same_config_trans _ _ _ C C')].
    rewrite Pe', Pe, length_app.
    rewrite <- skipn_app_le by (rewrite length_app; lia).
    rewrite skipn_skipn, <- app_assoc. f_equal. lia.
Qed.

Lemma VolumeRampFilter_new_pending (fmt : AudioFormat SampleFormat)
    (ramp_time add_time : float) (block_size : N) :
  pending (VolumeRampFilter_new fmt ramp_time add_time block_size) =
  PcmSilence (format fmt) (TimeToSize fmt ramp_time).
Proof.
  unfold pending, VolumeRampFilter_new, fifo_Write_size, fifo_available. cbn.
  rewrite N.sub_0_r, N.max_0_l. apply PcmSilence_firstn.
Qed.


(** ** Repeated flushes *)

Lemma flushes_S (k : nat) f : flushes (S k) f = fst (Flush (flushes k f)).
Proof.
  revert f. induction k as [|k IH]; intros f; [reflexivity|].
  change (flushes (S (S k)) f) with (flushes (S k) (fst (Flush f))).
  rewrite IH. reflexivity.
Qed.

Lemma Flush_config {L : PcmLaws P} f : same_config f (fst (Flush f)).
Proof.
  destruct (state f) eqn:Es.
  2: now apply Flush_Silence.
  all: assert (Hs : state f <> Silence) by congruence;
       now apply (Flush_spec f Hs).
Qed.

(** In [Silence] a flush returns nothing, and a series of flushes stays
    there. *)
Lemma flushes_Silence (k : nat) :
  forall f, state f = Silence -> state (flushes k f) = Silence.
Proof.
  induction k as [|k IH]; intros f Hs; [exact Hs|].
  cbn. apply IH. now apply Flush_Silence.
Qed.

(** A flush in [RampDown] advances the accumulator once. *)
Lemma Flush_RampDown_step {L : PcmLaws P} f :
  state f = RampDown ->
  let t := f_add (cur_time f) (block_time f) in
  let f' := fst (Flush f) in
  block_time f' = block_time f /\
  volume_ramp_time f' = volume_ramp_time f /\
  (if f_ge t (volume_ramp_time f)
   then state f' = Silence
   else cur_time f' = t /\ state f' = RampDown).
Proof.
  intros Hs t f'.
  assert (Hns : state f <> Silence) by congruence.
  destruct (Flush_spec f Hns) as (_ & _ & _ & _ & _ & T & C & _).
  unfold flush_acc in T. rewrite Hs in T. fold (block_time f) in T. fold t f' in T, C.
  split.
  - unfold block_time. rewrite (same_config_block_bytes f f' C).
    f_equal. apply C.
  - split; [apply C|]. destruct (f_ge t (volume_ramp_time f)); tauto.
Qed.

(** The first flush outside [Silence] starts from [flush_acc]. *)
Lemma Flush_first_step {L : PcmLaws P} f :
  state f <> Silence ->
  let t := f_add (flush_acc f) (block_time f) in
  let f' := fst (Flush f) in
  block_time f' = block_time f /\
  volume_ramp_time f' = volume_ramp_time f /\
  (if f_ge t (volume_ramp_time f)
   then state f' = Silence
   else cur_time f' = t /\ state f' = RampDown).
Proof.
  intros Hns t f'.
  destruct (Flush_spec f Hns) as (_ & _ & _ & _ & _ & T & C & _).
  fold (block_time f) in T. fold t f' in T, C.
  split.
  - unfold block_time. rewrite (same_config_block_bytes f f' C).
    f_equal. apply C.
  - split; [apply C|]. destruct (f_ge t (volume_ramp_time f)); tauto.
Qed.

Lemma Flush_out_length {L : PcmLaws P} f :
  length (snd (Flush f)) =
  match state f with Silence => O | _ => N.to_nat (block_bytes f) end.
Proof.
  destruct (state f) eqn:Es.
  2: { destruct (Flush_Silence f Es) as (O & _). now rewrite O. }
  all: assert (Hs : state f <> Silence) by congruence;
       now apply (Flush_spec f Hs).
Qed.

(** Once a flush has returned nothing, so does every later one. *)
Lemma flush_stays_empty {L : PcmLaws P} (m : nat) :
  forall f, snd (Flush f) = [] -> flush_out m (fst (Flush f)) = [].
Proof.
  assert (Hkeep : forall k g,
            state g = Silence \/ block_bytes g = 0 ->
            state (flushes k g) = Silence \/ block_bytes (flushes k g) = 0).
  { induction k as [|k IH]; intros g Hg; [exact Hg|].
    cbn. apply IH. destruct Hg as [Hg|Hg].
    - left. now apply Flush_Silence.
    - right. now rewrite (same_config_block_bytes g _ (Flush_config g)). }
  intros f Hout. unfold flush_out.
  assert (H0 : state (fst (Flush f)) = Silence \/ block_bytes (fst (Flush f)) = 0).
  { pose proof (Flush_out_length f) as Hl. rewrite Hout in Hl. cbn in Hl.
    destruct (state f) eqn:Es.
    2: { left. now apply Flush_Silence. }
    all: right; rewrite (same_config_block_bytes f _ (Flush_config f)); lia. }
  destruct (Hkeep m _ H0) as [Hk|Hk].
  - now apply Flush_Silence.
  - apply length_zero_iff_nil. rewrite Flush_out_length, Hk.
    destruct (state (flushes m (fst (Flush f)))); reflexivity.
Qed.

(** ** The rising ramp *)

Lemma FilterPCM_block_RampUp (i k : N) f :
  state f = RampUp ->
  let gain := ramp_up_volume (volume_ramp_time f) (cur_time f) in
  let t := f_add (cur_time f) (SizeToTime (input_fmt f) k) in
  let applied :=
    pv_Apply (pv_SetVolume (pv f) gain) (span_read i k (fifo_data (delay_buf f))) in
  let f' := FilterPCM_block i k f in
  fifo_data (delay_buf f') = span_write i (snd applied) (fifo_data (delay_buf f)) /\
  pv f' = fst applied /\
  (if f_ge t (volume_ramp_time f)
   then cur_time f' = f_zero /\ state f' = Final
   else cur_time f' = t /\ state f' = RampUp).
Proof.
  intros E. unfold FilterPCM_block. rewrite E. cbn.
  destruct (f_ge _ _); cbn; repeat split; congruence.
Qed.

(** In [Final] a sub-block is copied onto itself. *)
Lemma FilterPCM_block_Final (i k : N) f :
  state f = Final -> FilterPCM_block i k f = f.
Proof.
  intros E. unfold FilterPCM_block. rewrite E.
  unfold set_delay_buf, fifo_write_at, fifo_Read. rewrite span_write_read.
  destruct f as [? ? ? ? [d c] ? ? ? ? ?]. reflexivity.
Qed.

(** In [Final] a call returns the delayed bytes untouched. *)
Lemma FilterPCM_Final (fuel : nat) (src : list byte) f :
  state f = Final ->
  FilterPCM fuel src f =
  Some (stored src f, firstn (length src) (pending f ++ src)).
Proof.
  intros E. rewrite FilterPCM_unfold, E.
  unfold delayed_src, span_read, fifo_Read. cbn [N.to_nat skipn].
  now rewrite Nat2N.id, stored_data.
Qed.

(** ** The factory *)

Lemma GetBlockValue_absent (cfg : ConfigBlock) (name d : string) :
  key_absent cfg name -> GetBlockValue cfg name d = d.
Proof.
  unfold key_absent. induction cfg as [|[k v] rest IH]; intros H; [reflexivity|].
  cbn. destruct (String.eqb k name) eqn:E.
  - apply String.eqb_eq in E. subst k. exfalso. apply (H v). now left.
  - apply IH. intros w Hw. apply (H w). now right.
Qed.

(** C9 (factory configuration policy).  The constructor of the factory is
    a total function of the configuration block.  Each of the three values
    is the number parsed from its key when that number is not zero, and the
    default (0.1, 0.1, 64) when it is zero, which is what the C library
    returns for an unparsable value, and when the key is absent. *)
Theorem factory_policy {Lc : LibcLaws F P} (cfg : ConfigBlock) :
  let p := PreparedVolumeRampFilter_new cfg in
  let ramp := strtof (GetBlockValue cfg "ramp_seconds" "") in
  let add := strtof (GetBlockValue cfg "silence_seconds" "") in
  let block := strtoul10 (GetBlockValue cfg "block_size" "") in
  (f_ne ramp f_zero = true -> prepared_volume_ramp_time p = ramp) /\
  (f_ne add f_zero = true -> prepared_silence_add_time p = add) /\
  (block <> 0 -> prepared_ramp_block_size p = block) /\
  (f_ne ramp f_zero = false -> prepared_volume_ramp_time p = f_tenth) /\
  (f_ne add f_zero = false -> prepared_silence_add_time p = f_tenth) /\
  (block = 0 -> prepared_ramp_block_size p = 64) /\
  (key_absent cfg "ramp_seconds" -> prepared_volume_ramp_time p = f_tenth) /\
  (key_absent cfg "silence_seconds" -> prepared_silence_add_time p = f_tenth) /\
  (key_absent cfg "block_size" -> prepared_ramp_block_size p = 64) /\
  prepared_ramp_block_size p <> 0.
Proof.
  intros p ramp add block. subst p. unfold PreparedVolumeRampFilter_new.
  fold ramp add block. cbn.
  repeat split.
  - intros H. now rewrite H.
  - intros H. now rewrite H.
  - intros H. apply N.eqb_neq in H. now rewrite H.
  - intros H. now rewrite H.
  - intros H. now rewrite H.
  - intros H. now rewrite H.
  - intros H. subst ramp. rewrite (GetBlockValue_absent _ _ _ H).
    now rewrite strtof_empty.
  - intros H. subst add. rewrite (GetBlockValue_absent _ _ _ H).
    now rewrite strtof_empty.
  - intros H. subst block. rewrite (GetBlockValue_absent _ _ _ H).
    now rewrite strtoul10_empty.
  - destruct (block =? 0) eqn:E; [discriminate | now apply N.eqb_neq in E].
Qed.

Lemma flush_outs_nth (k : nat) :
  forall f j, (j < k)%nat -> nth j (flush_outs k f) [] = flush_out j f.
Proof.
  induction k as [|k IH]; intros f j Hj; [lia|].
  destruct j as [|j]; [reflexivity|].
  cbn [flush_outs nth]. rewrite IH by lia. reflexivity.
Qed.

Lemma flush_outs_nonempty (k : nat) f :
  forallb nonempty (flush_outs k f) = true ->
  ~ exists j, (j < k)%nat /\ flush_out j f = [].
Proof.
  intros Hall (j & Hj & He).
  rewrite forallb_forall in Hall.
  assert (Hin : In (flush_out j f) (flush_outs k f)).
  { rewrite <- (flush_outs_nth k f j Hj). apply nth_In.
    clear -Hj. revert f j Hj. induction k as [|k IH]; intros f j Hj; [lia|].
    cbn. destruct j; [lia|]. specialize (IH (fst (Flush f)) j). lia. }
  apply Hall in Hin. rewrite He in Hin. discriminate.
Qed.

(** ** Results of calls *)

Lemma returned_state_after (r : option (VolumeRampFilter * list byte)) d :
  returned r = true -> exists out, r = Some (state_after r d, out).
Proof.
  destruct r as [[f out]|]; [|discriminate]. intros _. now exists out.
Qed.

Lemma run_single (src : list byte) f f' out :
  FilterPCM (length src) src f = Some (f', out) ->
  run [Process src] f = Some (f', src).
Proof. cbn. intros ->. now rewrite app_nil_r. Qed.

End Properties.

(** * Traces, loops and edge cases *)

Lemma span_read_embed (pre d post : list byte) (i k : N) :
  (N.to_nat i + N.to_nat k <= length d)%nat ->
  span_read (N.of_nat (length pre) + i) k (pre ++ d ++ post) = span_read i k d.
Proof.
  intros H. unfold span_read.
  rewrite N2Nat.inj_add, Nat2N.id.
  rewrite skipn_app_ge by lia.
  replace (length pre + N.to_nat i - length pre)%nat with (N.to_nat i) by lia.
  rewrite skipn_app_le by lia.
  apply firstn_app_le. rewrite length_skipn. lia.
Qed.

Lemma span_write_embed (pre d post new : list byte) (i : N) :
  (N.to_nat i + length new <= length d)%nat ->
  span_write (N.of_nat (length pre) + i) new (pre ++ d ++ post) =
  pre ++ span_write i new d ++ post.
Proof.
  intros H. unfold span_write.
  rewrite N2Nat.inj_add, Nat2N.id.
  rewrite firstn_app_2, firstn_app_le by lia.
  rewrite skipn_app_ge by lia.
  replace (length pre + N.to_nat i + length new - length pre)%nat
    with (N.to_nat i + length new)%nat by lia.
  rewrite skipn_app_le by lia.
  now rewrite <- !app_assoc.
Qed.

Section Coverage.

Context {float : Type} {F : FloatOps float} {P : PcmOps float}.

Implicit Types f g h : VolumeRampFilter.

(** ** The transitions of the state machine *)

Lemma forward_refl (s : VolumeRampState) : forward s s.
Proof. destruct s; cbn; auto. Qed.

Lemma forward_trans (a b c : VolumeRampState) :
  forward a b -> forward b c -> forward a c.
Proof.
  destruct a, b, c; cbn; intuition congruence.
Qed.

Lemma FilterPCM_block_forward (i k : N) f :
  forward (state f) (state (FilterPCM_block i k f)).
Proof.
  unfold FilterPCM_block.
  destruct (state f) eqn:E; cbn;
    repeat match goal with |- context [if ?c then _ else _] => destruct c; cbn end;
    rewrite ?E; auto.
Qed.

Lemma FilterPCM_state fuel (src : list byte) f f' out :
  FilterPCM fuel src f = Some (f', out) -> forward (state f) (state f').
Proof.
  rewrite FilterPCM_unfold. intros H.
  destruct (stored_frame src f) as (_ & S0 & _).
  destruct (state f) eqn:Es.
  4: { injection H as <- _. rewrite S0. reflexivity. }
  all: destruct (FilterPCM_loop _ _ _ _ _) as [f1|] eqn:E; [|discriminate];
       injection H as <- _;
       rewrite <- S0;
       apply (FilterPCM_loop_inv (fun g => forward (state (stored src f)) (state g))
                (N.of_nat (length src)) (block_bytes f))
         with (fuel := fuel) (i := 0) (f := stored src f);
       [ intros i g _ Hg; eapply forward_trans; [exact Hg | apply FilterPCM_block_forward]
       | apply forward_refl | exact E ].
Qed.

Lemma Flush_state f :
  (state (fst (Flush f)) = RampDown \/ state (fst (Flush f)) = Silence) /\
  (state f = Silence -> state (fst (Flush f)) = Silence).
Proof.
  unfold Flush, Flush_RampUp, Flush_Final, Flush_RampDown.
  destruct (consume_last_frame f) as (_ & S0 & _). rewrite S0.
  destruct (state f) eqn:E; cbn;
    repeat match goal with |- context [if ?c then _ else _] => destruct c; cbn end;
    split; auto; try discriminate; rewrite ?S0, ?E; auto.
Qed.

(** X2 (the transitions of the state machine).  A call of [FilterPCM]
    only moves the state forward, from [RampDown] or [Silence] to [RampUp]
    and from [RampUp] to [Final], never back; a call of [Flush] leaves the
    filter in [RampDown] or [Silence], and in [Silence] when it found it
    there; [Reset] and [trigger] leave it in [Silence]. *)
Theorem call_state (c : Call) f f' out :
  call c f = Some (f', out) ->
  match c with
  | Process _ => forward (state f) (state f')
  | DoFlush =>
      (state f' = RampDown \/ state f' = Silence) /\
      (state f = Silence -> state f' = Silence)
  | DoReset | DoTrigger => state f' = Silence
  end.
Proof.
  destruct c as [src| | |]; cbn [call].
  - apply FilterPCM_state.
  - intros [= E]. replace f' with (fst (Flush f)) by now rewrite E.
    apply Flush_state.
  - now intros [= <- _].
  - now intros [= <- _].
Qed.

(** X1 (when [FilterPCM] returns).  For a source block below [PTRDIFF_MAX]
    bytes, the loop of [FilterPCM] comes to an end after some number of
    iterations exactly when the filter is in [Final], where there is no
    loop, or the block is empty, or the sub-block size in bytes is not zero:
    with a zero sub-block size the offset never advances. *)
Theorem FilterPCM_returns_iff {L : PcmLaws P} (src : list byte) f :
  N.of_nat (length src) < 2 ^ 63 ->
  (exists fuel, returned (FilterPCM fuel src f) = true) <->
  (state f = Final \/ src = [] \/ block_bytes f <> 0).
Proof.
  intros Hn. split.
  - intros (fuel & H).
    destruct (N.eq_dec (block_bytes f) 0) as [Hbs|Hbs]; [|auto].
    destruct src as [|x src]; [auto|].
    destruct (state f) eqn:Es; auto.
    all: rewrite FilterPCM_spins in H; [discriminate | exact Hbs | congruence | discriminate].
  - intros [Hs | [-> | Hbs]].
    + exists O. now rewrite FilterPCM_Final.
    + exists O. rewrite FilterPCM_unfold. cbn. destruct (state f); reflexivity.
    + exists (length src).
      destruct (FilterPCM_returns (length src) src f Hbs Hn) as (f' & out & E); [lia|].
      now rewrite E.
Qed.

(** ** The accumulator in [Final] *)

Lemma FilterPCM_block_settled (i k : N) f :
  settled f -> settled (FilterPCM_block i k f).
Proof.
  unfold settled, FilterPCM_block.
  destruct (state f) eqn:E; cbn;
    repeat match goal with |- context [if ?c then _ else _] => destruct c; cbn end;
    rewrite ?E; auto; try discriminate.
Qed.

Lemma not_Final_settled f : state f = RampDown \/ state f = Silence -> settled f.
Proof. unfold settled. intros [H|H]; rewrite H; discriminate. Qed.

Lemma call_settled (c : Call) f f' out :
  settled f -> call c f = Some (f', out) -> settled f'.
Proof.
  intros Hf Hc.
  destruct c as [src| | |]; cbn [call] in Hc.
  - rewrite FilterPCM_unfold in Hc.
    destruct (stored_frame src f) as (_ & S0 & T0 & _).
    assert (H0 : settled (stored src f)) by (unfold settled; rewrite S0, T0; exact Hf).
    destruct (state f).
    4: { injection Hc as <- _. exact H0. }
    all: destruct (FilterPCM_loop _ _ _ _ _) as [f1|] eqn:E; [|discriminate];
         injection Hc as <- _;
         eapply (FilterPCM_loop_inv settled); [| exact H0 | exact E];
         intros i g _ Hg; now apply FilterPCM_block_settled.
  - injection Hc as E. replace f' with (fst (Flush f)) by now rewrite E.
    apply not_Final_settled, Flush_state.
  - injection Hc as <- _. apply not_Final_settled. now right.
  - injection Hc as <- _. apply not_Final_settled. now right.
Qed.

Lemma run_settled (calls : list Call) :
  forall f f' W, settled f -> run calls f = Some (f', W) -> settled f'.
Proof.
  induction calls as [|c rest IH]; intros f f' W Hf; cbn [run].
  - now intros [= <- _].
  - destruct (call c f) as [[f1 out]|] eqn:Ec; [|discriminate].
    destruct (run rest f1) as [[f2 W']|] eqn:Er; [|discriminate].
    intros [= <- _]. eapply IH; [|exact Er]. eapply call_settled; [exact Hf | exact Ec].
Qed.

(** X3 (the accumulator rests in [Final]).  After any run of calls on a
    newly constructed filter, a filter in [Final] has its accumulator at
    zero: the first [Flush] scales the head of the delay line by the gain of
    a falling ramp at time zero, and a call of [FilterPCM] leaves the state
    and the accumulator as they are. *)
Theorem Final_at_rest {L : PcmLaws P} (fmt : AudioFormat SampleFormat)
    (ramp_time add_time : float) (block_size : N) (calls : list Call) f W :
  run calls (VolumeRampFilter_new fmt ramp_time add_time block_size) = Some (f, W) ->
  state f = Final ->
  let n := block_bytes f in
  let chunk := firstn (N.to_nat n) (pending f ++ PcmSilence (format fmt) n) in
  cur_time f = f_zero /\
  snd (Flush f) =
    snd (pv_Apply (pv_SetVolume (pv f) (ramp_down_volume ramp_time f_zero)) chunk) /\
  (forall fuel src f' out,
     FilterPCM fuel src f = Some (f', out) -> state f' = Final /\ cur_time f' = f_zero).
Proof.
  intros Hrun Hs n chunk.
  assert (Hset : settled f).
  { eapply run_settled; [|exact Hrun]. apply not_Final_settled. now right. }
  destruct (run_fifo calls _ _ _ Hrun) as (_ & C).
  assert (Hns : state f <> Silence) by congruence.
  destruct (Flush_spec f Hns) as (O & _).
  unfold flush_acc in O. rewrite Hs, (Hset Hs) in O.
  destruct C as (_ & C2 & _ & _ & C5). cbn in C2, C5. rewrite C2, C5 in O.
  split; [exact (Hset Hs)|]. split; [exact O|].
  intros fuel src f' out E. rewrite FilterPCM_Final in E by exact Hs.
  injection E as <- _. destruct (stored_frame src f) as (_ & S0 & T0 & _).
  rewrite S0, T0. split; [exact Hs | exact (Hset Hs)].
Qed.

(** ** The bounds of the delay line *)

Lemma FilterPCM_block_capacity (i k : N) f :
  fifo_capacity (delay_buf (FilterPCM_block i k f)) = fifo_capacity (delay_buf f).
Proof.
  unfold FilterPCM_block.
  destruct (state f); cbn;
    repeat match goal with |- context [if ?c then _ else _] => destruct c; cbn end;
    reflexivity.
Qed.

Lemma consume_last_buffer_ok f : buffer_ok f -> buffer_ok (consume_last f).
Proof.
  unfold buffer_ok, consume_last, fifo_available. intros (H1 & H2).
  destruct (last_delay_buf_size f =? 0); cbn; [split; assumption|].
  rewrite length_skipn. split; lia.
Qed.

Lemma stored_capacity (src : list byte) f :
  fifo_available (delay_buf (stored src f)) <= fifo_capacity (delay_buf (stored src f)).
Proof.
  unfold fifo_available. rewrite stored_data.
  unfold stored, store, fifo_WantWrite, fifo_Grow, fifo_available. cbn.
  rewrite consume_last_data, length_app. lia.
Qed.

Lemma call_buffer_ok {L : PcmLaws P} (c : Call) f f' out :
  buffer_ok f -> call c f = Some (f', out) -> buffer_ok f'.
Proof.
  intros Hf Hc.
  destruct c as [src| | |]; cbn [call] in Hc.
  - destruct (FilterPCM_result _ _ _ _ _ Hc) as (Len & O & _ & La & _).
    assert (Hlen : (length src <= length (fifo_data (delay_buf f')))%nat).
    { rewrite <- Len, O, length_firstn. lia. }
    split; [rewrite La, Nat2N.id; exact Hlen|].
    rewrite FilterPCM_unfold in Hc.
    pose proof (stored_capacity src f) as Hcap.
    pose proof (stored_long_enough src f) as Hlong.
    set (Inv := fun g : VolumeRampFilter =>
           loop_keeps (N.of_nat (length src)) (stored src f) g /\
           fifo_capacity (delay_buf g) = fifo_capacity (delay_buf (stored src f))).
    assert (H0 : Inv (stored src f)) by (split; [apply loop_keeps_refl | reflexivity]).
    assert (Hend : Inv f').
    { destruct (state f).
      4: { injection Hc as <- _. exact H0. }
      all: destruct (FilterPCM_loop _ _ _ _ _) as [f1|] eqn:E; [|discriminate];
           injection Hc as <- _;
           eapply (FilterPCM_loop_inv Inv); [| exact H0 | exact E];
           intros i g Hi (Hg1 & Hg2);
           (split; [now apply loop_keeps_block | now rewrite FilterPCM_block_capacity]). }
    destruct Hend as ((K1 & _) & K2).
    unfold fifo_available in *. rewrite K1, K2. exact Hcap.
  - injection Hc as E. replace f' with (fst (Flush f)) by now rewrite E. clear E.
    destruct (state f) eqn:Es.
    2: { unfold Flush. destruct (consume_last_frame f) as (_ & S0 & _).
         rewrite S0, Es. cbn. exact (consume_last_buffer_ok f Hf). }
    all: assert (Hs : state f <> Silence) by congruence;
         destruct (Flush_spec f Hs) as (_ & _ & D & La & _);
         split;
         [ rewrite La, D, length_app, PcmSilence_length; lia
         | rewrite (Flush_unfold f Hs);
           unfold Flush_RampDown, fifo_available, fifo_WantWrite, fifo_Grow, fifo_available; cbn;
           destruct (f_ge _ _); cbn;
           rewrite length_app, length_firstn, PcmSilence_length; lia ].
  - injection Hc as <- _. exact Hf.
  - injection Hc as <- _. exact Hf.
Qed.

Lemma run_buffer_ok {L : PcmLaws P} (calls : list Call) :
  forall f f' W, buffer_ok f -> run calls f = Some (f', W) -> buffer_ok f'.
Proof.
  induction calls as [|c rest IH]; intros f f' W Hf; cbn [run].
  - now intros [= <- _].
  - destruct (call c f) as [[f1 out]|] eqn:Ec; [|discriminate].
    destruct (run rest f1) as [[f2 W']|] eqn:Er; [|discriminate].
    intros [= <- _]. eapply IH; [|exact Er]. eapply call_buffer_ok; [exact Hf | exact Ec].
Qed.

Lemma VolumeRampFilter_new_buffer_ok (fmt : AudioFormat SampleFormat)
    (ramp_time add_time : float) (block_size : N) :
  buffer_ok (VolumeRampFilter_new fmt ramp_time add_time block_size).
Proof.
  unfold buffer_ok, VolumeRampFilter_new, fifo_available, fifo_Write_size, fifo_available.
  cbn. rewrite N.sub_0_r, N.max_0_l, PcmSilence_firstn, PcmSilence_length.
  split; lia.
Qed.

(** X4 (the bounds of the delay line).  After any run of calls on a newly
    constructed filter, the size recorded for the next [Consume] is within
    the readable bytes of the delay line, the line holds exactly these bytes
    and [TimeToSize fmt ramp_time] more, and its capacity covers its
    content. *)
Theorem delay_line_bounds {L : PcmLaws P} (fmt : AudioFormat SampleFormat)
    (ramp_time add_time : float) (block_size : N) (calls : list Call) f W :
  run calls (VolumeRampFilter_new fmt ramp_time add_time block_size) = Some (f, W) ->
  (N.to_nat (last_delay_buf_size f) <= length (fifo_data (delay_buf f)))%nat /\
  fifo_available (delay_buf f) = last_delay_buf_size f + TimeToSize fmt ramp_time /\
  fifo_available (delay_buf f) <= fifo_capacity (delay_buf f).
Proof.
  intros Hrun.
  destruct (run_buffer_ok calls _ _ _ (VolumeRampFilter_new_buffer_ok _ _ _ _) Hrun)
    as (H1 & H2).
  destruct (run_fifo calls _ _ _ Hrun) as (Pe & _).
  rewrite VolumeRampFilter_new_pending in Pe.
  apply (f_equal (@length byte)) in Pe.
  rewrite length_skipn, length_app, PcmSilence_length in Pe.
  unfold pending in Pe. rewrite length_skipn in Pe.
  split; [exact H1|]. split; [|exact H2].
  unfold fifo_available. lia.
Qed.

(** ** Two delay lines side by side *)

(** A sub-block is transformed alike in the two lines. *)
Lemma FilterPCM_block_embeds {L : PcmLaws P} (pre post : list byte) (i k : N) g h :
  (N.to_nat i + N.to_nat k <= length (fifo_data (delay_buf h)))%nat ->
  embeds pre post g h ->
  embeds pre post (FilterPCM_block (N.of_nat (length pre) + i) k g)
                  (FilterPCM_block i k h).
Proof.
  intros Hik (E1 & E2 & E3 & (C1 & C2 & C3 & C4 & C5) & D).
  assert (Hsil : forall fmt, (N.to_nat i + length (PcmSilence fmt k) <=
                              length (fifo_data (delay_buf h)))%nat)
    by (intros; rewrite PcmSilence_length; exact Hik).
  assert (Happ : forall v, (N.to_nat i +
            length (snd (pv_Apply v (span_read i k (fifo_data (delay_buf h))))) <=
            length (fifo_data (delay_buf h)))%nat).
  { intros v. rewrite pv_Apply_length, span_read_length; lia. }
  assert (Hrd : (N.to_nat i + length (span_read i k (fifo_data (delay_buf h))) <=
                 length (fifo_data (delay_buf h)))%nat)
    by (rewrite span_read_length; lia).
  unfold embeds, same_config, FilterPCM_block.
  rewrite E1. destruct (state h) eqn:Es; cbn;
    rewrite ?E2, ?E3, ?C1, ?C2, ?C3, ?C4, ?C5;
    repeat match goal with |- context [if ?c then _ else _] => destruct c; cbn end;
    unfold fifo_Read; rewrite ?D, ?span_read_embed by exact Hik;
    rewrite ?E1, ?E2, ?E3, ?C1, ?C2, ?C3, ?C4, ?C5, ?Es;
    repeat split; auto using span_write_embed.
Qed.

(** ** Splitting a block *)

Lemma FilterPCM_loop_done (fuel : nat) (n bs i : N) f :
  n <= i -> FilterPCM_loop fuel n bs i f = Some f.
Proof.
  intros H. apply N.ltb_ge in H. destruct fuel; cbn; now rewrite H.
Qed.

(** More iterations than the loop needs change nothing. *)
Lemma FilterPCM_loop_more (fuel : nat) (n bs : N) :
  forall i f r, FilterPCM_loop fuel n bs i f = Some r ->
    forall k, FilterPCM_loop (fuel + k) n bs i f = Some r.
Proof.
  induction fuel as [|fuel IH]; intros i f r; cbn.
  - destruct (i <? n) eqn:E; [discriminate|]. intros [= <-] k.
    apply FilterPCM_loop_done. now apply N.ltb_ge.
  - destruct (i <? n) eqn:E; [|now intros [= <-] k].
    intros H k. now apply IH.
Qed.

(** The first [q] sub-blocks of a block are those of its prefix of [q]
    sub-blocks. *)
Lemma FilterPCM_loop_prefix {L : PcmLaws P} (post : list byte) (n na bs : N) (q : nat) :
  0 < bs -> na <= n -> n < 2 ^ 63 ->
  forall i g h,
    na = i + N.of_nat q * bs ->
    (N.to_nat na <= length (fifo_data (delay_buf h)))%nat ->
    embeds [] post g h ->
    exists g1 h1,
      embeds [] post g1 h1 /\
      (forall fuel, FilterPCM_loop (q + fuel) n bs i g = FilterPCM_loop fuel n bs na g1) /\
      (forall fuel, FilterPCM_loop (q + fuel) na bs i h = Some h1).
Proof.
  intros Hbs Hna Hn. change (2 ^ 63) with 9223372036854775808 in Hn.
  induction q as [|q IH]; intros i g h Hi Hlen Hgh.
  - assert (i = na) by lia. subst i. exists g, h.
    split; [exact Hgh|]. split; [reflexivity|].
    intros fuel. apply FilterPCM_loop_done. lia.
  - assert (Hlt : i + bs <= na) by nia.
    assert (Hcur : forall m, na <= m -> (if bs <? m - i then bs else m - i) = bs).
    { intros m Hm. destruct (bs <? m - i) eqn:E; [reflexivity|].
      apply N.ltb_ge in E. lia. }
    destruct (IH (i + bs) (FilterPCM_block i bs g) (FilterPCM_block i bs h))
      as (g1 & h1 & R & Hg & Hh).
    + lia.
    + destruct (FilterPCM_block_buffer i bs h) as (B1 & _); [lia|]. rewrite B1. exact Hlen.
    + apply (FilterPCM_block_embeds [] post i bs g h); [lia | exact Hgh].
    + exists g1, h1. split; [exact R|].
      split; intros fuel; change (S q + fuel)%nat with (S (q + fuel)); cbn [FilterPCM_loop].
      * replace (i <? n) with true by (symmetry; apply N.ltb_lt; lia).
        rewrite (Hcur n Hna), size_t_small by (rewrite SIZE_MAX1_eq; lia). apply Hg.
      * replace (i <? na) with true by (symmetry; apply N.ltb_lt; lia).
        rewrite (Hcur na) by lia. rewrite size_t_small by (rewrite SIZE_MAX1_eq; lia).
        apply Hh.
Qed.

(** The sub-blocks after a prefix are those of the rest of the block. *)
Lemma FilterPCM_loop_shift {L : PcmLaws P} (pre : list byte) (n nb bs : N) :
  n = N.of_nat (length pre) + nb -> n < 2 ^ 63 -> pre = [] \/ bs < 2 ^ 63 ->
  forall fuel i g h,
    (N.to_nat nb <= length (fifo_data (delay_buf h)))%nat ->
    embeds pre [] g h ->
    both (embeds pre [])
         (FilterPCM_loop fuel n bs (N.of_nat (length pre) + i) g)
         (FilterPCM_loop fuel nb bs i h).
Proof.
  intros Hn Hmax Hbs. change (2 ^ 63) with 9223372036854775808 in Hmax, Hbs.
  induction fuel as [|fuel IH]; intros i g h Hlen Hgh; cbn [FilterPCM_loop].
  - replace (N.of_nat (length pre) + i <? n) with (i <? nb).
    + destruct (i <? nb); [exact I | exact Hgh].
    + subst n. destruct (i <? nb) eqn:E; symmetry;
        [apply N.ltb_lt in E; apply N.ltb_lt | apply N.ltb_ge in E; apply N.ltb_ge]; lia.
  - replace (N.of_nat (length pre) + i <? n) with (i <? nb).
    2: { subst n. destruct (i <? nb) eqn:E; symmetry;
           [apply N.ltb_lt in E; apply N.ltb_lt | apply N.ltb_ge in E; apply N.ltb_ge]; lia. }
    destruct (i <? nb) eqn:E; [|exact Hgh]. apply N.ltb_lt in E.
    replace (n - (N.of_nat (length pre) + i)) with (nb - i) by lia.
    set (k := if bs <? nb - i then bs else nb - i).
    assert (Hk : k <= nb - i).
    { subst k. destruct (bs <? nb - i) eqn:E'; [apply N.ltb_lt in E'|]; lia. }
    replace (size_t (N.of_nat (length pre) + i + bs))
      with (N.of_nat (length pre) + size_t (i + bs)).
    + apply IH.
      * destruct (FilterPCM_block_buffer i k h) as (B1 & _); [lia|]. rewrite B1. exact Hlen.
      * apply FilterPCM_block_embeds; [lia | exact Hgh].
    + destruct Hbs as [-> | Hbs]; [reflexivity|].
      rewrite !size_t_small by (rewrite SIZE_MAX1_eq; lia). lia.
Qed.

(** In [Final] the loop leaves the filter as it is. *)
Lemma FilterPCM_loop_Final (fuel : nat) (n bs : N) :
  forall i f r, state f = Final -> FilterPCM_loop fuel n bs i f = Some r -> r = f.
Proof.
  intros i f r Hs H.
  apply (FilterPCM_loop_inv (fun g => g = f) n bs) with (fuel := fuel) (i := i) (f := f).
  - intros j g _ ->. now apply FilterPCM_block_Final.
  - reflexivity.
  - exact H.
Qed.

Lemma embeds_stored (a b : list byte) f :
  embeds [] b (stored (a ++ b) f) (stored a f).
Proof.
  destruct (stored_frame (a ++ b) f) as (C & S0 & T0 & V0 & _).
  destruct (stored_frame a f) as (C1 & S1 & T1 & V1 & _).
  unfold embeds. rewrite S0, T0, V0, S1, T1, V1, !stored_data.
  repeat split; try reflexivity.
  all: try (destruct C as (? & ? & ? & ? & ?); destruct C1 as (? & ? & ? & ? & ?); congruence).
  cbn. now rewrite <- app_assoc.
Qed.

(** X5 (splitting a block at a sub-block boundary).  Passing [a ++ b] to
    [FilterPCM] in one call, the length of [a] being a multiple of the
    sub-block size, returns the bytes that passing [a] and then [b] returns,
    and leaves the same state, accumulator, gain primitive and pending
    bytes. *)
Theorem FilterPCM_split {L : PcmLaws P} (a b : list byte) f :
  block_bytes f <> 0 ->
  N.of_nat (length a) mod block_bytes f = 0 ->
  N.of_nat (length (a ++ b)) < 2 ^ 63 ->
  exists f1 out1 f2 out2 f12,
    FilterPCM (length a) a f = Some (f1, out1) /\
    FilterPCM (length b) b f1 = Some (f2, out2) /\
    FilterPCM (length (a ++ b)) (a ++ b) f = Some (f12, out1 ++ out2) /\
    state f12 = state f2 /\ cur_time f12 = cur_time f2 /\ pv f12 = pv f2 /\
    pending f12 = pending f2.
Proof.
  intros Hbs Hmod Hn.
  assert (Hn' : N.of_nat (length a) + N.of_nat (length b) < 2 ^ 63)
    by (now rewrite length_app, Nat2N.inj_add in Hn).
  change (2 ^ 63) with 9223372036854775808 in Hn'.
  destruct (FilterPCM_returns (length a) a f Hbs) as (f1 & out1 & E1);
    [change (2 ^ 63) with 9223372036854775808; lia | lia |].
  destruct (FilterPCM_result _ _ _ _ _ E1) as (Len1 & O1 & Pe1 & La1 & C1).
  assert (Hbs1 : block_bytes f1 = block_bytes f) by now apply same_config_block_bytes.
  destruct (FilterPCM_returns (length b) b f1) as (f2 & out2 & E2);
    [rewrite Hbs1; exact Hbs | change (2 ^ 63) with 9223372036854775808; lia | lia |].
  destruct (FilterPCM_result _ _ _ _ _ E2) as (Len2 & O2 & Pe2 & La2 & C2).
  destruct (FilterPCM_returns (length (a ++ b)) (a ++ b) f Hbs Hn) as (f12 & out12 & E12);
    [lia|].
  destruct (FilterPCM_result _ _ _ _ _ E12) as (Len12 & O12 & Pe12 & La12 & C12).
  exists f1, out1, f2, out2, f12.
  assert (Hpend : pending f12 = pending f2).
  { rewrite Pe12, Pe2, Pe1, length_app, (Nat.add_comm (length a)), <- skipn_skipn.
    rewrite (app_assoc (pending f) a b).
    rewrite (skipn_app_le (length a) (pending f ++ a) b) by (rewrite length_app; lia).
    reflexivity. }
  assert (Hd1 : fifo_data (delay_buf f1) = out1 ++ pending f1).
  { unfold pending. rewrite La1, Nat2N.id, O1. symmetry. apply firstn_skipn. }
  assert (Hsim : embeds out1 [] f12 f2).
  { rewrite FilterPCM_unfold in E1, E12. rewrite FilterPCM_unfold, Hbs1 in E2.
    destruct (stored_frame a f) as (Ca & Sa & Ta & Va & _).
    destruct (stored_frame b f1) as (Cb & Sb & Tb & Vb & _).
    assert (Hloops :
      exists g1, embeds [] b g1 f1 /\
        (state f = Final /\ g1 = f12 \/
         exists fuel, (length b <= fuel)%nat /\
           FilterPCM_loop fuel (N.of_nat (length (a ++ b))) (block_bytes f)
                          (N.of_nat (length a)) g1 = Some f12)).
    { destruct (state f) eqn:Es.
      4: { injection E1 as <- _. injection E12 as <- _.
           exists (stored (a ++ b) f). split; [|now left].
           apply embeds_stored. }
      all: destruct (FilterPCM_loop (length a) _ _ _ _) as [h1|] eqn:L1; [|discriminate];
           injection E1 as <- _;
           destruct (FilterPCM_loop (length (a ++ b)) _ _ _ _) as [g12|] eqn:L12; [|discriminate];
           injection E12 as <- _;
           pose proof (N.Div0.div_mod (N.of_nat (length a)) (block_bytes f)) as Hdiv;
           rewrite Hmod, N.add_0_r in Hdiv;
           set (q := N.to_nat (N.of_nat (length a) / block_bytes f));
           assert (Hq : (q <= length a)%nat)
             by (subst q; assert (N.of_nat (length a) / block_bytes f <= N.of_nat (length a))
                   by (apply N.Div0.div_le_upper_bound; nia); lia);
           destruct (FilterPCM_loop_prefix b (N.of_nat (length (a ++ b))) (N.of_nat (length a))
                       (block_bytes f) q) with
             (i := 0) (g := stored (a ++ b) f) (h := stored a f)
             as (g1 & h1' & R & Hg & Hh);
           [ lia
           | rewrite length_app, Nat2N.inj_add; lia
           | exact Hn
           | subst q; rewrite N2Nat.id; lia
           | rewrite stored_data, length_app; lia
           | apply embeds_stored
           | ];
           specialize (Hh (length a - q)%nat);
           replace (q + (length a - q))%nat with (length a) in Hh by lia;
           rewrite Hh in L1; injection L1 as ->;
           specialize (Hg (length (a ++ b) - q)%nat);
           replace (q + (length (a ++ b) - q))%nat with (length (a ++ b)) in Hg
             by (rewrite length_app; lia);
           rewrite Hg in L12;
           exists g1; (split; [exact R|]); right;
           exists (length (a ++ b) - q)%nat;
           (split; [rewrite length_app; lia | exact L12]). }
    destruct Hloops as (g1 & (R1 & R2 & R3 & R4 & R5) & Hrest).
    cbn [app] in R5.
    assert (Hpre : embeds out1 [] g1 (stored b f1)).
    { unfold embeds. rewrite Sb, Tb, Vb, stored_data, R5, Hd1.
      repeat split; try assumption.
      all: try (destruct Cb as (? & ? & ? & ? & ?); destruct R4 as (? & ? & ? & ? & ?); congruence).
      now rewrite app_nil_r, <- app_assoc. }
    destruct Hrest as [(Hfin & ->) | (fuel & Hfuel & Lrest)].
    - rewrite Hfin in E1. injection E1 as <- _.
      rewrite Sa, Hfin in E2. now injection E2 as <- _.
    - assert (Hloop2 : exists k,
        FilterPCM_loop (length b + k) (N.of_nat (length b)) (block_bytes f) 0
                       (stored b f1) = Some f2).
      { destruct (state f1) eqn:Es1.
        4: { injection E2 as <- _. exists O.
             destruct (FilterPCM_loop_run (fun _ g => g = stored b f1)
                         (N.of_nat (length b)) (block_bytes f)) with
               (fuel := (length b + 0)%nat) (i := 0) (f := stored b f1)
               as (i' & f' & E & _ & ->).
             - lia.
             - apply size_t_bound.
             - change (2 ^ 63) with 9223372036854775808. lia.
             - intros i g _ ->. apply FilterPCM_block_Final. congruence.
             - now left.
             - lia.
             - reflexivity.
             - exact E. }
        all: destruct (FilterPCM_loop (length b) _ _ _ _) as [h2|] eqn:L2; [|discriminate];
             injection E2 as <- _; exists O;
             now apply FilterPCM_loop_more. }
      destruct Hloop2 as (k & L2).
      pose proof (FilterPCM_loop_more _ _ _ _ _ _ Lrest (length b + k)%nat) as M1.
      pose proof (FilterPCM_loop_more _ _ _ _ _ _ L2 fuel) as M2.
      replace (length b + k + fuel)%nat with (fuel + (length b + k))%nat in M2 by lia.
      assert (Hor : out1 = [] \/ block_bytes f < 2 ^ 63).
      { destruct a as [|x a].
        - left. now apply length_zero_iff_nil.
        - right. change (2 ^ 63) with 9223372036854775808.
          pose proof (N.Div0.div_mod (N.of_nat (length (x :: a))) (block_bytes f)) as Hdiv.
          rewrite Hmod, N.add_0_r in Hdiv.
          set (q := N.of_nat (length (x :: a)) / block_bytes f) in Hdiv.
          assert (Hq : q <> 0) by (intros H0; rewrite H0, N.mul_0_r in Hdiv; cbn in Hdiv; lia).
          assert (block_bytes f * 1 <= block_bytes f * q) by (apply N.mul_le_mono_l; lia).
          lia. }
      pose proof (FilterPCM_loop_shift out1 (N.of_nat (length (a ++ b)))
                    (N.of_nat (length b)) (block_bytes f)) as Hshift.
      specialize (Hshift ltac:(rewrite Len1, length_app; lia) Hn Hor
                         (fuel + (length b + k))%nat 0 g1 (stored b f1)
                         (stored_long_enough b f1) Hpre).
      rewrite N.add_0_r, Len1, M1, M2 in Hshift. exact Hshift. }
  destruct Hsim as (S12 & T12 & V12 & _ & D12).
  split; [exact E1|]. split; [exact E2|].
  split.
  - rewrite E12. do 2 f_equal.
    rewrite O12, D12, app_nil_r, length_app, <- Len1, firstn_app_2, O2. reflexivity.
  - repeat split; assumption.
Qed.

(** ** The length of the silent phase *)

Lemma advance_S (j : nat) (d : float) :
  forall t, advance (S j) d t = f_add (advance j d t) d.
Proof.
  induction j as [|j IH]; intros t; [reflexivity|].
  change (advance (S (S j)) d t) with (advance (S j) d (f_add t d)).
  rewrite IH. reflexivity.
Qed.

Lemma hold_inv_block {L : PcmLaws P} (m : nat) (n bs : N) f0 (i : N) f :
  0 < bs -> n = N.of_nat m * bs ->
  (N.to_nat n <= length (fifo_data (delay_buf f0)))%nat ->
  renders_silence (state f0) ->
  let d := SizeToTime (input_fmt f0) bs in
  let T := f_add (volume_ramp_time f0) (silence_add_time f0) in
  (forall j, (1 <= j < m)%nat -> f_ge (advance j d (cur_time f0)) T = false) ->
  i < n ->
  hold_inv m n bs d (cur_time f0) T (state f0) (format (out_audio_format f0)) f0 i f ->
  hold_inv m n bs d (cur_time f0) T (state f0) (format (out_audio_format f0)) f0 (i + bs)
    (FilterPCM_block i (if bs <? n - i then bs else n - i) f).
Proof.
  intros Hbs Hn Hlen Hs0 d T Hbelow Hi (K & j & Hj & Hij & Hsil & Hlt & _).
  assert (Hjm : (j < m)%nat) by nia.
  destruct (Hlt Hjm) as (Sj & Tj).
  assert (Hcur : (if bs <? n - i then bs else n - i) = bs).
  { destruct (bs <? n - i) eqn:E; [reflexivity|]. apply N.ltb_ge in E. nia. }
  rewrite Hcur.
  assert (Hlenf : length (fifo_data (delay_buf f)) = length (fifo_data (delay_buf f0)))
    by apply K.
  assert (Hfmt : out_audio_format f = out_audio_format f0) by apply K.
  assert (Hin : input_fmt f = input_fmt f0) by apply K.
  assert (Hr : volume_ramp_time f = volume_ramp_time f0) by apply K.
  assert (Ha : silence_add_time f = silence_add_time f0) by apply K.
  assert (Hsf : renders_silence (state f)) by now rewrite Sj.
  destruct (FilterPCM_block_silence i bs f Hsf) as (D & _ & Tr).
  rewrite Hfmt, Hin, Hr, Ha, Tj in *. fold d T in Tr. rewrite <- advance_S in Tr.
  destruct (FilterPCM_block_buffer i bs f) as (_ & _ & B3); [nia|].
  split.
  { pose proof (loop_keeps_block n bs i f0 f Hlen Hi K) as K'. now rewrite Hcur in K'. }
  exists (S j). split; [lia|]. split; [lia|].
  split.
  { assert (Hrd : span_read i bs (fifo_data (delay_buf (FilterPCM_block i bs f))) =
                  PcmSilence (format (out_audio_format f0)) bs).
    { rewrite D.
      rewrite <- (N2Nat.id bs) at 1.
      rewrite <- (PcmSilence_length (format (out_audio_format f0)) bs).
      apply span_read_write. nia. }
    rewrite N2Nat.inj_add, firstn_add, B3, Hsil by lia.
    fold (span_read i bs (fifo_data (delay_buf (FilterPCM_block i bs f)))).
    rewrite Hrd. symmetry. apply PcmSilence_app. }
  split.
  - intros Hlt'. rewrite Hbelow in Tr by lia. rewrite Sj in Tr. tauto.
  - intros <-. destruct (f_ge (advance (S j) d (cur_time f0)) T); [|rewrite Sj in Tr]; tauto.
Qed.

(** X6 (the length of the silent phase).  A call entered in [Silence] or
    [RampDown] on [m >= 1] whole sub-blocks, when the accumulator advanced by
    fewer than [m] sub-block durations stays below
    [volume_ramp_time + silence_add_time], returns nothing but silence; the
    filter is then in [RampUp] with the accumulator at zero if the [m]-th
    addition reaches the threshold, and otherwise in the state it was in
    with the accumulator advanced [m] times. *)
Theorem silence_phase {L : PcmLaws P} (m : nat) (src : list byte) f :
  renders_silence (state f) ->
  block_bytes f <> 0 -> (1 <= m)%nat ->
  N.of_nat (length src) = N.of_nat m * block_bytes f ->
  N.of_nat (length src) < 2 ^ 63 ->
  let T := f_add (volume_ramp_time f) (silence_add_time f) in
  (forall j, (1 <= j < m)%nat ->
     f_ge (advance j (block_time f) (cur_time f)) T = false) ->
  exists f',
    FilterPCM (length src) src f =
      Some (f', PcmSilence (format (out_audio_format f)) (N.of_nat (length src))) /\
    if f_ge (advance m (block_time f) (cur_time f)) T
    then state f' = RampUp /\ cur_time f' = f_zero
    else state f' = state f /\ cur_time f' = advance m (block_time f) (cur_time f).
Proof.
  intros Hs Hbs Hm Hlen Hn T Hbelow. rewrite FilterPCM_unfold.
  pose proof (stored_long_enough src f) as Hlong.
  destruct (stored_frame src f) as (C & S0 & T0 & _).
  set (n := N.of_nat (length src)) in *.
  set (f0 := stored src f) in *.
  assert (Hfmt : out_audio_format f0 = out_audio_format f) by apply C.
  assert (Hin : input_fmt f0 = input_fmt f) by apply C.
  assert (Hr : volume_ramp_time f0 = volume_ramp_time f) by apply C.
  assert (Ha : silence_add_time f0 = silence_add_time f) by apply C.
  destruct (FilterPCM_loop_run
              (hold_inv m n (block_bytes f) (SizeToTime (input_fmt f0) (block_bytes f))
                        (cur_time f0) (f_add (volume_ramp_time f0) (silence_add_time f0))
                        (state f0) (format (out_audio_format f0)) f0)
              n (block_bytes f)) with
    (fuel := length src) (i := 0) (f := f0)
    as (i' & f' & E & Hi' & (K & j & Hj & Hij & Hsil & _ & Hend)).
  - lia.
  - apply size_t_bound.
  - exact Hn.
  - intros i g Hi Hg. apply hold_inv_block; try assumption; try lia.
    + now rewrite S0.
    + rewrite Hin, Hr, Ha, T0. exact Hbelow.
  - now left.
  - subst n. lia.
  - split; [apply loop_keeps_refl|]. exists O.
    split; [lia|]. split; [lia|]. split; [reflexivity|].
    split; [intros _; split; reflexivity | lia].
  - assert (j = m) by nia. subst j.
    specialize (Hend eq_refl).
    rewrite Hin, Hr, Ha, T0, S0, Hfmt in *. fold (block_time f) in Hend. fold T in Hend.
    rewrite E. exists f'.
    assert (Hout : delayed_src n f' = PcmSilence (format (out_audio_format f)) n).
    { unfold delayed_src, span_read, fifo_Read. cbn [N.to_nat skipn].
      replace n with i' by lia. exact Hsil. }
    rewrite Hout.
    assert (Hst : state f <> Final) by (destruct Hs as [-> | ->]; discriminate).
    split; [destruct (state f); congruence | exact Hend].
Qed.

(** ** The end of a rising ramp *)

(** X7 (the sub-block that ends the ramp).  When the first sub-block of a
    call entered in [RampUp] brings the accumulator to [volume_ramp_time],
    that sub-block is scaled by the gain of the accumulator before the
    addition and the rest of the delayed chunk is returned untouched; the
    filter is left in [Final] with the accumulator at zero. *)
Theorem ramp_completes {L : PcmLaws P} (src : list byte) f :
  state f = RampUp -> block_bytes f <> 0 -> src <> [] ->
  N.of_nat (length src) < 2 ^ 63 ->
  let k := N.min (block_bytes f) (N.of_nat (length src)) in
  let chunk := firstn (length src) (pending f ++ src) in
  let gain := ramp_up_volume (volume_ramp_time f) (cur_time f) in
  f_ge (f_add (cur_time f) (SizeToTime (input_fmt f) k)) (volume_ramp_time f) = true ->
  exists f',
    FilterPCM (length src) src f =
      Some (f', snd (pv_Apply (pv_SetVolume (pv f) gain) (firstn (N.to_nat k) chunk)) ++
                skipn (N.to_nat k) chunk) /\
    state f' = Final /\ cur_time f' = f_zero.
Proof.
  intros Hs Hbs Hsrc Hn k chunk gain Hge.
  destruct (FilterPCM_returns (length src) src f Hbs Hn) as (f' & out & E); [lia|].
  exists f'. rewrite E.
  rewrite FilterPCM_unfold, Hs in E.
  destruct (FilterPCM_loop _ _ _ _ _) as [g|] eqn:Lp; [|discriminate].
  injection E as <- <-.
  destruct (stored_frame src f) as (C & S0 & T0 & V0 & _).
  assert (Hin : input_fmt (stored src f) = input_fmt f) by apply C.
  assert (Hr : volume_ramp_time (stored src f) = volume_ramp_time f) by apply C.
  destruct src as [|x src]; [congruence|].
  set (n := N.of_nat (length (x :: src))) in *.
  assert (Hnpos : 0 < n) by (subst n; cbn; lia).
  change (length (x :: src)) with (S (length src)) in Lp at 1.
  cbn [FilterPCM_loop] in Lp.
  replace (0 <? n) with true in Lp by (symmetry; now apply N.ltb_lt).
  replace (if block_bytes f <? n - 0 then block_bytes f else n - 0) with k in Lp.
  2: { subst k. rewrite N.sub_0_r. destruct (block_bytes f <? n) eqn:E;
         [apply N.ltb_lt in E | apply N.ltb_ge in E]; lia. }
  assert (Hs0 : state (stored (x :: src) f) = RampUp) by congruence.
  destruct (FilterPCM_block_RampUp 0 k (stored (x :: src) f) Hs0) as (D & _ & T).
  rewrite Hin, Hr, T0, V0, Hge, stored_data in *.
  destruct T as (Tc & Ts).
  apply FilterPCM_loop_Final in Lp; [|exact Ts]. subst g.
  split; [|split; assumption].
  f_equal. f_equal.
  unfold delayed_src, span_read, fifo_Read. cbn [N.to_nat skipn].
  rewrite D. fold gain.
  assert (Hk : (N.to_nat k <= length (x :: src))%nat) by (subst k n; lia).
  assert (Hread : firstn (N.to_nat k) (pending f ++ x :: src) = firstn (N.to_nat k) chunk).
  { subst chunk. rewrite firstn_firstn. f_equal. lia. }
  change (span_read 0 k (pending f ++ x :: src))
    with (firstn (N.to_nat k) (pending f ++ x :: src)).
  rewrite Hread.
  set (new := snd (pv_Apply (pv_SetVolume (pv f) gain) (firstn (N.to_nat k) chunk))).
  assert (Hnew : length new = N.to_nat k).
  { subst new. rewrite pv_Apply_length, <- Hread, length_firstn, length_app. lia. }
  unfold span_write. cbn [N.to_nat firstn app Nat.add].
  rewrite firstn_app, firstn_all2 by lia.
  f_equal. rewrite Hnew. subst chunk n. rewrite Nat2N.id.
  now rewrite skipn_firstn_comm.
Qed.

(** ** What a series of flushes plays *)

Lemma flushes_line {L : PcmLaws P} (j : nat) f :
  (forall i, (i < j)%nat -> state (flushes i f) <> Silence) ->
  pending (flushes j f) = skipn (N.to_nat (N.of_nat j * block_bytes f)) (flush_line j f) /\
  same_config f (flushes j f).
Proof.
  induction j as [|j IH]; intros Hstates.
  - split; [|apply same_config_refl]. unfold flush_line. cbn. now rewrite app_nil_r.
  - destruct IH as (Pe & C); [intros i Hi; apply Hstates; lia|].
    rewrite flushes_S.
    assert (Hns : state (flushes j f) <> Silence) by (apply Hstates; lia).
    destruct (Flush_spec (flushes j f) Hns) as (_ & _ & _ & _ & Pe' & _ & C' & _).
    split; [|apply (same_config_trans _ _ _ C C')].
    rewrite Pe', Pe, (same_config_block_bytes _ _ C).
    replace (input_fmt (flushes j f)) with (input_fmt f) by (symmetry; apply C).
    unfold flush_line.
    assert (Hlen : (N.to_nat (N.of_nat j * block_bytes f) <=
                    length (pending f ++ PcmSilence (format (input_fmt f))
                                                    (N.of_nat j * block_bytes f)))%nat)
      by (rewrite length_app, PcmSilence_length; lia).
    rewrite <- skipn_app_le by exact Hlen.
    rewrite skipn_skipn, <- app_assoc, <- PcmSilence_app.
    replace (N.of_nat (S j) * block_bytes f) with (N.of_nat j * block_bytes f + block_bytes f)
      by lia.
    f_equal. lia.
Qed.

(** X8 (what a series of flushes plays).  As long as the flushes do not
    find the filter in [Silence], flush number [k + 1] scales the sub-block
    at offset [k * block_bytes] of the pending bytes followed by silence: the
    buffered tail is played in order, once, and then silence. *)
Theorem flush_drains {L : PcmLaws P} (k : nat) f :
  (forall j, (j <= k)%nat -> state (flushes j f) <> Silence) ->
  let n := block_bytes f in
  let g := flushes k f in
  let gain := ramp_down_volume (volume_ramp_time f) (flush_acc g) in
  flush_out k f =
    snd (pv_Apply (pv_SetVolume (pv g) gain)
                  (span_read (N.of_nat k * n) n (flush_line (S k) f))) /\
  length (flush_out k f) = N.to_nat n /\
  pending (flushes (S k) f) = skipn (N.to_nat (N.of_nat (S k) * n)) (flush_line (S k) f).
Proof.
  intros Hstates n g gain.
  destruct (flushes_line k f) as (Pe & C); [intros i Hi; apply Hstates; lia|].
  destruct (flushes_line (S k) f) as (Pe' & _); [intros i Hi; apply Hstates; lia|].
  assert (Hns : state g <> Silence) by (apply Hstates; lia).
  destruct (Flush_spec g Hns) as (O & _ & _ & _ & _ & _ & _ & Len).
  fold g in Pe, C. rewrite (same_config_block_bytes _ _ C) in O, Len. fold n in O, Len.
  replace (input_fmt g) with (input_fmt f) in O by (symmetry; apply C).
  replace (volume_ramp_time g) with (volume_ramp_time f) in O by (symmetry; apply C).
  split; [|split; [exact Len | exact Pe']].
  unfold flush_out. fold g. rewrite O. fold gain. do 2 f_equal.
  rewrite Pe. unfold span_read, flush_line. fold n.
  assert (Hlen : (N.to_nat (N.of_nat k * n) <=
                  length (pending f ++ PcmSilence (format (input_fmt f)) (N.of_nat k * n)))%nat)
    by (rewrite length_app, PcmSilence_length; lia).
  rewrite <- skipn_app_le by exact Hlen.
  rewrite <- app_assoc, <- PcmSilence_app.
  replace (N.of_nat (S k) * n) with (N.of_nat k * n + n) by lia.
  reflexivity.
Qed.

(** ** A threshold out of reach *)

(** When no accumulator value reaches the threshold of the silent phase, a
    sub-block leaves a silent state as it is. *)
Lemma FilterPCM_block_hold (i k : N) f :
  renders_silence (state f) ->
  (forall t, f_ge t (f_add (volume_ramp_time f) (silence_add_time f)) = false) ->
  state (FilterPCM_block i k f) = state f.
Proof.
  intros Hs Hnever.
  destruct (FilterPCM_block_silence i k f Hs) as (_ & _ & T).
  rewrite Hnever in T. apply T.
Qed.

(** And so does a whole call. *)
Lemma FilterPCM_hold (fuel : nat) (src : list byte) f f' out :
  renders_silence (state f) ->
  (forall t, f_ge t (f_add (volume_ramp_time f) (silence_add_time f)) = false) ->
  FilterPCM fuel src f = Some (f', out) -> state f' = state f.
Proof.
  intros Hs Hnever E. rewrite FilterPCM_unfold in E.
  destruct (stored_frame src f) as (C & S0 & _).
  set (Inv := fun g : VolumeRampFilter =>
         state g = state f /\ volume_ramp_time g = volume_ramp_time f /\
         silence_add_time g = silence_add_time f).
  assert (H0 : Inv (stored src f)) by (split; [exact S0 | split; apply C]).
  assert (Hstep : forall i k g, Inv g -> Inv (FilterPCM_block i k g)).
  { intros i k g (G1 & G2 & G3).
    destruct (FilterPCM_block_frame i k g) as ((_ & B2 & B3 & _) & _).
    split; [|split; congruence].
    rewrite <- G1. apply FilterPCM_block_hold; [now rewrite G1 | now rewrite G2, G3]. }
  assert (Hend : Inv f'); [|apply Hend].
  destruct (state f) eqn:Es; [| |destruct Hs; discriminate..].
  all: destruct (FilterPCM_loop _ _ _ _ _) as [f1|] eqn:Lp; [|discriminate];
       injection E as <- _;
       eapply (FilterPCM_loop_inv Inv); [| exact H0 | exact Lp];
       intros i g _ Hg; now apply Hstep.
Qed.

(** X10 (a filter opened through the plugin).  Take a configuration block
    and an audio format for which the number of frames of the ramp,
    [volume_ramp_time * sample_rate] as a [float], is a number from zero to
    below [2 ^ 64], where the cast to [size_t] in [TimeToSize] is defined.
    The filter the plugin's initialiser and [Open] construct (the allocation
    of its delay line is taken to succeed) starts in [Silence] with the
    accumulator at zero, nothing to consume, a non-zero sub-block size in
    frames and the delay line holding [volume_ramp_time] worth of silence; a
    [Flush] returns nothing; and when the sub-block size in bytes is not
    zero, the first call of [FilterPCM] returns and its first sub-block is
    silence. *)
Theorem plugin_opens_silent {L : PcmLaws P} (block : ConfigBlock)
    (af : AudioFormat SampleFormat) :
  let p := init volume_ramp_filter_plugin block in
  let f := Open p af in
  let frames := f_mul (prepared_volume_ramp_time p) (f_of_unsigned (sample_rate af)) in
  f_ge frames f_zero = true -> f_ge frames (f_of_unsigned (2 ^ 64)) = false ->
  state f = Silence /\ cur_time f = f_zero /\ last_delay_buf_size f = 0 /\
  input_fmt f = af /\ ramp_block_size f <> 0 /\
  volume_ramp_time f = prepared_volume_ramp_time p /\
  pending f = PcmSilence (format af) (TimeToSize af (volume_ramp_time f)) /\
  snd (Flush f) = [] /\
  (forall src,
     block_bytes f <> 0 -> N.of_nat (length src) < 2 ^ 63 ->
     let k := N.min (block_bytes f) (N.of_nat (length src)) in
     exists f' out,
       FilterPCM (length src) src f = Some (f', out) /\
       length out = length src /\
       firstn (N.to_nat k) out = PcmSilence (format (out_audio_format f)) k).
Proof.
  intros p f frames _ _.
  assert (Hs : state f = Silence) by reflexivity.
  split; [exact Hs|]. split; [reflexivity|]. split; [reflexivity|].
  split; [reflexivity|].
  split.
  { subst f p. cbn. destruct (strtoul10 _ =? 0) eqn:E; [discriminate | now apply N.eqb_neq]. }
  split; [reflexivity|].
  split; [apply VolumeRampFilter_new_pending|].
  split; [now apply Flush_Silence|].
  intros src Hbs Hn k.
  destruct (FilterPCM_silence (length src) src f) as (f' & out & E & H1 & _);
    [now left | exact Hbs | exact Hn | lia |].
  exists f', out. split; [exact E|]. split; [|exact H1].
  now apply (FilterPCM_result _ _ _ _ _ E).
Qed.

(** ** A stalled accumulator *)



End Coverage.

(** * The platforms keep the laws *)

Lemma pcm8_laws {float : Type} (F : FloatOps float) (to_size : float -> N) :
  PcmLaws (pcm8 F to_size).
Proof.
  constructor. intros [fmt vol] xs. cbn. destruct fmt; cbn.
  - apply length_map.
  - reflexivity.
Qed.

Lemma Binary32_pcm_laws : PcmLaws Binary32.pcm.
Proof. apply pcm8_laws. Qed.

Lemma Binary32_libc_laws : LibcLaws Binary32.float32_ops Binary32.pcm.
Proof. constructor; reflexivity. Qed.

(** * Single precision *)

Section SinglePrecision.

Import Binary32.

Lemma of_N_1024 : of_N 1024 = S754_finite false 8388608 (-13).
Proof. vm_compute. reflexivity. Qed.

Lemma ramp_up_volume_zero (r : float32) : ramp_up_volume r f_zero = 0.
Proof.
  unfold ramp_up_volume. cbn [f_zero f_div f_mul f_of_unsigned f_to_unsigned float32_ops PCM_VOLUME_1 pcm pcm8].
  rewrite of_N_1024.
  destruct r as [s|s| |s m e]; try destruct s; reflexivity.
Qed.

Lemma ramp_down_volume_zero (r : float32) :
  nonzero_number r = true -> ramp_down_volume r f_zero = PCM_VOLUME_1.
Proof.
  unfold ramp_down_volume. cbn [f_zero f_one f_sub f_div f_mul f_of_unsigned f_to_unsigned float32_ops PCM_VOLUME_1 pcm pcm8].
  rewrite of_N_1024.
  destruct r as [s|s| |s m e]; try discriminate; intros _; destruct s; vm_compute; reflexivity.
Qed.

Lemma nan_threshold (r t : float32) : f_ge t (f_add r S754_nan) = false.
Proof.
  cbn [f_ge f_add float32_ops]. destruct r; reflexivity.
Qed.

(** X9 (the ends of the ramps in single precision).  Whatever the ramp
    time, the gain of a rising ramp at accumulated time zero is 0, and this
    is the gain of the sub-block that follows the silent phase; for a ramp
    time that is a number other than zero, the gain of a falling ramp at
    time zero is [PCM_VOLUME_1], and this is the gain of the first flush of
    a filter that a run of calls has left in [Final]. *)
Theorem ramp_endpoints (r : float32) :
  ramp_up_volume r f_zero = 0 /\
  (nonzero_number r = true -> ramp_down_volume r f_zero = PCM_VOLUME_1) /\
  (forall (f : VolumeRampFilter) i k,
     renders_silence (state f) -> volume_ramp_time f = r ->
     let f' := FilterPCM_block i k f in
     state f' = RampUp ->
     ramp_up_volume (volume_ramp_time f') (cur_time f') = 0) /\
  (forall fmt add_time block_size calls (f : VolumeRampFilter) W,
     run calls (VolumeRampFilter_new fmt r add_time block_size) = Some (f, W) ->
     state f = Final -> nonzero_number r = true ->
     ramp_down_volume (volume_ramp_time f) (flush_acc f) = PCM_VOLUME_1).
Proof.
  split; [apply ramp_up_volume_zero|]. split; [apply ramp_down_volume_zero|].
  split.
  - intros f i k Hs Hr f' Hs'.
    destruct (FilterPCM_block_silence i k f Hs) as (_ & _ & T). fold f' in T.
    destruct (f_ge _ _).
    + destruct T as (-> & _). apply ramp_up_volume_zero.
    + destruct T as (_ & T). rewrite Hs' in T.
      destruct Hs as [Hs|Hs]; rewrite Hs in T; discriminate.
  - intros fmt add_time block_size calls f W Hrun Hs Hr.
    assert (Hset : settled f).
    { eapply run_settled; [|exact Hrun]. apply not_Final_settled. now right. }
    destruct (run_fifo (L := Binary32_pcm_laws) calls _ _ _ Hrun) as (_ & (_ & C2 & _)).
    unfold flush_acc. rewrite Hs, (Hset Hs), C2. now apply ramp_down_volume_zero.
Qed.

Lemma nan_hold_call (c : Call) (f f' : VolumeRampFilter) out :
  state f = Silence -> silence_add_time f = S754_nan ->
  call c f = Some (f', out) ->
  state f' = Silence /\ silence_add_time f' = S754_nan.
Proof.
  intros Hs Ha Hc.
  destruct (call_fifo (L := Binary32_pcm_laws) c f f' out Hc) as (_ & _ & C).
  split; [|destruct C as (_ & _ & C3 & _); congruence].
  destruct c as [src| | |]; cbn [call] in Hc.
  - rewrite <- Hs. apply (FilterPCM_hold _ _ _ _ _ (or_introl Hs)) in Hc; [exact Hc|].
    intros t. rewrite Ha. apply nan_threshold.
  - injection Hc as E. replace f' with (fst (Flush f)) by now rewrite E.
    now apply Flush_state.
  - now injection Hc as <- _.
  - now injection Hc as <- _.
Qed.

Lemma nan_hold_run (calls : list Call) :
  forall (f f' : VolumeRampFilter) W,
    state f = Silence -> silence_add_time f = S754_nan ->
    run calls f = Some (f', W) ->
    state f' = Silence /\ silence_add_time f' = S754_nan.
Proof.
  induction calls as [|c rest IH]; intros f f' W Hs Ha; cbn [run].
  - intros [= <- _]. now split.
  - destruct (call c f) as [[f1 out]|] eqn:Ec; [|discriminate].
    destruct (run rest f1) as [[f2 W']|] eqn:Er; [|discriminate].
    intros [= <- _].
    destruct (nan_hold_call c f f1 out Hs Ha Ec) as (Hs1 & Ha1).
    exact (IH f1 f2 W' Hs1 Ha1 Er).
Qed.

(** X11 (an added silence time that is not a number).  In single
    precision, a filter constructed with NaN as [silence_add_time] stays in
    [Silence] whatever calls are made, and every call of [FilterPCM] returns
    nothing but silence: no accumulator value compares as reaching a NaN
    threshold. *)
Theorem nan_hold_never_ends (fmt : AudioFormat SampleFormat) (ramp_time : float32)
    (block_size : N) (calls : list Call) (f : VolumeRampFilter) W :
  run calls (VolumeRampFilter_new fmt ramp_time S754_nan block_size) = Some (f, W) ->
  state f = Silence /\
  forall src,
    block_bytes f <> 0 -> N.of_nat (length src) < 2 ^ 63 ->
    exists f',
      FilterPCM (length src) src f =
        Some (f', PcmSilence (format (out_audio_format f)) (N.of_nat (length src))) /\
      state f' = Silence.
Proof.
  intros Hrun.
  destruct (nan_hold_run calls
              (VolumeRampFilter_new fmt ramp_time S754_nan block_size) f W
              eq_refl eq_refl Hrun) as (Hs & Ha).
  split; [exact Hs|].
  intros src Hbs Hn.
  destruct (FilterPCM_silence (L := Binary32_pcm_laws) (length src) src f)
    as (f' & out & E & _ & Hall); [now left | exact Hbs | exact Hn | lia |].
  assert (Hs' : state f' = Silence).
  { rewrite <- Hs. apply (FilterPCM_hold _ _ _ _ _ (or_introl Hs) ) in E; [exact E|].
    intros t. rewrite Ha. apply nan_threshold. }
  exists f'. split; [|exact Hs'].
  rewrite E, Hall; [reflexivity | now left].
Qed.

End SinglePrecision.

(** * Rounding in single precision *)

Section Rounding.

Local Open Scope Z_scope.

Lemma scale_big : 300 <= sg.
Proof. unfold sg. lia. Qed.

Opaque sg.

(** ** Binary digits *)

Lemma digits2_pos_log2 (p : positive) :
  Zpos (digits2_pos p) = Z.log2 (Zpos p) + 1.
Proof.
  induction p as [p IH|p IH|]; cbn [digits2_pos].
  - rewrite Pos2Z.inj_succ, IH.
    change (Zpos p~1) with (2 * Zpos p + 1).
    rewrite Z.log2_succ_double by lia. lia.
  - rewrite Pos2Z.inj_succ, IH.
    change (Zpos p~0) with (2 * Zpos p).
    rewrite Z.log2_double by lia. lia.
  - reflexivity.
Qed.

Lemma Zdigits2_log2 (m : Z) : 0 < m -> Zdigits2 m = Z.log2 m + 1.
Proof. destruct m; try lia. intros _. apply digits2_pos_log2. Qed.

Lemma Zdigits2_bounds (m : Z) :
  0 < m -> 2 ^ (Zdigits2 m - 1) <= m < 2 ^ Zdigits2 m.
Proof.
  intros H. rewrite Zdigits2_log2 by lia.
  replace (Z.log2 m + 1 - 1) with (Z.log2 m) by lia.
  replace (Z.log2 m + 1) with (Z.succ (Z.log2 m)) by lia.
  now apply Z.log2_spec.
Qed.

Lemma Zdigits2_unique (m d : Z) :
  2 ^ (d - 1) <= m < 2 ^ d -> 0 < m -> Zdigits2 m = d.
Proof.
  intros H Hm. rewrite Zdigits2_log2 by lia.
  assert (0 < d).
  { destruct (Z.le_gt_cases d 0) as [Hd|Hd]; [|lia].
    assert (2 ^ d <= 2 ^ 0) by (apply Z.pow_le_mono_r; lia).
    change (2 ^ 0) with 1 in *. lia. }
  rewrite (Z.log2_unique m (d - 1)); [lia | lia |].
  replace (Z.succ (d - 1)) with d by lia. exact H.
Qed.

Lemma Zdigits2_nonneg (m : Z) : 0 <= Zdigits2 m.
Proof. destruct m; cbn; lia. Qed.

Lemma Zdigits2_pos (m : Z) : 0 < m -> 0 < Zdigits2 m.
Proof. destruct m; cbn; lia. Qed.

Lemma Zdigits2_mono (a b : Z) : 0 <= a <= b -> Zdigits2 a <= Zdigits2 b.
Proof.
  intros H. destruct (Z.eq_dec a 0) as [->|Ha].
  - apply Zdigits2_nonneg.
  - rewrite !Zdigits2_log2 by lia.
    assert (Z.log2 a <= Z.log2 b) by (apply Z.log2_le_mono; lia). lia.
Qed.

Lemma Zdigits2_shift (m k : Z) :
  0 < m -> 0 <= k -> Zdigits2 (m * 2 ^ k) = Zdigits2 m + k.
Proof.
  intros Hm Hk. pose proof (Zdigits2_bounds m Hm) as [B1 B2].
  pose proof (Zdigits2_pos m Hm).
  assert (0 < 2 ^ k) by (apply Z.pow_pos_nonneg; lia).
  apply Zdigits2_unique; [|nia].
  replace (Zdigits2 m + k - 1) with (Zdigits2 m - 1 + k) by lia.
  rewrite !Z.pow_add_r by lia. nia.
Qed.

Lemma Zdigits2_lt_pow (m d : Z) : 0 <= m -> 0 <= d -> m < 2 ^ d -> Zdigits2 m <= d.
Proof.
  intros Hm Hd H. destruct (Z.eq_dec m 0) as [->|Hne]; [cbn; lia|].
  pose proof (Zdigits2_bounds m ltac:(lia)) as [B1 _].
  destruct (Z.le_gt_cases (Zdigits2 m) d) as [|Hgt]; [assumption|].
  assert (2 ^ d <= 2 ^ (Zdigits2 m - 1)) by (apply Z.pow_le_mono_r; lia). lia.
Qed.

Lemma Zdigits2_ge_pow (m d : Z) : 0 <= d -> 2 ^ d <= m -> d + 1 <= Zdigits2 m.
Proof.
  intros Hd H.
  assert (0 < 2 ^ d) by (apply Z.pow_pos_nonneg; lia).
  pose proof (Zdigits2_bounds m ltac:(lia)) as [_ B2].
  destruct (Z.le_gt_cases (d + 1) (Zdigits2 m)) as [|Hgt]; [assumption|].
  assert (2 ^ Zdigits2 m <= 2 ^ d).
  { apply Z.pow_le_mono_r; [lia|]. lia. }
  lia.
Qed.

Lemma mod_pow2_succ (U k : Z) :
  0 <= k ->
  U mod 2 ^ (k + 1) = U mod 2 ^ k + 2 ^ k * ((U / 2 ^ k) mod 2).
Proof.
  intros Hk. rewrite Z.pow_add_r by lia. change (2 ^ 1) with 2.
  apply Z.rem_mul_r; [|lia].
  apply Z.pow_nonzero; lia.
Qed.

Lemma shr_1_spec (m : Z) (r s : bool) :
  0 <= m ->
  shr_1 {| shr_m := m; shr_r := r; shr_s := s |} =
  {| shr_m := m / 2; shr_r := Z.odd m; shr_s := r || s |}.
Proof.
  intros Hm. destruct m as [|p|p]; [reflexivity| |lia].
  destruct p as [p|p|]; cbn [shr_1].
  - f_equal. change (Zpos p~1) with (2 * Zpos p + 1).
    rewrite Z.mul_comm, Z.div_add_l by lia. cbn. lia.
  - f_equal. change (Zpos p~0) with (2 * Zpos p).
    rewrite Z.mul_comm, Z.div_mul by lia. reflexivity.
  - reflexivity.
Qed.

Lemma rep_shr_1 (U : Z) (st : bool) (k : Z) (mrs : shr_record) :
  0 <= U -> rep U st k mrs -> rep U st (k + 1) (shr_1 mrs).
Proof.
  intros HU (Hk & Hm & Hr & Hs). destruct mrs as [m r s]. cbn in Hm, Hr, Hs.
  assert (Hp : 0 < 2 ^ k) by (apply Z.pow_pos_nonneg; lia).
  assert (Hp' : 0 < 2 ^ (k - 1)) by (apply Z.pow_pos_nonneg; lia).
  assert (Hm0 : 0 <= m) by (subst m; apply Z.div_pos; lia).
  rewrite shr_1_spec by assumption.
  pose proof (mod_pow2_succ U k ltac:(lia)) as E1.
  pose proof (mod_pow2_succ U (k - 1) ltac:(lia)) as E0.
  replace (k - 1 + 1) with k in E0 by lia.
  pose proof (Z.mod_pos_bound U (2 ^ k) Hp) as Bk.
  pose proof (Z.mod_pos_bound U (2 ^ (k - 1)) Hp') as Bk'.
  pose proof (Z.mod_pos_bound (U / 2 ^ k) 2 ltac:(lia)) as Bb.
  pose proof (Z.mod_pos_bound (U / 2 ^ (k - 1)) 2 ltac:(lia)) as Bb'.
  repeat split; cbn [shr_m shr_r shr_s].
  - lia.
  - subst m. rewrite Z.div_div by lia.
    rewrite Z.pow_add_r by lia. reflexivity.
  - replace (k + 1 - 1) with k by lia.
    rewrite <- Hm in E1, Bb. rewrite (Zodd_mod m).
    destruct (Z.eq_dec (m mod 2) 1) as [E|E].
    + rewrite E in *. rewrite Z.eqb_refl. symmetry. apply Z.leb_le. lia.
    + assert (m mod 2 = 0) as E' by lia. rewrite E' in *. cbn.
      symmetry. apply Z.leb_gt. lia.
  - replace (k + 1 - 1) with k by lia. rewrite Hr, Hs.
    destruct (Z.eq_dec ((U / 2 ^ (k - 1)) mod 2) 1) as [E|E].
    + rewrite E in E0.
      replace (2 ^ (k - 1) <=? U mod 2 ^ k) with true by (symmetry; apply Z.leb_le; lia).
      replace (U mod 2 ^ k =? 0) with false by (symmetry; apply Z.eqb_neq; lia).
      cbn. now rewrite orb_true_r.
    + assert ((U / 2 ^ (k - 1)) mod 2 = 0) as E' by lia. rewrite E' in E0.
      replace (2 ^ (k - 1) <=? U mod 2 ^ k) with false by (symmetry; apply Z.leb_gt; lia).
      replace (U mod 2 ^ k) with (U mod 2 ^ (k - 1)) by lia. reflexivity.
Qed.

Lemma rep_iter_pos (U : Z) (st : bool) (p : positive) :
  0 <= U ->
  forall k mrs, rep U st k mrs -> rep U st (k + Zpos p) (iter_pos shr_1 p mrs).
Proof.
  intros HU. induction p as [p IH|p IH|]; intros k mrs H; cbn [iter_pos].
  - replace (k + Zpos p~1) with (k + 1 + Zpos p + Zpos p) by lia.
    apply IH, IH. now apply rep_shr_1.
  - replace (k + Zpos p~0) with (k + Zpos p + Zpos p) by lia.
    now apply IH, IH.
  - now apply rep_shr_1.
Qed.

Lemma rep_shr (U : Z) (st : bool) (k e n : Z) (mrs : shr_record) :
  0 <= U -> 0 <= n -> rep U st k mrs ->
  rep U st (k + n) (fst (shr mrs e n)) /\ snd (shr mrs e n) = e + n.
Proof.
  intros HU Hn H. destruct n as [|p|p]; cbn [shr fst snd]; [| |lia].
  - rewrite !Z.add_0_r. now split.
  - split; [now apply rep_iter_pos | reflexivity].
Qed.

(** exact located values *)
Lemma rep_exact (m k : Z) :
  0 <= m -> 1 <= k -> rep (m * 2 ^ k) false k (shr_record_of_loc m loc_Exact).
Proof.
  intros Hm Hk.
  assert (Hp : 0 < 2 ^ k) by (apply Z.pow_pos_nonneg; lia).
  assert (Hp' : 0 < 2 ^ (k - 1)) by (apply Z.pow_pos_nonneg; lia).
  assert (E : 2 ^ k = 2 * 2 ^ (k - 1)).
  { replace k with (1 + (k - 1)) at 1 by lia. rewrite Z.pow_add_r by lia. reflexivity. }
  repeat split; cbn.
  - lia.
  - rewrite Z.div_mul by lia. reflexivity.
  - rewrite Z.mod_mul by lia. symmetry. apply Z.leb_gt. lia.
  - rewrite E. replace (m * (2 * 2 ^ (k - 1))) with (m * 2 * 2 ^ (k - 1)) by lia.
    rewrite Z.mod_mul by lia. reflexivity.
Qed.

Lemma rnd_rep (U : Z) (st : bool) (k : Z) (mrs : shr_record) :
  0 <= U -> rep U st k mrs ->
  round_nearest_even (shr_m mrs) (loc_of_shr_record mrs) = rnd U st k.
Proof.
  intros HU (Hk & Hm & Hr & Hs). destruct mrs as [m r s]. cbn in *.
  assert (Hp : 0 < 2 ^ k) by (apply Z.pow_pos_nonneg; lia).
  assert (Hp' : 0 < 2 ^ (k - 1)) by (apply Z.pow_pos_nonneg; lia).
  pose proof (mod_pow2_succ U (k - 1) ltac:(lia)) as E0.
  replace (k - 1 + 1) with k in E0 by lia.
  pose proof (Z.mod_pos_bound U (2 ^ (k - 1)) Hp') as Bk'.
  pose proof (Z.mod_pos_bound (U / 2 ^ (k - 1)) 2 ltac:(lia)) as Bb'.
  unfold rnd. rewrite <- Hm.
  destruct (Z.eq_dec ((U / 2 ^ (k - 1)) mod 2) 1) as [E|E].
  - rewrite E in E0.
    assert (r = true) as -> by (rewrite Hr; apply Z.leb_le; lia).
    destruct (Z.eq_dec (U mod 2 ^ (k - 1)) 0) as [Z0|Z0].
    + rewrite Z0 in *. cbn in Hs. rewrite orb_false_r in Hs. subst s.
      replace (2 ^ (k - 1) <? U mod 2 ^ k) with false by (symmetry; apply Z.ltb_ge; lia).
      replace (U mod 2 ^ k =? 2 ^ (k - 1)) with true by (symmetry; apply Z.eqb_eq; lia).
      cbn. destruct st; cbn; [reflexivity|].
      rewrite <- Z.negb_even. destruct (Z.even m); reflexivity.
    + assert (s = true) as ->.
      { rewrite Hs. replace (U mod 2 ^ (k - 1) =? 0) with false
          by (symmetry; apply Z.eqb_neq; lia). now rewrite orb_true_r. }
      replace (2 ^ (k - 1) <? U mod 2 ^ k) with true by (symmetry; apply Z.ltb_lt; lia).
      reflexivity.
  - assert ((U / 2 ^ (k - 1)) mod 2 = 0) as E' by lia. rewrite E' in E0.
    assert (r = false) as -> by (rewrite Hr; apply Z.leb_gt; lia).
    replace (2 ^ (k - 1) <? U mod 2 ^ k) with false by (symmetry; apply Z.ltb_ge; lia).
    replace (U mod 2 ^ k =? 2 ^ (k - 1)) with false by (symmetry; apply Z.eqb_neq; lia).
    cbn. destruct s; reflexivity.
Qed.

Lemma fexp_eq (k : Z) : fexp 24 128 k = Z.max (k - 24) (-149).
Proof. reflexivity. Qed.

Lemma bounded_spec (m : positive) (e : Z) :
  bounded 24 128 m e = true <->
  e = Z.max (Zpos (digits2_pos m) + e - 24) (-149) /\ e <= 104.
Proof.
  unfold bounded, canonical_mantissa. rewrite andb_true_iff, Z.eqb_eq, Z.leb_le, fexp_eq.
  change (128 - 24) with 104. lia.
Qed.

Section Scale.

Hypothesis sg_big : 300 <= sg.

Lemma kof_pos (U : Z) : 1 <= kof U.
Proof. unfold kof. lia. Qed.

Lemma pow2_pos (k : Z) : 0 <= k -> 0 < 2 ^ k.
Proof. intros. apply Z.pow_pos_nonneg; lia. Qed.

Lemma pow2_split (a b : Z) : 0 <= a -> 0 <= b -> 2 ^ (a + b) = 2 ^ a * 2 ^ b.
Proof. intros. apply Z.pow_add_r; lia. Qed.

Lemma pow2_le (a b : Z) : 0 <= a <= b -> 2 ^ a <= 2 ^ b.
Proof. intros. apply Z.pow_le_mono_r; lia. Qed.

Lemma pow2_lt (a b : Z) : 0 <= a < b -> 2 ^ a < 2 ^ b.
Proof. intros. apply Z.pow_lt_mono_r; lia. Qed.

(** the quotient of [U] at its own scale *)
Lemma quotient_bounds (U : Z) :
  0 <= U ->
  let k := kof U in
  let q := U / 2 ^ k in
  0 <= q < 2 ^ 24 /\
  (sg - 149 < k -> 2 ^ 23 <= q) /\
  (k = sg - 149 \/ (k = Zdigits2 U - 24 /\ sg - 149 < k)).
Proof.
  intros HU k q.
  assert (Hk : 1 <= k) by apply kof_pos.
  assert (Hp : 0 < 2 ^ k) by (apply pow2_pos; lia).
  assert (Hd : Zdigits2 U - 24 <= k) by (subst k; unfold kof; lia).
  assert (Hq0 : 0 <= q) by (subst q; apply Z.div_pos; lia).
  assert (Hlt : U < 2 ^ (k + 24)).
  { destruct (Z.eq_dec U 0) as [->|Hne]; [apply pow2_pos; lia|].
    pose proof (Zdigits2_bounds U ltac:(lia)) as [_ B].
    pose proof (Zdigits2_pos U ltac:(lia)).
    assert (2 ^ Zdigits2 U <= 2 ^ (k + 24)) by (apply pow2_le; lia). lia. }
  split; [split; [exact Hq0|]|split].
  - subst q. apply Z.div_lt_upper_bound; [lia|].
    rewrite pow2_split in Hlt by lia. lia.
  - intros Hbig. assert (Hkd : k = Zdigits2 U - 24) by (subst k; unfold kof in *; lia).
    assert (HU0 : 0 < U).
    { destruct (Z.eq_dec U 0) as [->|]; [cbn in Hkd; lia | lia]. }
    pose proof (Zdigits2_bounds U HU0) as [B _].
    replace (Zdigits2 U - 1) with (k + 23) in B by lia.
    rewrite pow2_split in B by lia.
    subst q. apply Z.div_le_lower_bound; [lia|]. lia.
  - subst k. unfold kof. lia.
Qed.

Lemma rnd_bounds (U : Z) (st : bool) (k : Z) :
  U / 2 ^ k <= rnd U st k <= U / 2 ^ k + 1.
Proof. unfold rnd. destruct (_ || _); lia. Qed.

Lemma shr_m_of_loc (m : Z) (l : location) : shr_m (shr_record_of_loc m l) = m.
Proof. destruct l as [|[]]; reflexivity. Qed.

(** [binary_round_aux] on a located value *)
Lemma binary_round_aux_spec (U : Z) (st : bool) (mx ex : Z) (lx : location) :
  0 <= U -> 0 <= mx ->
  rep U st (ex + sg) (shr_record_of_loc mx lx) ->
  ex <= fexp 24 128 (Zdigits2 mx + ex) ->
  let F := binary_round_aux 24 128 false mx ex lx in
  regular32 F /\ uval F = Z.min (RNU U st) (2 ^ (128 + sg)).
Proof.
  intros HU Hmx Hrep HP0 F.
  pose proof Hrep as (Hk0 & Hm0 & _). rewrite shr_m_of_loc in Hm0.
  set (n := fexp 24 128 (Zdigits2 mx + ex) - ex) in *.
  assert (Hn : 0 <= n) by (subst n; lia).
  (* the scale of the first shift *)
  assert (Hk : ex + sg + n = kof U).
  { subst n. rewrite fexp_eq. unfold kof.
    destruct (Z.eq_dec mx 0) as [->|Hne].
    - cbn [Zdigits2] in *. rewrite fexp_eq in HP0.
      assert (Hlt : U < 2 ^ (ex + sg)).
      { assert (Hp : 0 < 2 ^ (ex + sg)) by (apply pow2_pos; lia).
        destruct (Z.lt_ge_cases U (2 ^ (ex + sg))) as [|Hge]; [assumption|].
        assert (1 <= U / 2 ^ (ex + sg)).
        { apply Z.div_le_lower_bound; lia. }
        lia. }
      assert (Zdigits2 U <= ex + sg) by (apply Zdigits2_lt_pow; lia).
      lia.
    - assert (Hp : 0 < 2 ^ (ex + sg)) by (apply pow2_pos; lia).
      assert (HdU : Zdigits2 U = Zdigits2 mx + (ex + sg)).
      { pose proof (Zdigits2_bounds mx ltac:(lia)) as [B1 B2].
        pose proof (Zdigits2_pos mx ltac:(lia)).
        pose proof (Z.div_mod U (2 ^ (ex + sg)) ltac:(lia)) as DM.
        pose proof (Z.mod_pos_bound U (2 ^ (ex + sg)) Hp) as MB.
        rewrite <- Hm0 in DM.
        assert (0 < U) by nia.
        apply Zdigits2_unique; [|assumption].
        replace (Zdigits2 mx + (ex + sg) - 1) with (Zdigits2 mx - 1 + (ex + sg)) by lia.
        rewrite (pow2_split (Zdigits2 mx - 1) (ex + sg)),
                (pow2_split (Zdigits2 mx) (ex + sg)) by lia.
        assert (2 ^ (ex + sg) * 2 ^ (Zdigits2 mx - 1) <= 2 ^ (ex + sg) * mx)
          by (apply Z.mul_le_mono_nonneg_l; lia).
        assert (2 ^ (ex + sg) * (mx + 1) <= 2 ^ (ex + sg) * 2 ^ Zdigits2 mx)
          by (apply Z.mul_le_mono_nonneg_l; lia).
        lia. }
      lia. }
  destruct (rep_shr U st (ex + sg) ex n _ HU Hn Hrep) as (Hrep1 & He1).
  rewrite Hk in Hrep1.
  pose proof (rnd_rep U st (kof U) _ HU Hrep1) as Hq'.
  destruct (quotient_bounds U HU) as (Hq & Hnormal & Hcase).
  pose proof (rnd_bounds U st (kof U)) as Hrb.
  set (k := kof U) in *. set (q' := rnd U st k) in *.
  assert (Hkp : 0 < 2 ^ k) by (apply pow2_pos; lia).
  subst F. unfold binary_round_aux, shr_fexp. fold n.
  destruct (shr (shr_record_of_loc mx lx) ex n) as [mrs' e'] eqn:Esh.
  cbn [fst snd] in Hrep1, He1, Hq'. rewrite Hq'. subst e'.
  set (E := ex + n) in *.
  assert (HE : E = k - sg) by lia.
  assert (HE149 : -149 <= E) by (destruct Hcase; lia).
  unfold RNU. fold k q'.
  assert (Hq'0 : 0 <= q') by lia.
  destruct (Z.eq_dec q' (2 ^ 24)) as [Hcarry|Hnocarry].
  - (* the rounding carried into a 25th digit *)
    rewrite Hcarry. change (2 ^ 24) with 16777216. change (Zdigits2 16777216) with 25.
    rewrite fexp_eq.
    replace (Z.max (25 + E - 24) (-149) - E) with 1 by lia.
    cbn -[Z.pow Z.leb Z.add Z.mul].
    change (128 - 24) with 104.
    assert (Hpk : 16777216 * 2 ^ k = 2 ^ (24 + k))
      by (rewrite pow2_split by lia; reflexivity).
    destruct (E + 1 <=? 104) eqn:Eov.
    + apply Z.leb_le in Eov. split.
      * cbn [regular32]. apply bounded_spec.
        change (Z.pos (digits2_pos 8388608)) with 24. lia.
      * cbn [uval]. rewrite Z.min_l.
        -- replace (E + 1 + sg) with (1 + k) by lia.
           rewrite pow2_split by lia. change (2 ^ 1) with 2. lia.
        -- rewrite Hpk. apply pow2_le. lia.
    + apply Z.leb_gt in Eov. split; [exact I|].
      cbn [uval]. rewrite Z.min_r; [reflexivity|].
      rewrite Hpk. apply pow2_le. lia.
  - (* no carry *)
    assert (Hq'lt : q' < 2 ^ 24) by lia.
    assert (Hn2 : fexp 24 128 (Zdigits2 q' + E) - E = 0).
    { rewrite fexp_eq.
      destruct (Z.eq_dec q' 0) as [Hz|Hnz].
      - rewrite Hz. cbn [Zdigits2].
        assert (k = sg - 149).
        { destruct Hcase as [Hc|[_ Hc]]; [exact Hc|].
          specialize (Hnormal Hc). change (2 ^ 23) with 8388608 in *. lia. }
        lia.
      - assert (Zdigits2 q' <= 24) by (apply Zdigits2_lt_pow; lia).
        destruct Hcase as [Hc|[_ Hc]]; [lia|].
        specialize (Hnormal Hc).
        assert (24 <= Zdigits2 q').
        { replace 24 with (23 + 1) by lia. apply Zdigits2_ge_pow; lia. }
        lia. }
    rewrite Hn2. cbn [shr fst snd shr_record_of_loc shr_m].
    destruct q' as [|p|p] eqn:Eq'; [| |lia].
    + split; [exact I|]. cbn [uval]. rewrite Z.min_l; [reflexivity|].
      apply Z.lt_le_incl, pow2_pos. lia.
    + change (128 - 24) with 104.
      destruct (E <=? 104) eqn:Eov.
      * apply Z.leb_le in Eov. split.
        -- cbn [regular32]. apply bounded_spec. split; [|exact Eov].
           rewrite fexp_eq in Hn2. change (Zdigits2 (Zpos p)) with (Zpos (digits2_pos p)) in Hn2.
           lia.
        -- cbn [uval]. replace (E + sg) with k by lia.
           rewrite Z.min_l; [reflexivity|].
           assert (2 ^ 24 * 2 ^ k <= 2 ^ (128 + sg)).
           { replace (2 ^ 24 * 2 ^ k) with (2 ^ (24 + k)) by (rewrite pow2_split; lia).
             apply pow2_le. lia. }
           nia.
      * apply Z.leb_gt in Eov. split; [exact I|].
        cbn [uval]. rewrite Z.min_r; [reflexivity|].
        assert (Hc : sg - 149 < k) by lia.
        specialize (Hnormal Hc).
        assert (2 ^ (128 + sg) <= 2 ^ 23 * 2 ^ k).
        { replace (2 ^ 23 * 2 ^ k) with (2 ^ (23 + k)) by (rewrite pow2_split; lia).
          apply pow2_le. lia. }
        nia.
Qed.

End Scale.

Section Scale2.

Hypothesis sg_big : 300 <= sg.

Lemma kof_mono (U1 U2 : Z) : 0 <= U1 <= U2 -> kof U1 <= kof U2.
Proof.
  intros H. unfold kof. pose proof (Zdigits2_mono U1 U2 H). lia.
Qed.

(** Rounding at a given scale is monotone. *)
Lemma rnd_mono (U1 U2 : Z) (st1 st2 : bool) (k : Z) :
  1 <= k -> 0 <= U1 ->
  U1 < U2 \/ (U1 = U2 /\ (st1 = true -> st2 = true)) ->
  rnd U1 st1 k <= rnd U2 st2 k.
Proof.
  intros Hk HU1 Hle.
  assert (Hp : 0 < 2 ^ k) by (apply pow2_pos; lia).
  assert (Hp' : 0 < 2 ^ (k - 1)) by (apply pow2_pos; lia).
  assert (HU : U1 <= U2) by lia.
  pose proof (Z.div_le_mono U1 U2 (2 ^ k) Hp HU) as Hq.
  pose proof (rnd_bounds U1 st1 k) as B1.
  pose proof (rnd_bounds U2 st2 k) as B2.
  destruct (Z.eq_dec (U1 / 2 ^ k) (U2 / 2 ^ k)) as [E|E]; [|lia].
  pose proof (Z.div_mod U1 (2 ^ k) ltac:(lia)) as D1.
  pose proof (Z.div_mod U2 (2 ^ k) ltac:(lia)) as D2.
  rewrite <- E in D2.
  assert (Hrem : U1 mod 2 ^ k <= U2 mod 2 ^ k) by lia.
  unfold rnd. rewrite <- E.
  set (q := U1 / 2 ^ k) in *. set (r1 := U1 mod 2 ^ k) in *.
  set (r2 := U2 mod 2 ^ k) in *. set (half := 2 ^ (k - 1)) in *.
  destruct ((half <? r1) || (r1 =? half) && (st1 || Z.odd q)) eqn:C1.
  2: { destruct ((half <? r2) || (r2 =? half) && (st2 || Z.odd q)); lia. }
  replace ((half <? r2) || (r2 =? half) && (st2 || Z.odd q)) with true; [lia|].
  symmetry. apply orb_true_iff in C1. apply orb_true_iff.
  destruct C1 as [C1|C1].
  - left. apply Z.ltb_lt in C1. apply Z.ltb_lt. lia.
  - apply andb_true_iff in C1. destruct C1 as (C1 & C2). apply Z.eqb_eq in C1.
    destruct (Z.eq_dec r2 half) as [E2|E2].
    + right. apply andb_true_iff. split; [now apply Z.eqb_eq|].
      apply orb_true_iff in C2. apply orb_true_iff.
      destruct C2 as [C2|C2]; [left|now right].
      destruct Hle as [Hlt|(_ & Hst)]; [lia | now apply Hst].
    + left. apply Z.ltb_lt. lia.
Qed.

(** Rounding to single precision is monotone. *)
Lemma RNU_mono (U1 U2 : Z) (st1 st2 : bool) :
  0 <= U1 ->
  U1 < U2 \/ (U1 = U2 /\ (st1 = true -> st2 = true)) ->
  RNU U1 st1 <= RNU U2 st2.
Proof.
  intros HU1 Hle. assert (HU : 0 <= U1 <= U2) by lia.
  pose proof (kof_mono U1 U2 HU) as Hk.
  pose proof (kof_pos sg_big U1) as Hk1.
  unfold RNU.
  destruct (Z.eq_dec (kof U1) (kof U2)) as [E|E].
  - rewrite <- E. apply Z.mul_le_mono_nonneg_r; [apply Z.lt_le_incl, pow2_pos; lia|].
    now apply rnd_mono.
  - destruct (quotient_bounds sg_big U1 HU1) as (Hq1 & _ & _).
    destruct (quotient_bounds sg_big U2 ltac:(lia)) as (Hq2 & Hn2 & _).
    specialize (Hn2 ltac:(unfold kof in *; lia)).
    pose proof (rnd_bounds U1 st1 (kof U1)) as B1.
    pose proof (rnd_bounds U2 st2 (kof U2)) as B2.
    set (k1 := kof U1) in *. set (k2 := kof U2) in *.
    assert (Hp1 : 0 < 2 ^ k1) by (apply pow2_pos; lia).
    assert (Hp2 : 0 < 2 ^ k2) by (apply pow2_pos; lia).
    apply Z.le_trans with (2 ^ 24 * 2 ^ k1).
    + apply Z.mul_le_mono_nonneg_r; lia.
    + apply Z.le_trans with (2 ^ 23 * 2 ^ k2).
      * rewrite <- !pow2_split by lia. apply pow2_le. lia.
      * apply Z.mul_le_mono_nonneg_r; lia.
Qed.

Lemma uval_finite (m : positive) (e : Z) :
  uval (S754_finite false m e) = Zpos m * 2 ^ (e + sg).
Proof. reflexivity. Qed.

(** A regular finite value is on the grid: rounding leaves it as it is. *)
Lemma RNU_fixed (m : positive) (e : Z) :
  bounded 24 128 m e = true ->
  RNU (Zpos m * 2 ^ (e + sg)) false = Zpos m * 2 ^ (e + sg) /\
  Zpos m * 2 ^ (e + sg) < 2 ^ (128 + sg).
Proof.
  intros Hb. apply bounded_spec in Hb. destruct Hb as (Hc & He).
  assert (He0 : 0 <= e + sg) by lia.
  assert (Hp : 0 < 2 ^ (e + sg)) by (apply pow2_pos; lia).
  assert (Hk : kof (Zpos m * 2 ^ (e + sg)) = e + sg).
  { unfold kof. rewrite Zdigits2_shift by lia.
    change (Zdigits2 (Zpos m)) with (Zpos (digits2_pos m)). lia. }
  split.
  - unfold RNU. rewrite Hk. f_equal.
    unfold rnd. rewrite Z.div_mul, Z.mod_mul by lia.
    assert (0 < 2 ^ (e + sg - 1)) by (apply pow2_pos; lia).
    replace (2 ^ (e + sg - 1) <? 0) with false by (symmetry; apply Z.ltb_ge; lia).
    replace (0 =? 2 ^ (e + sg - 1)) with false by (symmetry; apply Z.eqb_neq; lia).
    reflexivity.
  - pose proof (Zdigits2_bounds (Zpos m) ltac:(lia)) as [_ B].
    change (Zdigits2 (Zpos m)) with (Zpos (digits2_pos m)) in B.
    assert (Hd : Zpos (digits2_pos m) <= 24) by lia.
    assert (2 ^ Zpos (digits2_pos m) <= 2 ^ 24) by (apply pow2_le; lia).
    apply Z.lt_le_trans with (2 ^ 24 * 2 ^ (e + sg)).
    + apply Z.mul_lt_mono_pos_r; lia.
    + rewrite <- pow2_split by lia. apply pow2_le. lia.
Qed.

Lemma RNU_zero : RNU 0 false = 0.
Proof.
  unfold RNU, rnd. rewrite Z.div_0_l, Z.mod_0_l by (apply Z.pow_nonzero; unfold kof; lia).
  assert (0 < 2 ^ (kof 0 - 1)) by (apply pow2_pos; unfold kof; cbn [Zdigits2]; lia).
  replace (2 ^ (kof 0 - 1) <? 0) with false by (symmetry; apply Z.ltb_ge; lia).
  replace (0 =? 2 ^ (kof 0 - 1)) with false by (symmetry; apply Z.eqb_neq; lia).
  reflexivity.
Qed.

End Scale2.

Lemma iter_xO (m d : positive) : Zpos (Pos.iter xO m d) = Zpos m * 2 ^ Zpos d.
Proof.
  induction d as [|d IH] using Pos.peano_ind.
  - cbn. lia.
  - rewrite Pos.iter_succ, Pos2Z.inj_xO, IH, Pos2Z.inj_succ, Z.pow_succ_r by lia. lia.
Qed.

Section Scale3.

Hypothesis sg_big : 300 <= sg.

Lemma shl_align_spec (m : positive) (e e' : Z) :
  0 <= Z.min e e' + sg ->
  let r := shl_align m e e' in
  snd r = Z.min e e' /\
  Zpos (fst r) * 2 ^ (snd r + sg) = Zpos m * 2 ^ (e + sg) /\
  Zpos (digits2_pos (fst r)) + snd r = Zpos (digits2_pos m) + e.
Proof.
  intros H. unfold shl_align.
  destruct (e' - e) as [|d|d] eqn:E; cbn [fst snd].
  - split; [lia|]. split; reflexivity.
  - split; [lia|]. split; reflexivity.
  - assert (He : e = e' + Zpos d) by lia.
    split; [lia|].
    rewrite iter_xO.
    split.
    + rewrite He. replace (e' + Zpos d + sg) with (Zpos d + (e' + sg)) by lia.
      rewrite (pow2_split (Zpos d) (e' + sg)) by lia. ring.
    + change (Zpos (digits2_pos (Pos.iter xO m d))) with (Zdigits2 (Zpos (Pos.iter xO m d))).
      rewrite iter_xO, Zdigits2_shift by lia.
      change (Zdigits2 (Zpos m)) with (Zpos (digits2_pos m)). lia.
Qed.

Lemma RN32_mono (U1 U2 : Z) (st1 st2 : bool) :
  0 <= U1 ->
  U1 < U2 \/ (U1 = U2 /\ (st1 = true -> st2 = true)) ->
  RN32 U1 st1 <= RN32 U2 st2.
Proof.
  intros H1 H2. unfold RN32.
  pose proof (RNU_mono sg_big U1 U2 st1 st2 H1 H2). lia.
Qed.

Lemma binary_round_spec (m : positive) (e : Z) :
  1 <= e + sg ->
  let F := binary_round 24 128 false m e in
  regular32 F /\ uval F = RN32 (Zpos m * 2 ^ (e + sg)) false.
Proof.
  intros He F. subst F. unfold binary_round.
  set (e' := fexp 24 128 (Zpos (digits2_pos m) + e)).
  assert (He' : -149 <= e') by (subst e'; rewrite fexp_eq; lia).
  destruct (shl_align_spec m e e') as (S1 & S2 & S3); [lia|].
  destruct (shl_align m e e') as [mz ez]. cbn [fst snd] in S1, S2, S3.
  rewrite <- S2. unfold RN32.
  apply (binary_round_aux_spec sg_big).
  - apply Z.mul_nonneg_nonneg; [lia|]. apply Z.lt_le_incl, pow2_pos. lia.
  - lia.
  - apply rep_exact; lia.
  - change (Zdigits2 (Zpos mz)) with (Zpos (digits2_pos mz)). rewrite S3. fold e'. lia.
Qed.

(** ** Addition *)

Lemma bounded_exponent (m : positive) (e : Z) :
  bounded 24 128 m e = true -> -149 <= e <= 104.
Proof. intros H. apply bounded_spec in H. lia. Qed.

Lemma uval_regular_bound (x : spec_float) :
  regular32 x -> 0 <= uval x <= 2 ^ (128 + sg).
Proof.
  assert (0 < 2 ^ (128 + sg)) by (apply pow2_pos; lia).
  destruct x as [s|[]| |[] m e]; cbn [regular32 uval]; try tauto; try lia.
  intros Hb. destruct (RNU_fixed sg_big m e Hb) as (_ & Hlt).
  pose proof (bounded_exponent m e Hb).
  assert (0 < 2 ^ (e + sg)) by (apply pow2_pos; lia). nia.
Qed.

Lemma SFadd_finite_spec (mx my : positive) (ex ey : Z) :
  bounded 24 128 mx ex = true -> bounded 24 128 my ey = true ->
  let F := SFadd 24 128 (S754_finite false mx ex) (S754_finite false my ey) in
  regular32 F /\
  uval F = RN32 (Zpos mx * 2 ^ (ex + sg) + Zpos my * 2 ^ (ey + sg)) false.
Proof.
  intros Hx Hy F. subst F.
  pose proof (bounded_exponent mx ex Hx) as Bx.
  pose proof (bounded_exponent my ey Hy) as By.
  cbn [SFadd cond_Zopp].
  set (ez := Z.min ex ey).
  destruct (shl_align_spec mx ex ez) as (X1 & X2 & _); [lia|].
  destruct (shl_align_spec my ey ez) as (Y1 & Y2 & _); [lia|].
  replace (Z.min ex ez) with ez in X1 by lia.
  replace (Z.min ey ez) with ez in Y1 by lia.
  rewrite X1 in X2. rewrite Y1 in Y2.
  rewrite <- X2, <- Y2, <- Z.mul_add_distr_r.
  cbn [Z.add binary_normalize].
  apply binary_round_spec. lia.
Qed.

(** Adding a regular value does not decrease a regular value. *)
Lemma SFadd_regular (a d : spec_float) :
  regular32 a -> regular32 d ->
  regular32 (SFadd 24 128 a d) /\ uval a <= uval (SFadd 24 128 a d).
Proof.
  intros Ha Hd.
  pose proof (uval_regular_bound a Ha) as Ba.
  pose proof (uval_regular_bound d Hd) as Bd.
  destruct a as [sa|[]| |[] ma ea]; cbn [regular32] in Ha; try tauto;
    destruct d as [sd|[]| |[] md ed]; cbn [regular32] in Hd; try tauto.
  all: try (split; [destruct sa; try destruct sd; exact I || exact Hd | cbn [uval] in *; try destruct sa; try destruct sd; cbn [SFadd uval]; lia]).
  all: try (split; [exact I || exact Ha || exact Hd | cbn [SFadd uval] in *; lia]).
  destruct (SFadd_finite_spec ma md ea ed Ha Hd) as (R & V).
  split; [exact R|]. rewrite V. cbn [uval].
  destruct (RNU_fixed sg_big ma ea Ha) as (Hfix & Hlt).
  unfold RN32.
  assert (RNU (Zpos ma * 2 ^ (ea + sg)) false <=
          RNU (Zpos ma * 2 ^ (ea + sg) + Zpos md * 2 ^ (ed + sg)) false).
  { cbn [uval] in Ba, Bd. apply (RNU_mono sg_big); [lia|].
    pose proof (bounded_exponent md ed Hd).
    assert (0 < 2 ^ (ed + sg)) by (apply pow2_pos; lia).
    left. nia. }
  lia.
Qed.

End Scale3.

Section Scale4.

Hypothesis sg_big : 300 <= sg.

Lemma RNU_big (U : Z) (st : bool) :
  2 ^ (128 + sg) <= U -> 2 ^ (128 + sg) <= RNU U st.
Proof.
  intros H.
  assert (Hp : 0 < 2 ^ (128 + sg)) by (apply pow2_pos; lia).
  pose proof (Zdigits2_ge_pow U (128 + sg) ltac:(lia) H) as Hd.
  destruct (quotient_bounds sg_big U ltac:(lia)) as (_ & Hn & _).
  specialize (Hn ltac:(unfold kof; lia)).
  pose proof (rnd_bounds U st (kof U)) as B.
  unfold RNU.
  assert (Hk : 105 + sg <= kof U) by (unfold kof; lia).
  assert (Hpk : 0 < 2 ^ kof U) by (apply pow2_pos; lia).
  apply Z.le_trans with (2 ^ 23 * 2 ^ kof U).
  - rewrite <- pow2_split by lia. apply pow2_le. lia.
  - apply Z.mul_le_mono_nonneg_r; lia.
Qed.

Lemma RN32_zero : RN32 0 false = 0.
Proof.
  unfold RN32. rewrite (RNU_zero sg_big).
  assert (0 < 2 ^ (128 + sg)) by (apply pow2_pos; lia). lia.
Qed.

Lemma RN32_big (U : Z) (st : bool) :
  2 ^ (128 + sg) <= U -> RN32 U st = 2 ^ (128 + sg).
Proof. intros H. unfold RN32. pose proof (RNU_big U st H). lia. Qed.

(** ** Scaling by [PCM_VOLUME_1] *)

Lemma SFmul_1024_spec (x : spec_float) :
  regular32 x ->
  let F := SFmul 24 128 x (S754_finite false 8388608 (-13)) in
  regular32 F /\ uval F = RN32 (uval x * 1024) false.
Proof.
  intros Hx F. subst F.
  destruct x as [s|[]| |[] m e]; cbn [regular32] in Hx; try contradiction.
  - cbn [SFmul]. split; [exact I|]. cbn [uval].
    change (0 * 1024) with 0. now rewrite RN32_zero.
  - cbn [SFmul xorb]. split; [exact I|]. cbn [uval].
    rewrite RN32_big; [reflexivity|].
    assert (0 < 2 ^ (128 + sg)) by (apply pow2_pos; lia). lia.
  - pose proof (bounded_exponent m e Hx) as Be.
    cbn [SFmul xorb uval].
    assert (HU : Zpos m * 2 ^ (e + sg) * 1024 =
                 Zpos (m * 8388608) * 2 ^ (e + -13 + sg)).
    { rewrite Pos2Z.inj_mul.
      replace (e + sg) with (13 + (e + -13 + sg)) by lia.
      rewrite (pow2_split 13 (e + -13 + sg)) by lia.
      change (2 ^ 13) with 8192. change (Zpos 8388608) with (1024 * 8192). ring. }
    rewrite HU. unfold RN32.
    apply (binary_round_aux_spec sg_big).
    + apply Z.mul_nonneg_nonneg; [lia|]. apply Z.lt_le_incl, pow2_pos. lia.
    + lia.
    + apply rep_exact; lia.
    + rewrite fexp_eq, Pos2Z.inj_mul.
      change (Zpos 8388608) with (2 ^ 23).
      rewrite Zdigits2_shift by lia.
      pose proof (Zdigits2_pos (Zpos m) ltac:(lia)). lia.
Qed.

Lemma SFmul_1024_mono (x y : spec_float) :
  regular32 x -> regular32 y -> uval x <= uval y ->
  uval (SFmul 24 128 x (S754_finite false 8388608 (-13))) <=
  uval (SFmul 24 128 y (S754_finite false 8388608 (-13))).
Proof.
  intros Hx Hy Hle.
  destruct (SFmul_1024_spec x Hx) as (_ & ->).
  destruct (SFmul_1024_spec y Hy) as (_ & ->).
  pose proof (uval_regular_bound sg_big x Hx).
  apply (RN32_mono sg_big); [lia|].
  destruct (Z.eq_dec (uval x) (uval y)) as [E|E]; [right; split; [lia|auto] | left; lia].
Qed.

End Scale4.

(** The quotient of [A] by [m], located on a scale [2 ^ k] times finer. *)
Lemma quotient_located (A m k : Z) :
  0 <= A -> 0 < m -> 1 <= k ->
  rep (A * 2 ^ k / m) (negb ((A * 2 ^ k) mod m =? 0)) k
      (shr_record_of_loc (A / m) (new_location m (A mod m))).
Proof.
  intros HA Hm Hk.
  assert (Hp : 0 < 2 ^ k) by (apply Z.pow_pos_nonneg; lia).
  assert (Hp' : 0 < 2 ^ (k - 1)) by (apply Z.pow_pos_nonneg; lia).
  assert (E2 : 2 ^ k = 2 * 2 ^ (k - 1)).
  { replace k with (1 + (k - 1)) at 1 by lia. rewrite Z.pow_add_r by lia. reflexivity. }
  set (q := A / m). set (r := A mod m).
  pose proof (Z.div_mod A m ltac:(lia)) as DA. fold q r in DA.
  pose proof (Z.mod_pos_bound A m Hm) as Br. fold r in Br.
  set (T := r * 2 ^ k / m). set (rho := (r * 2 ^ k) mod m).
  pose proof (Z.div_mod (r * 2 ^ k) m ltac:(lia)) as DT. fold T rho in DT.
  pose proof (Z.mod_pos_bound (r * 2 ^ k) m Hm) as Brho. fold rho in Brho.
  assert (HT0 : 0 <= T) by (subst T; apply Z.div_pos; nia).
  assert (HTlt : T < 2 ^ k) by (subst T; apply Z.div_lt_upper_bound; nia).
  assert (HQ : A * 2 ^ k / m = q * 2 ^ k + T).
  { rewrite DA. replace ((m * q + r) * 2 ^ k) with (q * 2 ^ k * m + r * 2 ^ k) by ring.
    rewrite Z.div_add_l by lia. reflexivity. }
  assert (Hrho : (A * 2 ^ k) mod m = rho).
  { rewrite DA. replace ((m * q + r) * 2 ^ k) with (r * 2 ^ k + q * 2 ^ k * m) by ring.
    rewrite Z.mod_add by lia. reflexivity. }
  assert (HQdiv : (q * 2 ^ k + T) / 2 ^ k = q).
  { rewrite Z.add_comm, Z.div_add by lia. rewrite Z.div_small by lia. lia. }
  assert (HQmod : (q * 2 ^ k + T) mod 2 ^ k = T).
  { rewrite Z.add_comm, Z.mod_add by lia. apply Z.mod_small. lia. }
  assert (HTmod : (q * 2 ^ k + T) mod 2 ^ (k - 1) = T mod 2 ^ (k - 1)).
  { rewrite E2. replace (q * (2 * 2 ^ (k - 1)) + T) with (T + q * 2 * 2 ^ (k - 1)) by ring.
    apply Z.mod_add. lia. }
  rewrite HQ, Hrho.
  (* the round bit *)
  assert (Hround : (2 ^ (k - 1) <=? T) = (m <=? 2 * r)).
  { destruct (m <=? 2 * r) eqn:C; [apply Z.leb_le in C; apply Z.leb_le
                                  | apply Z.leb_gt in C; apply Z.leb_gt]; nia. }
  (* the sticky bit *)
  assert (Hsticky : negb (rho =? 0) || negb (T mod 2 ^ (k - 1) =? 0) =
                    negb ((r =? 0) || (2 * r =? m))).
  { pose proof (Z.div_mod T (2 ^ (k - 1)) ltac:(lia)) as DM.
    pose proof (Z.mod_pos_bound T (2 ^ (k - 1)) Hp') as BM.
    set (c := T / 2 ^ (k - 1)) in *. set (t := T mod 2 ^ (k - 1)) in *.
    assert (Hc : 0 <= c <= 1) by nia.
    destruct (Z.eq_dec r 0) as [R0|R0].
    - assert (T = 0) by (subst T; rewrite R0; reflexivity).
      assert (rho = 0) by (subst rho; rewrite R0; reflexivity).
      assert (t = 0) by lia.
      replace (r =? 0) with true by (symmetry; apply Z.eqb_eq; lia).
      replace (rho =? 0) with true by (symmetry; apply Z.eqb_eq; lia).
      replace (t =? 0) with true by (symmetry; apply Z.eqb_eq; lia).
      reflexivity.
    - replace (r =? 0) with false by (symmetry; apply Z.eqb_neq; lia).
      destruct (Z.eq_dec (2 * r) m) as [R1|R1].
      + assert (T = 2 ^ (k - 1) /\ rho = 0) as (HT & Hr0) by nia.
        assert (t = 0) by (subst t; rewrite HT; apply Z.mod_same; lia).
        replace (2 * r =? m) with true by (symmetry; apply Z.eqb_eq; lia).
        replace (rho =? 0) with true by (symmetry; apply Z.eqb_eq; lia).
        replace (t =? 0) with true by (symmetry; apply Z.eqb_eq; lia).
        reflexivity.
      + replace (2 * r =? m) with false by (symmetry; apply Z.eqb_neq; lia).
        cbn. apply orb_true_iff.
        destruct (Z.eq_dec rho 0) as [Hr0|Hr0];
          [|left; apply negb_true_iff, Z.eqb_neq; exact Hr0].
        right. apply negb_true_iff, Z.eqb_neq. intros Ht.
        assert (c = 0 \/ c = 1) as [C0|C1] by lia; nia. }
  unfold rep. rewrite shr_m_of_loc, HQdiv, HQmod, HTmod, Hround, Hsticky.
  split; [exact Hk|]. split; [reflexivity|].
  assert (Hloc : new_location m r =
                 if r =? 0 then loc_Exact
                 else if 2 * r =? m then loc_Inexact Eq
                 else if m <=? 2 * r then loc_Inexact Gt else loc_Inexact Lt).
  { unfold new_location, new_location_even, new_location_odd.
    destruct (IntDef.Z.even m) eqn:Ev; cbv beta;
      (destruct (r =? 0); [reflexivity|]).
    - destruct (Z.compare_spec (2 * r) m) as [C|C|C].
      + rewrite C, Z.eqb_refl. reflexivity.
      + replace (2 * r =? m) with false by (symmetry; apply Z.eqb_neq; lia).
        replace (m <=? 2 * r) with false by (symmetry; apply Z.leb_gt; lia).
        reflexivity.
      + replace (2 * r =? m) with false by (symmetry; apply Z.eqb_neq; lia).
        replace (m <=? 2 * r) with true by (symmetry; apply Z.leb_le; lia).
        reflexivity.
    - change (IntDef.Z.even m) with (Z.even m) in Ev.
      assert (Hodd : 2 * r <> m).
      { intros Heq. rewrite <- Heq, Z.even_mul in Ev. discriminate. }
      replace (2 * r =? m) with false by (symmetry; apply Z.eqb_neq; lia).
      destruct (Z.compare_spec (2 * r + 1) m) as [C|C|C].
      + replace (m <=? 2 * r) with false by (symmetry; apply Z.leb_gt; lia). reflexivity.
      + replace (m <=? 2 * r) with false by (symmetry; apply Z.leb_gt; lia). reflexivity.
      + replace (m <=? 2 * r) with true by (symmetry; apply Z.leb_le; lia). reflexivity. }
  rewrite Hloc.
  destruct (r =? 0) eqn:R0.
  - apply Z.eqb_eq in R0.
    replace (m <=? 2 * r) with false by (symmetry; apply Z.leb_gt; lia).
    split; reflexivity.
  - destruct (2 * r =? m) eqn:R1.
    + apply Z.eqb_eq in R1.
      replace (m <=? 2 * r) with true by (symmetry; apply Z.leb_le; lia).
      split; reflexivity.
    + destruct (m <=? 2 * r); split; reflexivity.
Qed.

Section Scale5.

Hypothesis sg_big : 300 <= sg.

Lemma fexp_mono (a b : Z) : a <= b -> fexp 24 128 a <= fexp 24 128 b.
Proof. rewrite !fexp_eq. lia. Qed.

(** ** Division *)

Lemma SFdiv_finite_spec (mx my : positive) (ex ey : Z) :
  bounded 24 128 mx ex = true -> bounded 24 128 my ey = true ->
  let Ux := Zpos mx * 2 ^ (ex + sg) in
  let Uy := Zpos my * 2 ^ (ey + sg) in
  let F := SFdiv 24 128 (S754_finite false mx ex) (S754_finite false my ey) in
  regular32 F /\
  uval F = RN32 (Ux * 2 ^ sg / Uy) (negb ((Ux * 2 ^ sg) mod Uy =? 0)).
Proof.
  intros Hx Hy Ux Uy F. subst F.
  pose proof (bounded_exponent mx ex Hx) as Bx.
  pose proof (bounded_exponent my ey Hy) as By.
  cbn [SFdiv xorb]. unfold SFdiv_core_binary.
  set (d1 := Zdigits2 (Zpos mx)). set (d2 := Zdigits2 (Zpos my)).
  set (e' := Z.min (fexp 24 128 (d1 + ex - (d2 + ey))) (ex - ey)).
  set (s := ex - ey - e').
  assert (Hs : 0 <= s) by (subst s e'; lia).
  assert (He' : -253 <= e') by (subst e'; rewrite fexp_eq; lia).
  set (m' := match s with 0 => Zpos mx | Zpos _ => Z.shiftl (Zpos mx) s | Zneg _ => 0 end).
  assert (Hm' : m' = Zpos mx * 2 ^ s).
  { subst m'. destruct s as [|p|p] eqn:Es.
    - cbn. lia.
    - apply Z.shiftl_mul_pow2. lia.
    - lia. }
  destruct (Z.div_eucl m' (Zpos my)) as [q r] eqn:Ediv.
  assert (Hq : q = m' / Zpos my) by (unfold Z.div; now rewrite Ediv).
  assert (Hr : r = m' mod Zpos my) by (unfold Z.modulo; now rewrite Ediv).
  set (k := e' + sg).
  assert (Hk : 1 <= k) by (subst k; lia).
  assert (Hpk : 0 < 2 ^ k) by (apply pow2_pos; lia).
  assert (Hps : 0 < 2 ^ s) by (apply pow2_pos; lia).
  assert (Hpy : 0 < 2 ^ (ey + sg)) by (apply pow2_pos; lia).
  (* the located quotient *)
  assert (HUx : Ux * 2 ^ sg = m' * 2 ^ k * 2 ^ (ey + sg)).
  { subst Ux. rewrite Hm'.
    replace (Zpos mx * 2 ^ (ex + sg) * 2 ^ sg)
      with (Zpos mx * (2 ^ (ex + sg) * 2 ^ sg)) by ring.
    replace (Zpos mx * 2 ^ s * 2 ^ k * 2 ^ (ey + sg))
      with (Zpos mx * (2 ^ s * 2 ^ k * 2 ^ (ey + sg))) by ring.
    rewrite <- (pow2_split (ex + sg) sg) by lia.
    rewrite <- (pow2_split s k) by lia.
    rewrite <- (pow2_split (s + k) (ey + sg)) by lia.
    do 2 f_equal. subst s k. lia. }
  assert (HQ : Ux * 2 ^ sg / Uy = m' * 2 ^ k / Zpos my).
  { rewrite HUx. subst Uy. apply Z.div_mul_cancel_r; lia. }
  assert (Hst : ((Ux * 2 ^ sg) mod Uy =? 0) = ((m' * 2 ^ k) mod Zpos my =? 0)).
  { rewrite HUx. subst Uy. rewrite Z.mul_mod_distr_r by lia.
    pose proof (Z.mod_pos_bound (m' * 2 ^ k) (Zpos my) ltac:(lia)).
    destruct ((m' * 2 ^ k) mod Zpos my =? 0) eqn:E0.
    - apply Z.eqb_eq in E0. rewrite E0. reflexivity.
    - apply Z.eqb_neq in E0. apply Z.eqb_neq. nia. }
  rewrite HQ, Hst. unfold RN32.
  assert (Hm'0 : 0 <= m') by (rewrite Hm'; nia).
  apply (binary_round_aux_spec sg_big).
  - apply Z.div_pos; [nia | lia].
  - rewrite Hq. apply Z.div_pos; lia.
  - rewrite Hq, Hr. fold k. apply quotient_located; lia.
  - apply Z.le_trans with (fexp 24 128 (d1 + ex - (d2 + ey))); [subst e'; lia|].
    apply fexp_mono.
    assert (Hdig : d1 + s - d2 <= Zdigits2 q).
    { pose proof (Zdigits2_nonneg q).
      destruct (Z.le_gt_cases 0 (d1 - 1 + s - d2)) as [Hj|Hj]; [|lia].
      pose proof (Zdigits2_bounds (Zpos mx) ltac:(lia)) as [B1 _].
      pose proof (Zdigits2_bounds (Zpos my) ltac:(lia)) as [_ B2].
      pose proof (Zdigits2_pos (Zpos mx) ltac:(lia)).
      pose proof (Zdigits2_pos (Zpos my) ltac:(lia)).
      fold d1 in B1, H0. fold d2 in B2, H1.
      assert (Hje : 2 ^ (d1 - 1 + s - d2) <= q).
      { rewrite Hq. apply Z.div_le_lower_bound; [lia|].
        rewrite Hm'.
        assert (Hpj : 0 < 2 ^ (d1 - 1 + s - d2)) by (apply pow2_pos; lia).
        apply Z.le_trans with (2 ^ d2 * 2 ^ (d1 - 1 + s - d2)).
        - apply Z.mul_le_mono_nonneg_r; lia.
        - rewrite <- pow2_split by lia.
          replace (d2 + (d1 - 1 + s - d2)) with (d1 - 1 + s) by lia.
          rewrite pow2_split by lia.
          apply Z.mul_le_mono_nonneg_r; lia. }
      pose proof (Zdigits2_ge_pow q (d1 - 1 + s - d2) Hj Hje). lia. }
    subst s. lia.
Qed.

(** Dividing by a regular finite value other than zero is monotone. *)
Lemma SFdiv_mono (x y : spec_float) (mr : positive) (er : Z) :
  regular32 x -> regular32 y -> bounded 24 128 mr er = true ->
  uval x <= uval y ->
  let r := S754_finite false mr er in
  regular32 (SFdiv 24 128 x r) /\ regular32 (SFdiv 24 128 y r) /\
  uval (SFdiv 24 128 x r) <= uval (SFdiv 24 128 y r).
Proof.
  intros Hx Hy Hr Hle r. subst r.
  pose proof (uval_regular_bound sg_big x Hx) as Bx.
  pose proof (uval_regular_bound sg_big y Hy) as By.
  pose proof (bounded_exponent mr er Hr) as Br.
  assert (Hpr : 0 < 2 ^ (er + sg)) by (apply pow2_pos; lia).
  assert (Hps : 0 < 2 ^ sg) by (apply pow2_pos; lia).
  assert (HINF : 0 < 2 ^ (128 + sg)) by (apply pow2_pos; lia).
  assert (Hres : forall z, regular32 z ->
            regular32 (SFdiv 24 128 z (S754_finite false mr er)) /\
            uval (SFdiv 24 128 z (S754_finite false mr er)) <= 2 ^ (128 + sg)).
  { intros z Hz. destruct z as [sz|[]| |[] mz ez]; cbn [regular32] in Hz; try contradiction.
    - cbn [SFdiv]. split; [exact I|]. cbn [uval]. lia.
    - cbn [SFdiv xorb]. split; [exact I|]. cbn [uval]. lia.
    - destruct (SFdiv_finite_spec mz mr ez er Hz Hr) as (R & V).
      split; [exact R|]. rewrite V. unfold RN32. lia. }
  destruct (Hres x Hx) as (Rx & Vx). destruct (Hres y Hy) as (Ry & Vy).
  split; [exact Rx|]. split; [exact Ry|].
  destruct y as [sy|[]| |[] my ey]; cbn [regular32] in Hy; try contradiction.
  - (* y is zero: so is x *)
    cbn [uval] in Hle.
    destruct x as [sx|[]| |[] mx ex]; cbn [regular32] in Hx; try contradiction;
      cbn [uval] in Hle.
    + cbn [SFdiv uval]. lia.
    + pose proof (bounded_exponent mx ex Hx).
      assert (0 < 2 ^ (ex + sg)) by (apply pow2_pos; lia). nia.
  - (* y is infinite *)
    cbn [SFdiv xorb uval]. exact Vx.
  - destruct x as [sx|[]| |[] mx ex]; cbn [regular32] in Hx; try contradiction.
    + cbn [SFdiv uval].
      destruct (SFdiv_finite_spec my mr ey er Hy Hr) as (_ & V).
      cbn [uval] in By. pose proof (uval_regular_bound sg_big _ Ry). cbn [SFdiv] in H. lia.
    + cbn [uval] in Hle.
      destruct (RNU_fixed sg_big my ey Hy) as (_ & Hlt). lia.
    + destruct (SFdiv_finite_spec mx mr ex er Hx Hr) as (_ & ->).
      destruct (SFdiv_finite_spec my mr ey er Hy Hr) as (_ & ->).
      cbn [uval] in Hle, Bx, By.
      set (Ux := Zpos mx * 2 ^ (ex + sg)) in *.
      set (Uy := Zpos my * 2 ^ (ey + sg)) in *.
      set (Ur := Zpos mr * 2 ^ (er + sg)).
      assert (HUr : 0 < Ur) by (subst Ur; nia).
      apply (RN32_mono sg_big).
      * apply Z.div_pos; [nia | lia].
      * assert (Hmul : Ux * 2 ^ sg <= Uy * 2 ^ sg) by (apply Z.mul_le_mono_nonneg_r; lia).
        pose proof (Z.div_le_mono _ _ Ur HUr Hmul) as Hdiv.
        destruct (Z.eq_dec (Ux * 2 ^ sg / Ur) (Uy * 2 ^ sg / Ur)) as [E|E]; [|left; lia].
        right. split; [exact E|].
        intros Hst. apply negb_true_iff, Z.eqb_neq in Hst.
        apply negb_true_iff, Z.eqb_neq.
        pose proof (Z.div_mod (Ux * 2 ^ sg) Ur ltac:(lia)) as D1.
        pose proof (Z.div_mod (Uy * 2 ^ sg) Ur ltac:(lia)) as D2.
        pose proof (Z.mod_pos_bound (Ux * 2 ^ sg) Ur HUr).
        pose proof (Z.mod_pos_bound (Uy * 2 ^ sg) Ur HUr).
        rewrite <- E in D2. lia.
Qed.

End Scale5.

(** ** The cast to an unsigned integer *)

Lemma trunc_sat_spec (bound : N) (x : spec_float) :
  regular32 x -> Z.of_N bound <= 2 ^ 128 ->
  Z.of_N (Binary32.trunc_sat bound x) = Z.min (Z.of_N bound) (uval x / 2 ^ sg).
Proof.
  intros Hx Hb. pose proof scale_big as Hsg.
  assert (Hps : 0 < 2 ^ sg) by (apply pow2_pos; lia).
  destruct x as [s|[]| |[] m e]; cbn [regular32] in Hx; try contradiction.
  - cbn [Binary32.trunc_sat uval]. rewrite Z.div_0_l by lia. lia.
  - cbn [Binary32.trunc_sat uval].
    rewrite (pow2_split 128 sg), Z.div_mul by lia. lia.
  - pose proof (bounded_exponent m e Hx) as Be.
    cbn [uval]. destruct e as [|p|p]; cbn [Binary32.trunc_sat].
    + rewrite N2Z.inj_min. f_equal.
      rewrite N.shiftl_0_r. cbn [Z.add]. rewrite Z.div_mul by lia. reflexivity.
    + rewrite N2Z.inj_min. f_equal.
      rewrite N.shiftl_mul_pow2, N2Z.inj_mul, N2Z.inj_pow.
      change (Z.of_N (Npos m)) with (Zpos m). change (Z.of_N 2) with 2.
      rewrite Z2N.id by lia.
      rewrite (pow2_split (Zpos p) sg) by lia.
      rewrite Z.mul_assoc, Z.div_mul by lia. reflexivity.
    + rewrite N2Z.inj_min. f_equal.
      rewrite N.shiftr_div_pow2, N2Z.inj_div, N2Z.inj_pow.
      change (Z.of_N (Npos m)) with (Zpos m). change (Z.of_N 2) with 2.
      change (Z.of_N (Npos p)) with (Zpos p).
      assert (Hpp : 0 < 2 ^ Zpos p) by (apply pow2_pos; lia).
      replace sg with (Zpos p + (Zneg p + sg)) at 2 by lia.
      rewrite (pow2_split (Zpos p) (Zneg p + sg)) by lia.
      assert (Hpq : 0 < 2 ^ (Zneg p + sg)) by (apply pow2_pos; lia).
      rewrite Z.div_mul_cancel_r by lia. reflexivity.
Qed.

Lemma trunc_sat_mono (bound : N) (x y : spec_float) :
  regular32 x -> regular32 y -> Z.of_N bound <= 2 ^ 128 ->
  uval x <= uval y ->
  (Binary32.trunc_sat bound x <= Binary32.trunc_sat bound y)%N.
Proof.
  intros Hx Hy Hb Hle. pose proof scale_big as Hsg.
  apply N2Z.inj_le. rewrite !trunc_sat_spec by assumption.
  assert (Hps : 0 < 2 ^ sg) by (apply pow2_pos; lia).
  pose proof (Z.div_le_mono _ _ (2 ^ sg) Hps Hle). lia.
Qed.

(** ** The gain of a rising ramp *)

Section Gains.

Import Binary32.

Lemma ramp_up_volume_ascends (r t d : float32) :
  above_zero32 r -> regular32 t -> regular32 d ->
  regular32 (f_add t d) /\
  (ramp_up_volume r t <= ramp_up_volume r (f_add t d))%N.
Proof.
  intros Hr Ht Hd.
  destruct r as [|[]| |[] mr er]; cbn [above_zero32] in Hr; try contradiction.
  destruct (SFadd_regular scale_big t d Ht Hd) as (Rs & Vs).
  split; [exact Rs|].
  destruct (SFdiv_mono scale_big t (SFadd 24 128 t d) mr er Ht Rs Hr Vs) as (R1 & R2 & V).
  destruct (SFmul_1024_spec scale_big _ R1) as (M1 & _).
  destruct (SFmul_1024_spec scale_big _ R2) as (M2 & _).
  pose proof (SFmul_1024_mono scale_big _ _ R1 R2 V) as VM.
  unfold ramp_up_volume.
  cbn [f_add f_div f_mul f_of_unsigned f_to_unsigned float32_ops PCM_VOLUME_1 pcm pcm8].
  rewrite of_N_1024.
  apply N.min_le_compat_r.
  apply trunc_sat_mono; [exact M1 | exact M2 | | exact VM].
  vm_compute. discriminate.
Qed.

End Gains.

Section Durations.

Import Binary32.

(** The conversion of an unsigned integer is regular, and below infinity
    for an integer of 64 bits. *)
Lemma of_N_spec (n : N) :
  regular32 (of_N n) /\ uval (of_N n) = RN32 (Z.of_N n * 2 ^ sg) false.
Proof.
  pose proof scale_big as Hsg.
  unfold of_N, prec, emax. destruct n as [|p]; cbn [Z.of_N binary_normalize].
  - split; [exact I|]. cbn [uval]. rewrite Z.mul_0_l. symmetry. apply (RN32_zero scale_big).
  - destruct (binary_round_spec scale_big p 0) as (R & V); [lia|].
    split; [exact R|]. rewrite V. reflexivity.
Qed.

Lemma RN32_pow2 (j : Z) :
  0 <= j <= 127 -> RN32 (2 ^ j * 2 ^ sg) false = 2 ^ j * 2 ^ sg.
Proof.
  intros Hj. pose proof scale_big as Hsg.
  assert (Hb : bounded 24 128 8388608 (j - 23) = true).
  { apply bounded_spec. change (Zpos (digits2_pos 8388608)) with 24. lia. }
  destruct (RNU_fixed scale_big 8388608 (j - 23) Hb) as (Hfix & Hlt).
  assert (E : Zpos 8388608 * 2 ^ (j - 23 + sg) = 2 ^ j * 2 ^ sg).
  { change (Zpos 8388608) with (2 ^ 23).
    rewrite <- !pow2_split by lia. f_equal. lia. }
  rewrite E in Hfix, Hlt. unfold RN32. rewrite Hfix. lia.
Qed.

Lemma of_N_finite (n : N) :
  (n < 2 ^ 64)%N -> uval (of_N n) < 2 ^ (128 + sg).
Proof.
  intros Hn. pose proof scale_big as Hsg.
  destruct (of_N_spec n) as (_ & ->).
  assert (Hps : 0 < 2 ^ sg) by (apply pow2_pos; lia).
  assert (Hz : Z.of_N n < 2 ^ 64).
  { change (2 ^ 64) with (Z.of_N (2 ^ 64)). apply N2Z.inj_lt. exact Hn. }
  pose proof (N2Z.is_nonneg n).
  apply Z.le_lt_trans with (RN32 (2 ^ 64 * 2 ^ sg) false).
  - apply (RN32_mono scale_big); [nia|].
    left. apply Z.mul_lt_mono_pos_r; lia.
  - rewrite RN32_pow2 by lia. rewrite <- !pow2_split by lia. apply pow2_lt. lia.
Qed.

Lemma of_N_above (n : N) : (0 < n)%N -> 0 < uval (of_N n).
Proof.
  intros Hn. pose proof scale_big as Hsg.
  destruct (of_N_spec n) as (_ & ->).
  assert (Hps : 0 < 2 ^ sg) by (apply pow2_pos; lia).
  apply Z.lt_le_trans with (RN32 (2 ^ 0 * 2 ^ sg) false).
  - rewrite RN32_pow2 by lia. lia.
  - apply (RN32_mono scale_big); [lia|].
    assert (1 <= Z.of_N n) by lia.
    destruct (Z.eq_dec (Z.of_N n) 1) as [->|]; [right; split; [reflexivity|auto] | left; nia].
Qed.

(** The duration of a block is regular. *)
Lemma SizeToTime_regular (af : AudioFormat sample_format) (size : N) :
  (0 < sample_rate af)%N -> (size / frame_size af < 2 ^ 64)%N ->
  regular32 (SizeToTime af size).
Proof.
  intros Hrate Hsize. pose proof scale_big as Hsg.
  cbn [SizeToTime pcm pcm8 f_div f_of_unsigned float32_ops].
  destruct (of_N_spec (size / frame_size af)) as (Rx & _).
  pose proof (of_N_finite _ Hsize) as Fx.
  destruct (of_N_spec (sample_rate af)) as (Ry & _).
  pose proof (of_N_above _ Hrate) as Py.
  destruct (of_N (sample_rate af)) as [sy|[]| |[] my ey]; cbn [regular32] in Ry;
    try contradiction; cbn [uval] in Py; try lia.
  - (* an infinite rate *)
    destruct (of_N (size / frame_size af)) as [sx|[]| |[] mx ex]; cbn [regular32] in Rx;
      try contradiction; cbn [uval] in Fx; try lia; exact I.
  - destruct (SFdiv_mono scale_big _ _ my ey Rx Rx Ry (Z.le_refl _)) as (R & _). exact R.
Qed.

End Durations.

Lemma binary_round_aux_dead (mx ex : Z) (lx : location) :
  dead32 (binary_round_aux 24 128 true mx ex lx).
Proof.
  unfold binary_round_aux.
  destruct (shr_fexp 24 128 mx ex lx) as [mrs' e'].
  destruct (shr_fexp 24 128 _ e' loc_Exact) as [mrs'' e''].
  destruct (shr_m mrs''); [exact I | | exact I].
  destruct (e'' <=? 128 - 24); exact I.
Qed.

Lemma SFmul_1024_dead (x : spec_float) :
  dead32 x -> dead32 (SFmul 24 128 x (S754_finite false 8388608 (-13))).
Proof.
  destruct x as [s|[]| |[] m e]; cbn [dead32 SFmul xorb]; try tauto.
  intros _. apply binary_round_aux_dead.
Qed.

Lemma trunc_sat_dead (bound : N) (x : spec_float) :
  dead32 x -> Binary32.trunc_sat bound x = 0%N.
Proof.
  destruct x as [s|[]| |[] m e]; cbn [dead32 Binary32.trunc_sat]; tauto.
Qed.

Section Falling.

Import Binary32.

Lemma uval_one : uval f_one = 2 ^ sg.
Proof.
  pose proof scale_big. cbn [f_one float32_ops uval].
  change (Zpos 8388608) with (2 ^ 23).
  rewrite <- pow2_split by lia. f_equal; lia.
Qed.

Lemma one_bounded : bounded 24 128 8388608 (-23) = true.
Proof. reflexivity. Qed.

(** One minus a regular value. *)
Lemma SFsub_one_spec (y : float32) :
  regular32 y ->
  (uval y < 2 ^ sg ->
   regular32 (f_sub f_one y) /\ uval (f_sub f_one y) = RN32 (2 ^ sg - uval y) false) /\
  (2 ^ sg <= uval y -> dead32 (f_sub f_one y)).
Proof.
  intros Hy. pose proof scale_big as Hsg. pose proof uval_one as H1.
  assert (Hps : 0 < 2 ^ sg) by (apply pow2_pos; lia).
  destruct (RNU_fixed scale_big 8388608 (-23) one_bounded) as (Hfix & Hlt).
  cbn [f_one float32_ops uval] in H1. rewrite H1 in Hfix, Hlt.
  destruct y as [s|[]| |[] m e]; cbn [regular32] in Hy; try contradiction;
    cbn [f_sub f_one float32_ops SFsub negb uval].
  - split; [|lia]. intros _. split; [reflexivity|].
    rewrite H1, Z.sub_0_r. unfold RN32. lia.
  - split; [|intros _; exact I].
    assert (2 ^ sg < 2 ^ (128 + sg)) by (apply pow2_lt; lia). lia.
  - pose proof (bounded_exponent m e Hy) as Be.
    cbn [cond_Zopp]. unfold prec, emax.
    set (ez := Z.min (-23) e).
    destruct (shl_align_spec 8388608 (-23) ez) as (X1 & X2 & _); [lia|].
    destruct (shl_align_spec m e ez) as (Y1 & Y2 & _); [lia|].
    replace (Z.min (-23) ez) with ez in X1 by lia.
    replace (Z.min e ez) with ez in Y1 by lia.
    rewrite X1 in X2. rewrite Y1 in Y2. rewrite H1 in X2.
    set (a := fst (shl_align 8388608 (-23) ez)) in *.
    set (b := fst (shl_align m e ez)) in *.
    assert (Hpz : 0 < 2 ^ (ez + sg)) by (apply pow2_pos; lia).
    assert (Hdiff : (Zpos a - Zpos b) * 2 ^ (ez + sg) = 2 ^ sg - Zpos m * 2 ^ (e + sg))
      by (rewrite Z.mul_sub_distr_r; lia).
    destruct (Zpos a - Zpos b) as [|p|p] eqn:Ed; cbn [binary_normalize].
    + split; [|intros _; exact I]. intros _. split; [exact I|].
      cbn [uval]. rewrite <- Hdiff, Z.mul_0_l. symmetry. apply (RN32_zero scale_big).
    + split; [|intros Hge; nia].
      intros _. rewrite <- Hdiff. apply (binary_round_spec scale_big). lia.
    + split; [intros Hlt'; nia|].
      intros _. unfold binary_round.
      destruct (shl_align p ez _) as [mz ez']. apply binary_round_aux_dead.
Qed.

Lemma ramp_down_volume_descends (r t d : float32) :
  above_zero32 r -> regular32 t -> regular32 d ->
  regular32 (f_add t d) /\
  (ramp_down_volume r (f_add t d) <= ramp_down_volume r t)%N.
Proof.
  intros Hr Ht Hd. pose proof scale_big as Hsg.
  destruct r as [|[]| |[] mr er]; cbn [above_zero32] in Hr; try contradiction.
  destruct (SFadd_regular scale_big t d Ht Hd) as (Rs & Vs).
  split; [exact Rs|].
  destruct (SFdiv_mono scale_big t (SFadd 24 128 t d) mr er Ht Rs Hr Vs) as (R1 & R2 & V).
  unfold ramp_down_volume.
  change (f_div ?a ?b) with (SFdiv 24 128 a b).
  change (f_add t d) with (SFadd 24 128 t d).
  set (y1 := SFdiv 24 128 t (S754_finite false mr er)) in *.
  set (y2 := SFdiv 24 128 (SFadd 24 128 t d) (S754_finite false mr er)) in *.
  destruct (SFsub_one_spec y1 R1) as (A1 & _).
  destruct (SFsub_one_spec y2 R2) as (A2 & D2).
  cbn [f_mul f_of_unsigned f_to_unsigned float32_ops PCM_VOLUME_1 pcm pcm8].
  rewrite of_N_1024.
  apply N.min_le_compat_r.
  destruct (Z.lt_ge_cases (uval y2) (2 ^ sg)) as [Hlt|Hge].
  - destruct (A2 Hlt) as (S2 & V2). destruct (A1 ltac:(lia)) as (S1 & V1).
    destruct (SFmul_1024_spec scale_big _ S1) as (M1 & _).
    destruct (SFmul_1024_spec scale_big _ S2) as (M2 & _).
    apply trunc_sat_mono; [exact M2 | exact M1 | vm_compute; discriminate |].
    apply (SFmul_1024_mono scale_big); [exact S2 | exact S1 |].
    rewrite V1, V2.
    pose proof (uval_regular_bound scale_big y1 R1).
    apply (RN32_mono scale_big); [lia|].
    destruct (Z.eq_dec (uval y1) (uval y2)) as [E|E];
      [right; split; [lia | auto] | left; lia].
  - rewrite (trunc_sat_dead _ _ (SFmul_1024_dead _ (D2 Hge))). apply N.le_0_l.
Qed.

End Falling.

(** ** Comparisons *)

Lemma finite32_regular (x : spec_float) : finite32 x -> regular32 x.
Proof. destruct x as [s|s| |s m e]; try destruct s; cbn; auto. Qed.

Lemma finite32_below (x : spec_float) :
  regular32 x -> uval x < 2 ^ (128 + sg) -> finite32 x.
Proof.
  destruct x as [s|s| |s m e]; try destruct s; cbn [regular32 finite32 uval]; auto; lia.
Qed.

Lemma above_zero32_regular (x : spec_float) : above_zero32 x -> regular32 x.
Proof. destruct x as [s|s| |s m e]; try destruct s; cbn; auto. Qed.

Lemma uval_above_zero (x : spec_float) :
  above_zero32 x -> 0 < uval x < 2 ^ (128 + sg).
Proof.
  destruct x as [s|s| |s m e]; try destruct s; cbn [above_zero32]; try tauto.
  intros Hb. cbn [uval].
  destruct (RNU_fixed scale_big m e Hb) as (_ & H). split; [|exact H].
  pose proof (bounded_exponent m e Hb). pose proof scale_big.
  assert (0 < 2 ^ (e + sg)) by (apply pow2_pos; lia). nia.
Qed.

(** The comparison of regular values is the comparison of their values. *)
Lemma SFleb_spec (x y : spec_float) :
  regular32 x -> regular32 y -> SFleb x y = (uval x <=? uval y).
Proof.
  intros Hx Hy. pose proof scale_big as Hsg.
  assert (Hfin : forall m e, bounded 24 128 m e = true ->
            0 < Zpos m * 2 ^ (e + sg) < 2 ^ (128 + sg)).
  { intros m e Hb. apply (uval_above_zero (S754_finite false m e)). exact Hb. }
  assert (Hcap : 0 < 2 ^ (128 + sg)) by (apply pow2_pos; lia).
  destruct x as [sx|sx| |sx mx ex]; try destruct sx; cbn [regular32] in Hx; try tauto;
  destruct y as [sy|sy| |sy my ey]; try destruct sy; cbn [regular32] in Hy; try tauto;
  unfold SFleb; cbn [SFcompare uval];
  try (symmetry; apply Z.leb_le; lia);
  try (specialize (Hfin _ _ Hy); symmetry; apply Z.leb_le; lia);
  try (specialize (Hfin _ _ Hx); symmetry; apply Z.leb_gt; lia);
  try (symmetry; apply Z.leb_gt; lia);
  try (specialize (Hfin _ _ Hy); symmetry; apply Z.leb_gt; lia);
  try (specialize (Hfin _ _ Hx); symmetry; apply Z.leb_le; lia).
  apply bounded_spec in Hx, Hy. destruct Hx as (Ex & Bx), Hy as (Ey & By).
  assert (Dx := Zdigits2_bounds (Zpos mx) eq_refl).
  assert (Dy := Zdigits2_bounds (Zpos my) eq_refl).
  cbn [Zdigits2] in Dx, Dy.
  set (dx := Zpos (digits2_pos mx)) in *. set (dy := Zpos (digits2_pos my)) in *.
  assert (Hdx : 1 <= dx) by (subst dx; lia). assert (Hdy : 1 <= dy) by (subst dy; lia).
  destruct (Z.compare_spec ex ey) as [E|E|E].
  - subst ey. assert (Hp : 0 < 2 ^ (ex + sg)) by (apply pow2_pos; lia).
    rewrite Pos.compare_cont_spec. cbn [Pos.switch_Eq].
    change (Pos.compare mx my) with (Z.compare (Zpos mx) (Zpos my)).
    destruct (Z.compare_spec (Zpos mx) (Zpos my)) as [C|C|C]; symmetry.
    + apply Z.leb_le. rewrite C. lia.
    + apply Z.leb_le. nia.
    + apply Z.leb_gt. nia.
  - symmetry. apply Z.leb_le.
    assert (dy = 24) by lia. assert (dx <= 24) by lia.
    assert (H1 : Zpos mx < 2 ^ 24).
    { eapply Z.lt_le_trans; [apply Dx|]. apply pow2_le. lia. }
    assert (H2 : 2 ^ 23 <= Zpos my) by (replace 23 with (dy - 1) by lia; apply Dy).
    replace (ey + sg) with ((ey - ex) + (ex + sg)) by lia.
    rewrite (pow2_split (ey - ex) (ex + sg)) by lia.
    assert (Hp : 0 < 2 ^ (ex + sg)) by (apply pow2_pos; lia).
    assert (Hq : 2 <= 2 ^ (ey - ex)).
    { change 2 with (2 ^ 1) at 1. apply pow2_le. lia. }
    change (2 ^ 24) with 16777216 in H1. change (2 ^ 23) with 8388608 in H2.
    assert (Hm : Zpos mx <= Zpos my * 2 ^ (ey - ex)) by nia.
    rewrite Z.mul_assoc. apply Z.mul_le_mono_nonneg_r; lia.
  - symmetry. apply Z.leb_gt.
    assert (dx = 24) by lia. assert (dy <= 24) by lia.
    assert (H1 : Zpos my < 2 ^ 24).
    { eapply Z.lt_le_trans; [apply Dy|]. apply pow2_le. lia. }
    assert (H2 : 2 ^ 23 <= Zpos mx) by (replace 23 with (dx - 1) by lia; apply Dx).
    replace (ex + sg) with ((ex - ey) + (ey + sg)) by lia.
    rewrite (pow2_split (ex - ey) (ey + sg)) by lia.
    assert (Hp : 0 < 2 ^ (ey + sg)) by (apply pow2_pos; lia).
    assert (Hq : 2 <= 2 ^ (ex - ey)).
    { change 2 with (2 ^ 1) at 1. apply pow2_le. lia. }
    change (2 ^ 24) with 16777216 in H1. change (2 ^ 23) with 8388608 in H2.
    assert (Hm : Zpos my < Zpos mx * 2 ^ (ex - ey)) by nia.
    rewrite Z.mul_assoc. apply Z.mul_lt_mono_pos_r; lia.
Qed.

(** ** The progress of an accumulator *)

(** The value of a sum of regular values is the rounded sum of their
    values. *)
Lemma SFadd_spec (a d : spec_float) :
  regular32 a -> regular32 d ->
  uval (SFadd 24 128 a d) = RN32 (uval a + uval d) false.
Proof.
  intros Ha Hd. pose proof scale_big as Hsg.
  pose proof (uval_regular_bound scale_big a Ha) as Ba.
  pose proof (uval_regular_bound scale_big d Hd) as Bd.
  assert (Hfix : forall m e, bounded 24 128 m e = true ->
            RN32 (Zpos m * 2 ^ (e + sg)) false = Zpos m * 2 ^ (e + sg)).
  { intros m e Hb. destruct (RNU_fixed scale_big m e Hb) as (H1 & H2).
    unfold RN32. rewrite H1. lia. }
  destruct a as [sa|[]| |[] ma ea]; cbn [regular32] in Ha; try (exfalso; exact Ha);
    destruct d as [sd|[]| |[] md ed]; cbn [regular32] in Hd; try (exfalso; exact Hd).
  - destruct sa, sd; cbn [SFadd uval]; symmetry; apply (RN32_zero scale_big).
  - destruct sa; cbn [SFadd uval]; symmetry; apply (RN32_big scale_big); lia.
  - destruct sa; cbn [SFadd uval]; symmetry; rewrite Z.add_0_l; now apply Hfix.
  - cbn [SFadd uval]. symmetry. apply (RN32_big scale_big). lia.
  - cbn [SFadd uval]. symmetry. apply (RN32_big scale_big). lia.
  - cbn [SFadd uval] in *. symmetry. apply (RN32_big scale_big). lia.
  - cbn [SFadd uval]. symmetry. rewrite Z.add_0_r. now apply Hfix.
  - cbn [SFadd uval] in *. symmetry. apply (RN32_big scale_big). lia.
  - now destruct (SFadd_finite_spec scale_big ma md ea ed Ha Hd) as (_ & V).
Qed.

(** Rounding to nearest loses at most half a step of the grid. *)
Lemma RNU_lower (U : Z) (st : bool) :
  0 <= U -> U - 2 ^ (kof U - 1) <= RNU U st.
Proof.
  intros HU. pose proof scale_big as Hsg.
  pose proof (kof_pos scale_big U) as Hk.
  unfold RNU, rnd. set (k := kof U) in *.
  assert (Hp : 0 < 2 ^ k) by (apply pow2_pos; lia).
  assert (Hh : 0 < 2 ^ (k - 1)) by (apply pow2_pos; lia).
  pose proof (Z.div_mod U (2 ^ k) ltac:(lia)) as Hdm.
  pose proof (Z.mod_pos_bound U (2 ^ k) Hp) as Hm.
  destruct ((2 ^ (k - 1) <? U mod 2 ^ k) ||
            ((U mod 2 ^ k =? 2 ^ (k - 1)) && (st || Z.odd (U / 2 ^ k)))) eqn:E.
  - nia.
  - apply orb_false_iff in E. destruct E as (E & _). apply Z.ltb_ge in E. nia.
Qed.

(** One addition that stays below a finite value [r] gains the addend but
    for half a unit in the last place of [r]. *)
Lemma SFadd_progress (t d : spec_float) (mr : positive) (er : Z) :
  regular32 t -> regular32 d -> bounded 24 128 mr er = true ->
  SFleb (S754_finite false mr er) (SFadd 24 128 t d) = false ->
  uval t + uval d - 2 ^ (er + sg - 1) <= uval (SFadd 24 128 t d) /\
  uval (SFadd 24 128 t d) < uval (S754_finite false mr er).
Proof.
  intros Ht Hd Hr Hlt. pose proof scale_big as Hsg.
  destruct (SFadd_regular scale_big t d Ht Hd) as (Rs & _).
  rewrite SFleb_spec in Hlt by (cbn [regular32]; assumption).
  apply Z.leb_gt in Hlt.
  split; [|exact Hlt].
  rewrite SFadd_spec in * by assumption.
  pose proof (uval_regular_bound scale_big t Ht) as Bt.
  pose proof (uval_regular_bound scale_big d Hd) as Bd.
  cbn [uval] in Hlt.
  set (U := uval t + uval d) in *. set (R := Zpos mr * 2 ^ (er + sg)) in *.
  destruct (RNU_fixed scale_big mr er Hr) as (Hfix & Hcap). fold R in Hfix, Hcap.
  assert (HUR : U < R).
  { destruct (Z.lt_ge_cases U R) as [H|H]; [exact H|].
    exfalso.
    assert (RN32 R false <= RN32 U false).
    { apply (RN32_mono scale_big).
      - pose proof (bounded_exponent mr er Hr).
        assert (0 < 2 ^ (er + sg)) by (apply pow2_pos; lia). subst R. nia.
      - destruct (Z.eq_dec R U); [right; split; [assumption | auto] | left; lia]. }
    unfold RN32 in H0 at 1. rewrite Hfix in H0. lia. }
  assert (HkU : kof U <= er + sg).
  { apply Z.le_trans with (kof R); [apply kof_mono; lia|].
    pose proof (bounded_exponent mr er Hr).
    apply bounded_spec in Hr. destruct Hr as (Er & _).
    unfold kof. subst R.
    rewrite Zdigits2_shift by lia. cbn [Zdigits2]. lia. }
  pose proof (RNU_lower U false ltac:(lia)) as Hlow.
  pose proof (kof_pos scale_big U).
  assert (2 ^ (kof U - 1) <= 2 ^ (er + sg - 1)) by (apply pow2_le; lia).
  unfold RN32. 
  assert (0 < 2 ^ (er + sg - 1)).
  { apply pow2_pos. pose proof (bounded_exponent mr er Hr). lia. }
  lia.
Qed.

(** The two names of the type of floats are told apart by rewriting. *)
Ltac norm32 := unfold Binary32.float32 in *.

Section Accumulator.

Import Binary32.

(** Subtracting from a value above zero a regular value that is not larger
    gives a regular value. *)
Lemma SFsub_regular (r c : spec_float) :
  above_zero32 r -> regular32 c -> uval c <= uval r ->
  regular32 (SFsub 24 128 r c).
Proof.
  intros Hr Hc Hle. pose proof scale_big as Hsg.
  pose proof (uval_above_zero r Hr) as Br.
  destruct r as [|[]| |[] mr er]; cbn [above_zero32] in Hr; try (exfalso; exact Hr).
  destruct c as [s|[]| |[] m e]; cbn [regular32] in Hc; try (exfalso; exact Hc).
  - exact Hr.
  - cbn [uval] in Hle, Br. lia.
  - pose proof (bounded_exponent m e Hc) as Be.
    pose proof (bounded_exponent mr er Hr) as Ber.
    cbn [SFsub cond_Zopp].
    set (ez := Z.min er e).
    destruct (shl_align_spec mr er ez) as (X1 & X2 & _); [lia|].
    destruct (shl_align_spec m e ez) as (Y1 & Y2 & _); [lia|].
    replace (Z.min er ez) with ez in X1 by lia.
    replace (Z.min e ez) with ez in Y1 by lia.
    rewrite X1 in X2. rewrite Y1 in Y2.
    set (a := fst (shl_align mr er ez)) in *.
    set (b := fst (shl_align m e ez)) in *.
    assert (Hpz : 0 < 2 ^ (ez + sg)) by (apply pow2_pos; lia).
    cbn [uval] in Hle.
    destruct (Zpos a - Zpos b) as [|p|p] eqn:Ed; cbn [binary_normalize].
    + exact I.
    + apply (binary_round_spec scale_big). lia.
    + exfalso. nia.
Qed.

Lemma f_ge_spec (x y : float32) :
  regular32 x -> regular32 y -> f_ge x y = (uval y <=? uval x).
Proof. intros Hx Hy. cbn [f_ge float32_ops]. now apply SFleb_spec. Qed.

Lemma f_zero_below (r : float32) : above_zero32 r -> f_ge f_zero r = false.
Proof.
  intros Hr. rewrite f_ge_spec; [|exact I | now apply above_zero32_regular].
  apply Z.leb_gt. cbn [f_zero float32_ops uval]. now apply uval_above_zero.
Qed.

Lemma sub_block_duration (af : AudioFormat sample_format) (k : N) :
  (0 < sample_rate af)%N -> (k < 2 ^ 64)%N -> regular32 (SizeToTime af k).
Proof.
  intros Hrate Hk. apply SizeToTime_regular; [exact Hrate|].
  eapply N.le_lt_trans; [|exact Hk].
  destruct (frame_size af) as [|p] eqn:E.
  - destruct k; cbn; lia.
  - apply N.Div0.div_le_upper_bound. nia.
Qed.

Lemma ramp_config_same (f f' : VolumeRampFilter) :
  same_config f f' -> ramp_config f -> ramp_config f'.
Proof.
  intros (_ & C2 & _ & _ & C5) (H1 & H2). unfold ramp_config. now rewrite C2, C5.
Qed.

(** A sub-block keeps the accumulator regular, and below the ramp time on
    a rising ramp. *)
Lemma FilterPCM_block_timed (i k : N) (f : VolumeRampFilter) :
  ramp_config f -> (k < 2 ^ 64)%N -> timed f -> timed (FilterPCM_block i k f).
Proof.
  intros (Hr & Hrate) Hk (Ht & Hup).
  pose proof (sub_block_duration (input_fmt f) k Hrate Hk) as Hd.
  destruct (SFadd_regular scale_big _ _ Ht Hd) as (Rs & _).
  unfold timed, FilterPCM_block.
  destruct (state f) eqn:E; cbn [cur_time state set_pv set_cur_time set_state set_delay_buf
                                   volume_ramp_time silence_add_time input_fmt].
  1-3: match goal with |- context [if ?c then _ else _] => destruct c eqn:G end;
       cbn [cur_time state set_pv set_cur_time set_state set_delay_buf
            volume_ramp_time silence_add_time input_fmt].
  - split; [exact I|]. intros _. now apply f_zero_below.
  - split; [exact Rs|]. rewrite E. discriminate.
  - split; [exact I|]. intros _. now apply f_zero_below.
  - split; [exact Rs|]. rewrite E. discriminate.
  - split; [exact I|]. discriminate.
  - split; [exact Rs|]. intros _. exact G.
  - split; [exact Ht|]. rewrite E. discriminate.
Qed.

Lemma flush_acc_regular (f : VolumeRampFilter) :
  ramp_config f -> timed f -> regular32 (flush_acc f).
Proof.
  intros (Hr & _) (Ht & Hup). unfold flush_acc.
  destruct (state f) eqn:E; try exact Ht.
  specialize (Hup eq_refl).
  rewrite f_ge_spec in Hup by (try assumption; now apply above_zero32_regular).
  apply Z.leb_gt in Hup.
  apply SFsub_regular; [exact Hr | exact Ht | lia].
Qed.

Lemma block_bytes_small (f : VolumeRampFilter) : (block_bytes f < 2 ^ 64)%N.
Proof. unfold block_bytes. apply size_t_bound. Qed.

Lemma block_time_regular (f : VolumeRampFilter) :
  ramp_config f -> regular32 (block_time f).
Proof.
  intros (_ & Hrate). apply sub_block_duration; [exact Hrate | apply block_bytes_small].
Qed.

Lemma Flush_timed (f : VolumeRampFilter) :
  ramp_config f -> timed f -> timed (fst (Flush f)).
Proof.
  intros Hc Ht.
  assert (Hup : state (fst (Flush f)) <> RampUp).
  { destruct (Flush_state f) as ([H|H] & _); rewrite H; discriminate. }
  split; [|intros H; contradiction].
  destruct (state f) eqn:Es.
  2: { destruct (Flush_Silence f Es) as (_ & _ & T & _). rewrite T. exact I. }
  all: assert (Hns : state f <> Silence) by congruence;
       destruct (Flush_spec (L := Binary32_pcm_laws) f Hns) as (_ & _ & _ & _ & _ & T & _);
       fold (block_time f) in T;
       destruct (SFadd_regular scale_big _ _ (flush_acc_regular f Hc Ht)
                   (block_time_regular f Hc)) as (Rs & _);
       destruct (f_ge _ _); destruct T as (T & _); rewrite T; [exact I | exact Rs].
Qed.

Lemma call_timed (c : Call) (f f' : VolumeRampFilter) out :
  ramp_config f -> timed f -> call c f = Some (f', out) -> timed f'.
Proof.
  intros Hc Ht Hcall.
  destruct c as [src| | |]; cbn [call] in Hcall.
  - rewrite FilterPCM_unfold in Hcall.
    destruct (stored_frame src f) as (C & S0 & T0 & _).
    assert (H0 : timed (stored src f)).
    { unfold timed. destruct C as (_ & C2 & _). rewrite S0, T0, C2. exact Ht. }
    pose proof (ramp_config_same _ _ C Hc) as Hc0.
    set (Inv := fun g : VolumeRampFilter => timed g /\ ramp_config g).
    assert (Hend : Inv f').
    { destruct (state f).
      4: { injection Hcall as <- _. split; assumption. }
      all: destruct (FilterPCM_loop _ _ _ _ _) as [f1|] eqn:E; [|discriminate];
           injection Hcall as <- _;
           eapply (FilterPCM_loop_inv Inv); [| split; [exact H0 | exact Hc0] | exact E];
           intros i g Hi (Hg1 & Hg2);
           (split;
            [ apply FilterPCM_block_timed; [exact Hg2 | | exact Hg1];
              pose proof (block_bytes_small f);
              destruct (block_bytes f <? _)%N eqn:B;
              [ assumption | apply N.ltb_ge in B; lia ]
            | apply (ramp_config_same g); [apply FilterPCM_block_frame | exact Hg2] ]). }
    apply Hend.
  - injection Hcall as E. replace f' with (fst (Flush f)) by now rewrite E.
    now apply Flush_timed.
  - injection Hcall as <- _. split; [exact I | discriminate].
  - injection Hcall as <- _. split; [exact I | discriminate].
Qed.

Lemma run_timed (calls : list Call) :
  forall (f f' : VolumeRampFilter) W,
    ramp_config f -> timed f -> run calls f = Some (f', W) ->
    timed f' /\ ramp_config f'.
Proof.
  induction calls as [|c rest IH]; intros f f' W Hc Ht; cbn [run].
  - intros [= <- _]. now split.
  - destruct (call c f) as [[f1 out]|] eqn:Ec; [|discriminate].
    destruct (run rest f1) as [[f2 W']|] eqn:Er; [|discriminate].
    intros [= <- _].
    destruct (call_fifo (L := Binary32_pcm_laws) c f f1 out Ec) as (_ & _ & C).
    eapply IH; [| |exact Er].
    + exact (ramp_config_same _ _ C Hc).
    + exact (call_timed c f f1 out Hc Ht Ec).
Qed.

(** From [RampDown], a series of flushes reaches [Silence] once the
    additions, each of which loses at most half a unit in the last place of
    the ramp time, add up to the ramp time. *)
Lemma flushes_reach_Silence (mr : positive) (er : Z) (n : nat) :
  forall f : VolumeRampFilter,
    state f = RampDown -> regular32 (cur_time f) -> ramp_config f ->
    volume_ramp_time f = S754_finite false mr er ->
    (1 <= n)%nat ->
    uval (volume_ramp_time f) <=
      uval (cur_time f) + Z.of_nat n * (uval (block_time f) - 2 ^ (er + sg - 1)) ->
    exists j, (1 <= j <= n)%nat /\ state (flushes j f) = Silence.
Proof.
  induction n as [|n IH]; intros f Hs Ht Hc Hr Hn Hle; [lia|].
  destruct (Flush_RampDown_step (L := Binary32_pcm_laws) f Hs) as (Hd & Hr' & T).
  pose proof (block_time_regular f Hc) as Rd.
  unfold float32 in *.
  assert (Hb : bounded 24 128 mr er = true).
  { change (above_zero32 (S754_finite false mr er)). rewrite <- Hr. apply Hc. }
  destruct (f_ge (f_add (cur_time f) (block_time f)) (volume_ramp_time f)) eqn:E.
  - exists 1%nat. split; [lia | exact T].
  - destruct T as (Tc & Ts).
    rewrite Hr in E. cbn [f_ge f_add float32_ops] in E.
    destruct (SFadd_progress (cur_time f) (block_time f) mr er Ht Rd Hb E) as (Hlow & Hup).
    destruct (SFadd_regular scale_big _ _ Ht Rd) as (Rs & _).
    destruct n as [|n].
    + exfalso. rewrite Hr in Hle. cbn [Z.of_nat Pos.of_succ_nat] in Hle. lia.
    + destruct (IH (fst (Flush f))) as (j & Hj & Hsil).
      * exact Ts.
      * rewrite Tc. exact Rs.
      * apply (ramp_config_same f); [apply (Flush_config (L := Binary32_pcm_laws))|exact Hc].
      * congruence.
      * lia.
      * rewrite Hd, Hr', Tc. cbn [f_add float32_ops].
        rewrite (Nat2Z.inj_succ (S n)), Z.mul_succ_l in Hle.
        unfold prec, emax. lia.
      * exists (S j). split; [lia | exact Hsil].
Qed.

Lemma inject_pow2 (e : Z) :
  0 <= e + sg -> (inject_Z (2 ^ (e + sg)) == Qpower 2 e * inject_Z (2 ^ sg))%Q.
Proof.
  intros He. pose proof scale_big as Hsg.
  rewrite !Zpower_Qpower by lia.
  rewrite Qpower_plus by discriminate. reflexivity.
Qed.

Lemma to_Q_uval (x : float32) :
  finite32 x -> (inject_Z (uval x) == to_Q x * inject_Z (2 ^ sg))%Q.
Proof.
  pose proof scale_big as Hsg.
  destruct x as [s|s| |[] m e]; cbn [finite32]; try tauto; intros Hb.
  - cbn [uval to_Q]. now rewrite Qmult_0_l.
  - pose proof (bounded_exponent m e Hb).
    cbn [uval to_Q]. rewrite inject_Z_mult, inject_pow2 by lia.
    rewrite Qmult_1_l. now rewrite Qmult_assoc.
Qed.

Lemma half_ulp_uval (m : positive) (e : Z) :
  bounded 24 128 m e = true ->
  (inject_Z (2 ^ (e + sg - 1)) ==
   half_ulp (S754_finite false m e) * inject_Z (2 ^ sg))%Q.
Proof.
  intros Hb. pose proof scale_big as Hsg. pose proof (bounded_exponent m e Hb).
  cbn [half_ulp]. replace (e + sg - 1) with (e - 1 + sg) by lia.
  apply inject_pow2. lia.
Qed.

Lemma scale_positive : (0 < inject_Z (2 ^ sg))%Q.
Proof.
  pose proof scale_big. change 0%Q with (inject_Z 0). rewrite <- Zlt_Qlt. apply pow2_pos. lia.
Qed.

(** The bound, in units: [n] sub-block durations, each short of half a
    unit in the last place of the ramp time, cover the ramp time. *)
Lemma flush_bound_units (r d : float32) (mr : positive) (er : Z) :
  r = S754_finite false mr er -> bounded 24 128 mr er = true -> regular32 d ->
  (half_ulp r < to_Q d)%Q ->
  let n := Qceiling (to_Q r / (to_Q d - half_ulp r)) in
  1 <= n /\ uval r <= n * (uval d - 2 ^ (er + sg - 1)) /\ 2 ^ (er + sg - 1) < uval d.
Proof.
  intros -> Hb Hd Hlt n. pose proof scale_big as Hsg.
  pose proof (bounded_exponent mr er Hb) as Be.
  pose proof scale_positive as HS.
  set (r := S754_finite false mr er) in *.
  assert (Hh : (0 < half_ulp r)%Q).
  { subst r. cbn [half_ulp]. apply Qpower_0_lt. reflexivity. }
  assert (Hfd : finite32 d).
  { destruct d as [s|[]| |[] m e]; cbn [regular32] in Hd; try (exfalso; exact Hd);
      try exact I; try exact Hd.
    exfalso. cbn [to_Q] in Hlt. apply (Qlt_irrefl 0). now apply Qlt_trans with (half_ulp r). }
  assert (Hfr : finite32 r) by exact Hb.
  pose proof (to_Q_uval d Hfd) as Ed. pose proof (to_Q_uval r Hfr) as Er.
  pose proof (half_ulp_uval mr er Hb) as Eh. fold r in Eh.
  set (delta := (to_Q d - half_ulp r)%Q) in *.
  assert (Hdelta : (0 < delta)%Q).
  { subst delta. rewrite <- (Qplus_opp_r (half_ulp r)).
    apply Qplus_lt_l. exact Hlt. }
  assert (Hr0 : (0 < to_Q r)%Q).
  { destruct (uval_above_zero r Hb) as (H0 & _).
    rewrite Zlt_Qlt in H0. rewrite Er in H0.
    destruct (Qlt_le_dec 0 (to_Q r)) as [H|H]; [exact H|].
    exfalso. apply (Qlt_irrefl 0). eapply Qlt_le_trans; [exact H0|].
    rewrite <- (Qmult_0_l (inject_Z (2 ^ sg))).
    apply Qmult_le_compat_r; [exact H | now apply Qlt_le_weak]. }
  assert (Hq : (to_Q r / delta <= inject_Z n)%Q) by apply Qle_ceiling.
  assert (Hmul : (to_Q r <= inject_Z n * delta)%Q).
  { rewrite <- (Qmult_div_r (to_Q r) delta) at 1
      by (intros E; rewrite E in Hdelta; now apply Qlt_irrefl in Hdelta).
    rewrite (Qmult_comm delta). apply Qmult_le_compat_r; [exact Hq | now apply Qlt_le_weak]. }
  assert (HD : 2 ^ (er + sg - 1) < uval d).
  { rewrite Zlt_Qlt, Eh, Ed. apply Qmult_lt_compat_r; assumption. }
  split; [|split; [|exact HD]].
  - assert (H0 : (0 < inject_Z n)%Q).
    { eapply Qlt_le_trans; [|exact Hq]. apply Qlt_shift_div_l; [exact Hdelta|].
      now rewrite Qmult_0_l. }
    change 0%Q with (inject_Z 0) in H0. rewrite <- Zlt_Qlt in H0. lia.
  - rewrite Zle_Qle, Er.
    rewrite inject_Z_mult. unfold Z.sub. rewrite inject_Z_plus, inject_Z_opp, Ed, Eh.
    setoid_replace (to_Q d * inject_Z (2 ^ sg) + - (half_ulp r * inject_Z (2 ^ sg)))%Q
      with (delta * inject_Z (2 ^ sg))%Q by (subst delta; ring).
    rewrite Qmult_assoc. apply Qmult_le_compat_r; [exact Hmul | now apply Qlt_le_weak].
Qed.

Lemma VolumeRampFilter_new_timed (fmt : AudioFormat sample_format)
    (ramp_time add_time : float32) (block_size : N) :
  timed (VolumeRampFilter_new fmt ramp_time add_time block_size).
Proof. split; [exact I | discriminate]. Qed.

Lemma flush_out_Silence (j : nat) (f : VolumeRampFilter) :
  state (flushes j f) = Silence -> flush_out j f = [].
Proof. intros H. unfold flush_out. now apply Flush_Silence. Qed.

(** ** The range of the cast *)

Lemma uval_1024 : uval (of_N 1024) = 2 ^ 10 * 2 ^ sg.
Proof.
  pose proof scale_big as Hsg. rewrite of_N_1024. cbn [uval].
  change (Zpos 8388608) with (2 ^ 23).
  rewrite <- !pow2_split by lia. f_equal; lia.
Qed.

(** Below the ramp time, the quotient is at most one. *)
Lemma SFdiv_below (r t : float32) :
  above_zero32 r -> regular32 t -> uval t <= uval r ->
  regular32 (SFdiv 24 128 t r) /\ uval (SFdiv 24 128 t r) <= 2 ^ sg.
Proof.
  intros Hr Ht Hle. pose proof scale_big as Hsg.
  pose proof (uval_above_zero r Hr) as Br.
  destruct r as [|[]| |[] mr er]; cbn [above_zero32] in Hr; try (exfalso; exact Hr).
  destruct (SFdiv_mono scale_big t (S754_finite false mr er) mr er Ht Hr Hr Hle)
    as (R1 & _ & V).
  split; [exact R1|].
  eapply Z.le_trans; [exact V|].
  destruct (SFdiv_finite_spec scale_big mr mr er er Hr Hr) as (_ & E).
  cbn zeta in E. rewrite E. cbn [uval] in Br.
  set (R := Zpos mr * 2 ^ (er + sg)) in *.
  rewrite Z.mul_comm, Z.div_mul by lia.
  rewrite Z.mod_mul by lia. cbn [Z.eqb negb].
  pose proof (RN32_pow2 0 ltac:(lia)) as H0.
  change (2 ^ 0) with 1 in H0. rewrite Z.mul_1_l in H0. rewrite H0. lia.
Qed.

(** On a ramp the value that is cast lies between zero and full scale. *)
Lemma scaled_in_range (q : float32) :
  regular32 q -> uval q <= 2 ^ sg ->
  let v := f_mul q (f_of_unsigned PCM_VOLUME_1) in
  f_ge v f_zero = true /\ f_ge (f_of_unsigned PCM_VOLUME_1) v = true.
Proof.
  intros Hq Hle v. pose proof scale_big as Hsg. subst v.
  cbn [f_mul f_of_unsigned float32_ops PCM_VOLUME_1 pcm pcm8].
  assert (R1024 : regular32 (of_N 1024)) by apply of_N_spec.
  pose proof uval_1024 as U1024.
  rewrite of_N_1024 in *.
  destruct (SFmul_1024_spec scale_big q Hq) as (Rv & Ev).
  cbn zeta in Ev.
  assert (Hone : regular32 f_one) by exact one_bounded.
  pose proof (SFmul_1024_mono scale_big q f_one Hq Hone) as Hm.
  rewrite uval_one in Hm. specialize (Hm Hle).
  destruct (SFmul_1024_spec scale_big f_one Hone) as (_ & E1). cbn zeta in E1.
  rewrite uval_one in E1.
  rewrite (Z.mul_comm (2 ^ sg)) in E1. change 1024 with (2 ^ 10) in E1.
  rewrite (RN32_pow2 10) in E1 by lia.
  pose proof (uval_regular_bound scale_big _ Rv) as Bv.
  split.
  - rewrite f_ge_spec; [|exact Rv | exact I]. apply Z.leb_le. cbn [f_zero float32_ops uval].
    unfold prec, emax in *. lia.
  - rewrite f_ge_spec; [|exact R1024 | exact Rv]. apply Z.leb_le.
    unfold prec, emax in *. lia.
Qed.

Lemma pv_gain (v : PcmVolume) (g : N) (xs : list byte) :
  snd (fst (pv_Apply (pv_SetVolume v g) xs)) = g.
Proof.
  destruct v as [fmt vol]. cbn. destruct fmt; reflexivity.
Qed.

(** A regular value worth one is the float [1.0f]. *)
Lemma regular_one (y : float32) : regular32 y -> uval y = 2 ^ sg -> y = f_one.
Proof.
  intros Hy E. pose proof scale_big as Hsg.
  assert (Hone : regular32 f_one) by exact one_bounded.
  pose proof (SFleb_spec y f_one Hy Hone) as H1.
  pose proof (SFleb_spec f_one y Hone Hy) as H2.
  rewrite uval_one, E, Z.leb_refl in H1, H2.
  assert (Hps : 0 < 2 ^ sg) by (apply pow2_pos; lia).
  assert (Hcap : 2 ^ sg < 2 ^ (128 + sg)) by (apply pow2_lt; lia).
  destruct y as [s|[]| |[] m e]; cbn [regular32] in Hy; try (exfalso; exact Hy);
    cbn [uval] in E; try lia.
  unfold SFleb in H1, H2. cbn [SFcompare f_one float32_ops] in H1, H2.
  destruct (Z.compare_spec e (-23)) as [Ee|Ee|Ee]; try discriminate.
  - subst e. rewrite Z.compare_refl in H2.
    rewrite Pos.compare_cont_spec in H1, H2. cbn [Pos.switch_Eq] in H1, H2.
    destruct (Pos.compare_spec m 8388608) as [Em|Em|Em].
    + now subst m.
    + apply Pos.compare_gt_iff in Em. rewrite Em in H2. discriminate.
    + cbn in H1. discriminate.
  - apply Z.compare_gt_iff in Ee. rewrite Ee in H2. discriminate.
Qed.

(** The complement to one of a regular value that is at most one lies
    between zero and one. *)
Lemma SFsub_one_range (y : float32) :
  regular32 y -> uval y <= 2 ^ sg ->
  regular32 (f_sub f_one y) /\ uval (f_sub f_one y) <= 2 ^ sg.
Proof.
  intros Hy Hle. pose proof scale_big as Hsg.
  destruct (Z.eq_dec (uval y) (2 ^ sg)) as [E|E].
  - rewrite (regular_one y Hy E).
    assert (Hps : 0 < 2 ^ sg) by (apply pow2_pos; lia).
    change (f_sub f_one f_one) with (S754_zero false). cbn [regular32 uval]. split; [exact I|lia].
  - destruct (SFsub_one_spec y Hy) as (A & _).
    destruct (A ltac:(lia)) as (R & V). split; [exact R|].
    rewrite V. pose proof (uval_regular_bound scale_big y Hy).
    pose proof (RN32_pow2 0 ltac:(lia)) as H0.
    change (2 ^ 0) with 1 in H0. rewrite Z.mul_1_l in H0. rewrite <- H0.
    apply (RN32_mono scale_big); [lia|].
    destruct (Z.eq_dec (uval y) 0) as [E0|E0].
    + right. split; [lia | auto].
    + left. lia.
Qed.

(** The value a falling ramp casts lies between zero and full scale while
    the accumulator is below the ramp time. *)
Lemma falling_in_range (r c : float32) :
  above_zero32 r -> regular32 c -> f_ge c r = false ->
  let v := f_mul (f_sub f_one (f_div c r)) (f_of_unsigned PCM_VOLUME_1) in
  f_ge v f_zero = true /\ f_ge (f_of_unsigned PCM_VOLUME_1) v = true.
Proof.
  intros Hr Hc Hlt.
  assert (Hle : uval c <= uval r).
  { rewrite f_ge_spec in Hlt; [|exact Hc | now apply above_zero32_regular].
    apply Z.leb_gt in Hlt. lia. }
  destruct (SFdiv_below r c Hr Hc Hle) as (Rq & Hq).
  destruct (SFsub_one_range _ Rq Hq) as (Rs & Hs).
  exact (scaled_in_range _ Rs Hs).
Qed.

(** ** Successive gains *)

(** One sub-block of a rising ramp in single precision. *)
Lemma FilterPCM_block_rising (i k : N) (f : VolumeRampFilter) :
  state f = RampUp ->
  regular32 (cur_time f) -> f_ge (cur_time f) (volume_ramp_time f) = false ->
  above_zero32 (volume_ramp_time f) ->
  (0 < sample_rate (input_fmt f))%N -> (k < 2 ^ 64)%N ->
  let f' := FilterPCM_block i k f in
  snd (pv f') = ramp_up_volume (volume_ramp_time f) (cur_time f) /\
  finite32 (cur_time f') /\
  volume_ramp_time f' = volume_ramp_time f /\ input_fmt f' = input_fmt f /\
  (state f' = RampUp ->
   f_ge (cur_time f') (volume_ramp_time f') = false /\
   (ramp_up_volume (volume_ramp_time f) (cur_time f) <=
    ramp_up_volume (volume_ramp_time f') (cur_time f'))%N).
Proof.
  intros Hs Ht Hlt Hr Hrate Hk f'.
  destruct (FilterPCM_block_RampUp i k f Hs) as (_ & V & T). fold f' in V, T.
  destruct (FilterPCM_block_frame i k f) as ((_ & C2 & _ & _ & C5) & _). fold f' in C2, C5.
  pose proof (sub_block_duration (input_fmt f) k Hrate Hk) as Hd.
  destruct (ramp_up_volume_ascends (volume_ramp_time f) (cur_time f) _ Hr Ht Hd)
    as (Rs & Hmono).
  split; [rewrite V; apply pv_gain|].
  split; [|split; [exact C2 | split; [exact C5|]]].
  - match type of T with (if ?c then _ else _) => destruct c eqn:E end.
    + destruct T as (-> & _). exact I.
    + destruct T as (-> & _). apply finite32_below; [exact Rs|].
      rewrite f_ge_spec in E; [|exact Rs | now apply above_zero32_regular].
      apply Z.leb_gt in E. pose proof (uval_above_zero _ Hr). lia.
  - intros Hs'.
    match type of T with (if ?c then _ else _) => destruct c eqn:E end.
    + destruct T as (_ & T). congruence.
    + destruct T as (Tc & _). rewrite C2, Tc. split; [exact E | exact Hmono].
Qed.


Lemma rising_gains_stop (ks : list N) (f : VolumeRampFilter) :
  state f <> RampUp -> rising_gains ks f = [].
Proof. intros H. destruct ks; cbn; [reflexivity|]. destruct (state f); congruence. Qed.

Lemma rising_gains_step (k : N) (rest : list N) (f : VolumeRampFilter) :
  state f = RampUp ->
  rising_gains (k :: rest) f =
  snd (pv (FilterPCM_block 0 k f)) :: rising_gains rest (FilterPCM_block 0 k f).
Proof. intros H. cbn [rising_gains]. destruct (state f); congruence. Qed.

Lemma rising_gains_bounds (ks : list N) :
  forall f : VolumeRampFilter,
    state f = RampUp ->
    regular32 (cur_time f) -> f_ge (cur_time f) (volume_ramp_time f) = false ->
    above_zero32 (volume_ramp_time f) -> (0 < sample_rate (input_fmt f))%N ->
    Forall (fun k => (k < 2 ^ 64)%N) ks ->
    StronglySorted N.le (rising_gains ks f) /\
    Forall (fun g => (ramp_up_volume (volume_ramp_time f) (cur_time f) <= g <= PCM_VOLUME_1)%N)
           (rising_gains ks f).
Proof.
  induction ks as [|k rest IH]; intros f Hs Ht Hlt Hr Hrate Hks.
  - split; constructor.
  - rewrite rising_gains_step by exact Hs.
    inversion Hks as [|? ? Hk Hrest]; subst.
    destruct (FilterPCM_block_rising 0 k f Hs Ht Hlt Hr Hrate Hk) as (V & Hfin & C2 & C5 & Hup).
    norm32.
    set (f' := @FilterPCM_block spec_float _ _ 0%N k f) in *.
    assert (Hg : (snd (pv f') <= PCM_VOLUME_1)%N) by (rewrite V; apply N.le_min_r).
    destruct (state f') eqn:Es'.
    1,2,4: rewrite rising_gains_stop by (norm32; congruence);
           split; [repeat constructor | constructor; [rewrite V; split; [lia | apply N.le_min_r] | constructor]].
    destruct (Hup eq_refl) as (Hlt' & Hmono).
    destruct (IH f' Es' (finite32_regular _ Hfin) Hlt') as (Hsorted & Hall).
    + now rewrite C2.
    + now rewrite C5.
    + exact Hrest.
    + assert (Hall' : Forall (fun g => (snd (pv f') <= g <= PCM_VOLUME_1)%N)
                             (rising_gains rest f')).
      { eapply Forall_impl; [|exact Hall]. cbn beta. intros g Hgg. norm32. rewrite V. lia. }
      split.
      * constructor; [exact Hsorted|].
        eapply Forall_impl; [|exact Hall']. cbn beta. intros g Hgg. norm32. lia.
      * constructor; [rewrite V; split; [lia | apply N.le_min_r]|].
        eapply Forall_impl; [|exact Hall']. cbn beta. intros g Hgg. norm32. rewrite <- V. lia.
Qed.

(** One flush of a falling ramp in single precision. *)
Lemma Flush_falling (f : VolumeRampFilter) :
  state f <> Silence ->
  regular32 (flush_acc f) -> above_zero32 (volume_ramp_time f) ->
  (0 < sample_rate (input_fmt f))%N ->
  let f' := fst (Flush f) in
  snd (pv f') = ramp_down_volume (volume_ramp_time f) (flush_acc f) /\
  volume_ramp_time f' = volume_ramp_time f /\ input_fmt f' = input_fmt f /\
  state f' <> RampUp /\ state f' <> Final /\
  (state f' = RampDown ->
   regular32 (flush_acc f') /\
   f_ge (flush_acc f') (volume_ramp_time f') = false /\
   (ramp_down_volume (volume_ramp_time f') (flush_acc f') <=
    ramp_down_volume (volume_ramp_time f) (flush_acc f))%N).
Proof.
  intros Hns Ht Hr Hrate f'.
  destruct (Flush_spec (L := Binary32_pcm_laws) f Hns) as (_ & V & _ & _ & _ & T & C & _).
  fold f' in V, T, C. fold (block_time f) in T.
  assert (Hcfg : volume_ramp_time f' = volume_ramp_time f) by apply C.
  assert (Hfmt : input_fmt f' = input_fmt f) by apply C.
  pose proof (block_time_regular f (conj Hr Hrate)) as Hd.
  destruct (ramp_down_volume_descends (volume_ramp_time f) (flush_acc f) _ Hr Ht Hd)
    as (Rs & Hmono).
  split; [rewrite V; apply pv_gain|].
  split; [exact Hcfg|]. split; [exact Hfmt|].
  match type of T with (if ?c then _ else _) => destruct c eqn:E end.
  - destruct T as (Tc & Ts). rewrite Ts.
    split; [discriminate|]. split; [discriminate|]. discriminate.
  - destruct T as (Tc & Ts). rewrite Ts.
    split; [discriminate|]. split; [discriminate|].
    intros _. unfold flush_acc at 1 2 3. rewrite Ts, Hcfg, Tc.
    split; [exact Rs|]. split; [exact E | exact Hmono].
Qed.

Lemma falling_gains_stop (n : nat) (f : VolumeRampFilter) :
  state f = Silence -> falling_gains n f = [].
Proof. intros H. destruct n; cbn; [reflexivity|]. now rewrite H. Qed.

Lemma falling_gains_step (n : nat) (f : VolumeRampFilter) :
  state f <> Silence ->
  falling_gains (S n) f = snd (pv (fst (Flush f))) :: falling_gains n (fst (Flush f)).
Proof. intros H. cbn [falling_gains]. destruct (state f); congruence. Qed.

Lemma falling_gains_bounds (n : nat) :
  forall f : VolumeRampFilter,
    state f <> Silence -> regular32 (flush_acc f) ->
    above_zero32 (volume_ramp_time f) -> (0 < sample_rate (input_fmt f))%N ->
    StronglySorted N.ge (falling_gains n f) /\
    Forall (fun g => (g <= ramp_down_volume (volume_ramp_time f) (flush_acc f))%N)
           (falling_gains n f).
Proof.
  induction n as [|n IH]; intros f Hns Ht Hr Hrate.
  - split; constructor.
  - rewrite falling_gains_step by exact Hns.
    destruct (Flush_falling f Hns Ht Hr Hrate) as (V & C2 & C5 & Hnu & Hnf & Hdown).
    norm32.
    set (f' := fst (@Flush spec_float _ _ f)) in *.
    destruct (state f') eqn:Es'; try congruence.
    + destruct (Hdown eq_refl) as (Rt' & _ & Hmono).
      destruct (IH f') as (Hsorted & Hall).
      * congruence.
      * exact Rt'.
      * now rewrite C2.
      * now rewrite C5.
      * assert (Hall' : Forall (fun g => (g <= snd (pv f'))%N) (falling_gains n f')).
        { eapply Forall_impl; [|exact Hall]. cbn beta. intros g Hg. norm32. rewrite V. lia. }
        split.
        -- constructor; [exact Hsorted|].
           eapply Forall_impl; [|exact Hall']. cbn beta. intros g Hg. norm32. lia.
        -- constructor; [rewrite V; lia|].
           eapply Forall_impl; [|exact Hall']. cbn beta. intros g Hg. norm32. rewrite <- V. lia.
    + rewrite falling_gains_stop by exact Es'.
      split; [repeat constructor | constructor; [rewrite V; lia | constructor]].
Qed.

End Accumulator.

Section Ramps32.

Import Binary32.

(** C3 (flush termination), amended.  Take a filter that a run of calls
    has left in any state, constructed with a ramp time that is a finite
    number above zero and a sample rate other than zero, and whose sub-block
    duration [d] exceeds [u], half a unit in the last place of the ramp
    time.  Each flush adds [d] to the accumulator in single precision, which
    loses at most [u] while the sum stays below the ramp time; so one of the
    first [ceil (ramp_time / (d - u)) + 1] calls of [Flush] returns an empty
    result.  After an empty result every further [Flush] returns empty as
    long as no other call intervenes. *)
Theorem flush_termination (fmt : AudioFormat sample_format)
    (ramp_time add_time : float32) (block_size : N) (calls : list Call)
    (f : VolumeRampFilter) W :
  run calls (VolumeRampFilter_new fmt ramp_time add_time block_size) = Some (f, W) ->
  above_zero32 ramp_time -> (0 < sample_rate fmt)%N ->
  (half_ulp ramp_time < to_Q (block_time f))%Q ->
  (exists j, Z.of_nat j < flush_bound f /\ flush_out j f = []) /\
  (forall g : VolumeRampFilter,
     snd (Flush g) = [] -> forall m, flush_out m (fst (Flush g)) = []).
Proof.
  intros Hrun Hr Hrate Hd.
  split; [|intros g Hg m; now apply (flush_stays_empty (L := Binary32_pcm_laws))].
  assert (Hc0 : ramp_config (VolumeRampFilter_new fmt ramp_time add_time block_size))
    by (split; assumption).
  destruct (run_timed calls _ f W Hc0
              (VolumeRampFilter_new_timed fmt ramp_time add_time block_size) Hrun)
    as (Ht & Hc).
  clear Hc0.
  destruct (run_fifo (L := Binary32_pcm_laws) calls _ _ _ Hrun) as (_ & (_ & C2 & _)).
  cbn [volume_ramp_time VolumeRampFilter_new] in C2.
  pose proof (block_time_regular f Hc) as Rd.
  pose proof (flush_acc_regular f Hc Ht) as Ra.
  destruct ramp_time as [|[]| |[] mr er] eqn:Er; cbn [above_zero32] in Hr;
    try (exfalso; exact Hr).
  destruct (flush_bound_units (S754_finite false mr er) (block_time f) mr er
              eq_refl Hr Rd Hd) as (Hn1 & Hn & HD).
  unfold flush_bound. unfold float32 in *. rewrite C2.
  set (n := Qceiling _) in *.
  set (h := 2 ^ (er + sg - 1)) in *.
  assert (Hcase : state f = Silence \/ state f <> Silence)
    by (destruct (state f); auto; right; discriminate).
  destruct Hcase as [Hs|Hns].
  { exists O. split; [lia|]. now apply flush_out_Silence. }
  destruct (Flush_first_step (L := Binary32_pcm_laws) f Hns) as (Hd1 & Hr1 & T).
  match type of T with (if ?c then _ else _) => destruct c eqn:E end.
  { exists 1%nat. split; [lia|]. now apply flush_out_Silence. }
  destruct T as (Tc & Ts).
  unfold float32 in *. rewrite C2 in E. cbn [f_ge f_add float32_ops] in E.
  destruct (SFadd_progress (flush_acc f) (block_time f) mr er Ra Rd Hr E) as (Hlow & Hup).
  destruct (SFadd_regular scale_big _ _ Ra Rd) as (Rs & _).
  pose proof (uval_regular_bound scale_big _ Ra) as Ba.
  cbn [uval] in Hn, Hup.
  destruct (Z.eq_dec n 1) as [En|En].
  { exfalso. rewrite En in Hn. lia. }
  destruct (flushes_reach_Silence mr er (Z.to_nat (n - 1)) (fst (Flush f))) as (j & Hj & Hsil).
  - exact Ts.
  - rewrite Tc. exact Rs.
  - apply (ramp_config_same f); [apply (Flush_config (L := Binary32_pcm_laws)) | exact Hc].
  - congruence.
  - lia.
  - rewrite Hd1, Hr1, Tc, C2. cbn [f_add float32_ops uval]. unfold prec, emax.
    rewrite Z2Nat.id by lia. fold h.
    replace (n * (uval (block_time f) - h))
      with ((n - 1) * (uval (block_time f) - h) + (uval (block_time f) - h)) in Hn by ring.
    lia.
  - exists (S j). split; [lia|]. apply flush_out_Silence. exact Hsil.
Qed.


(** X13 (the gains of a rising ramp).  In single precision, for a filter in
    [RampUp] whose accumulator is a number from zero to below a finite ramp
    time above zero, with a sample rate other than zero: the gains that
    sub-blocks of any sizes below [2 ^ 64] bytes set one after the other,
    for as long as the state is [RampUp], never decrease and never exceed
    [PCM_VOLUME_1]; the first one is the cast of
    [cur_time / volume_ramp_time * PCM_VOLUME_1], a value between zero and
    [PCM_VOLUME_1], clamped. *)
Theorem rising_gains_sorted (ks : list N) (f : VolumeRampFilter) :
  state f = RampUp ->
  regular32 (cur_time f) -> f_ge (cur_time f) (volume_ramp_time f) = false ->
  above_zero32 (volume_ramp_time f) -> (0 < sample_rate (input_fmt f))%N ->
  Forall (fun k => (k < 2 ^ 64)%N) ks ->
  let scaled :=
    f_mul (f_div (cur_time f) (volume_ramp_time f)) (f_of_unsigned PCM_VOLUME_1) in
  StronglySorted N.le (rising_gains ks f) /\
  Forall (fun g => (g <= PCM_VOLUME_1)%N) (rising_gains ks f) /\
  (f_ge scaled f_zero = true /\ f_ge (f_of_unsigned PCM_VOLUME_1) scaled = true) /\
  (forall k rest,
     ks = k :: rest ->
     rising_gains ks f =
     N.min (f_to_unsigned scaled) PCM_VOLUME_1
     :: rising_gains rest (FilterPCM_block 0 k f)).
Proof.
  intros Hs Ht Hlt Hr Hrate Hks scaled.
  destruct (rising_gains_bounds ks f Hs Ht Hlt Hr Hrate Hks) as (Hsorted & Hall).
  split; [exact Hsorted|]. split; [|split].
  2: { assert (Hle : uval (cur_time f) <= uval (volume_ramp_time f)).
       { rewrite f_ge_spec in Hlt; [|exact Ht | now apply above_zero32_regular].
         apply Z.leb_gt in Hlt. lia. }
       destruct (SFdiv_below (volume_ramp_time f) (cur_time f) Hr Ht Hle) as (Rq & Hq).
       exact (scaled_in_range _ Rq Hq). }
  - eapply Forall_impl; [|exact Hall]. cbn beta. intros g Hg. norm32. lia.
  - intros k rest ->. rewrite rising_gains_step by exact Hs. f_equal.
    inversion Hks as [|? ? Hk Hrest]; subst.
    now destruct (FilterPCM_block_rising 0 k f Hs Ht Hlt Hr Hrate Hk) as (V & _).
Qed.

(** X14 (the gains of a falling ramp).  In single precision, for a filter
    outside [Silence] whose flush starts from an accumulator that is a
    number from zero to below a finite ramp time above zero, with a sample
    rate other than zero: the gains that the calls of a series of flushes
    set, until a flush finds the filter in [Silence], never increase and
    never exceed [PCM_VOLUME_1]; the first one is the cast of
    [(1.0f - cur_time / volume_ramp_time) * PCM_VOLUME_1], a value between
    zero and [PCM_VOLUME_1], clamped. *)
Theorem falling_gains_sorted (n : nat) (f : VolumeRampFilter) :
  state f <> Silence ->
  regular32 (flush_acc f) -> f_ge (flush_acc f) (volume_ramp_time f) = false ->
  above_zero32 (volume_ramp_time f) -> (0 < sample_rate (input_fmt f))%N ->
  let scaled :=
    f_mul (f_sub f_one (f_div (flush_acc f) (volume_ramp_time f)))
          (f_of_unsigned PCM_VOLUME_1) in
  StronglySorted N.ge (falling_gains n f) /\
  Forall (fun g => (g <= PCM_VOLUME_1)%N) (falling_gains n f) /\
  (f_ge scaled f_zero = true /\ f_ge (f_of_unsigned PCM_VOLUME_1) scaled = true) /\
  falling_gains (S n) f =
    N.min (f_to_unsigned scaled) PCM_VOLUME_1 :: falling_gains n (fst (Flush f)).
Proof.
  intros Hns Ht Hlt Hr Hrate scaled.
  destruct (falling_gains_bounds n f Hns Ht Hr Hrate) as (Hsorted & Hall).
  split; [exact Hsorted|]. split; [|split].
  2: exact (falling_in_range _ _ Hr Ht Hlt).
  - eapply Forall_impl; [|exact Hall]. cbn beta. intros g Hg.
    eapply N.le_trans; [exact Hg | apply N.le_min_r].
  - rewrite falling_gains_step by exact Hns. f_equal.
    now destruct (Flush_falling f Hns Ht Hr Hrate) as (V & _).
Qed.

(** X15 (the accumulator along a run).  In single precision, for a filter
    constructed with a ramp time that is a finite number above zero and a
    sample rate other than zero, after any run of calls: the accumulator is
    regular, that is zero, a finite number above zero or plus infinity, never
    NaN and never negative; in [RampUp] it is below the ramp time, so that
    it is finite there; and the accumulator a [Flush] would start from,
    mirrored in [RampUp], is regular as well. *)
Theorem accumulator_regular (fmt : AudioFormat sample_format)
    (ramp_time add_time : float32) (block_size : N) (calls : list Call)
    (f : VolumeRampFilter) W :
  run calls (VolumeRampFilter_new fmt ramp_time add_time block_size) = Some (f, W) ->
  above_zero32 ramp_time -> (0 < sample_rate fmt)%N ->
  regular32 (cur_time f) /\
  (state f = RampUp ->
   f_ge (cur_time f) ramp_time = false /\ finite32 (cur_time f)) /\
  regular32 (flush_acc f).
Proof.
  intros Hrun Hr Hrate.
  assert (Hc0 : ramp_config (VolumeRampFilter_new fmt ramp_time add_time block_size))
    by (split; assumption).
  destruct (run_timed calls _ f W Hc0
              (VolumeRampFilter_new_timed fmt ramp_time add_time block_size) Hrun)
    as (Ht & Hc).
  destruct (run_fifo (L := Binary32_pcm_laws) calls _ _ _ Hrun) as (_ & (_ & C2 & _)).
  cbn [volume_ramp_time VolumeRampFilter_new] in C2.
  split; [apply Ht|]. split; [|now apply flush_acc_regular].
  intros Hs. destruct Ht as (Ht & Hup). specialize (Hup Hs).
  norm32. rewrite C2 in Hup. split; [exact Hup|].
  apply finite32_below; [exact Ht|].
  rewrite f_ge_spec in Hup; [|exact Ht | now apply above_zero32_regular].
  apply Z.leb_gt in Hup. pose proof (uval_above_zero _ Hr). lia.
Qed.

End Ramps32.


End Rounding.

(** * Witnesses *)

Section Witnesses.

Import Binary32.
Local Open Scope N_scope.


Lemma FilterPCM_length_witness :
  block_bytes Demo.fresh <> 0 /\
  exists f' out,
    FilterPCM 16 Demo.audio Demo.fresh = Some (f', out) /\
    length out = length Demo.audio.
Proof.
  assert (Hbs : block_bytes Demo.fresh <> 0) by (vm_compute; discriminate).
  split; [exact Hbs|].
  destruct (FilterPCM_length (L := Binary32_pcm_laws) 16 Demo.audio Demo.fresh)
    as (_ & Hret & _).
  apply Hret.
  - right. right. exact Hbs.
  - vm_compute. reflexivity.
  - cbn. lia.
Defined.

(** C2 as stated fails.  A filter opened by the factory at 8-bit stereo
    with a [block_size] of [2 ^ 63]: the size of a sub-block in bytes,
    [2 * 2 ^ 63] as a [size_t], is zero, and on a block of one frame the loop
    of [FilterPCM] never advances, so that the call returns after no number
    of iterations. *)
Lemma FilterPCM_never_returns :
  prepared_ramp_block_size (PreparedVolumeRampFilter_new Wide.config) = 2 ^ 63 /\
  GetFrameSize (input_fmt Wide.fresh) = 2 /\
  block_bytes Wide.fresh = 0 /\
  forall fuel, FilterPCM fuel [Byte.x10; Byte.x20] Wide.fresh = None.
Proof.
  split; [vm_compute; reflexivity|]. split; [vm_compute; reflexivity|].
  assert (Hbs : block_bytes Wide.fresh = 0) by (vm_compute; reflexivity).
  split; [exact Hbs|].
  intros fuel.
  apply FilterPCM_spins; [exact Hbs | vm_compute; discriminate | discriminate].
Qed.

Lemma flush_termination_witness :
  run [Process Voice.audio] Voice.fresh = Some (Voice.played, Voice.audio) /\
  flush_bound Voice.played = 502%Z /\
  exists j, (Z.of_nat j < 502)%Z /\ flush_out j Voice.played = [].
Proof.
  assert (Hrun : run [Process Voice.audio] Voice.fresh = Some (Voice.played, Voice.audio)).
  { assert (Hret : returned (FilterPCM (length Voice.audio) Voice.audio Voice.fresh) = true)
      by (vm_compute; reflexivity).
    destruct (returned_state_after _ Voice.fresh Hret) as (out & Hcall).
    exact (run_single _ _ _ _ Hcall). }
  assert (Hb : flush_bound Voice.played = 502%Z) by (vm_compute; reflexivity).
  split; [exact Hrun|]. split; [exact Hb|].
  rewrite <- Hb.
  refine (proj1 (flush_termination (mono8 8000) _ _ _ [Process Voice.audio] Voice.played
                   Voice.audio Hrun _ _ _)).
  - vm_compute. reflexivity.
  - vm_compute. reflexivity.
  - vm_compute. reflexivity.
Defined.




Lemma trigger_effect_witness :
  state (trigger Demo.played) = Silence /\
  trigger (trigger Demo.played) = trigger Demo.played.
Proof.
  destruct (trigger_effect (L := Binary32_pcm_laws) Demo.played) as ((_ & Hs & _) & Hidem & _).
  split; [exact Hs | exact Hidem].
Defined.

Lemma factory_policy_witness :
  prepared_ramp_block_size (PreparedVolumeRampFilter_new Demo.config) = 2 /\
  prepared_volume_ramp_time
    (PreparedVolumeRampFilter_new [("ramp_seconds", "fast")]%string) = f_tenth /\
  prepared_silence_add_time (PreparedVolumeRampFilter_new Demo.config) =
    strtof "0.003".
Proof.
  destruct (factory_policy (Lc := Binary32_libc_laws) Demo.config)
    as (_ & Hadd & Hblock & _).
  destruct (factory_policy (Lc := Binary32_libc_laws) [("ramp_seconds", "fast")]%string)
    as (_ & _ & _ & Hramp & _).
  split; [apply Hblock; vm_compute; discriminate|].
  split; [apply Hramp; vm_compute; reflexivity|].
  apply Hadd. vm_compute. reflexivity.
Defined.


(** C3 as stated fails.  After 1.2 seconds of audio the filter is in
    [Final]; the ramp lasts 0.5 s and a sub-block 1 ms, so the bound is
    [ceil (0.5 / 0.001) + 1 = 501] calls.  In single precision 500
    additions of the sub-block duration stay below 0.5, the falling ramp
    takes 501 flushes, and none of the first 501 calls returns an empty
    result. *)
Lemma flush_bound_exceeded :
  run [Process Voice.audio] Voice.fresh = Some (Voice.played, Voice.audio) /\
  state Voice.played = Final /\
  Voice.nominal_bound Voice.played = 501%Z /\
  ~ exists j, (j < 501)%nat /\ flush_out j Voice.played = [].
Proof.
  split.
  { assert (Hret : returned (FilterPCM (length Voice.audio) Voice.audio Voice.fresh) = true)
      by (vm_compute; reflexivity).
    destruct (returned_state_after _ Voice.fresh Hret) as (out & Hcall).
    exact (run_single _ _ _ _ Hcall). }
  split; [vm_compute; reflexivity|].
  split; [vm_compute; reflexivity|].
  apply flush_outs_nonempty. vm_compute. reflexivity.
Qed.

End Witnesses.

Section CoverageWitnesses.

Import Binary32.
Local Open Scope N_scope.

Lemma FilterPCM_returns_iff_witness :
  (exists fuel, returned (FilterPCM fuel Demo.audio Demo.fresh) = true) <->
  (state Demo.fresh = Final \/ Demo.audio = [] \/ block_bytes Demo.fresh <> 0).
Proof.
  apply (FilterPCM_returns_iff (L := Binary32_pcm_laws) Demo.audio Demo.fresh).
  vm_compute. reflexivity.
Defined.

Lemma call_state_witness :
  returned (call (Process Demo.audio) Demo.fresh) = true /\
  forward (state Demo.fresh) (state Demo.played).
Proof.
  assert (Hret : returned (call (Process Demo.audio) Demo.fresh) = true)
    by (vm_compute; reflexivity).
  split; [exact Hret|].
  destruct (returned_state_after _ Demo.fresh Hret) as (out & Hcall).
  exact (call_state (Process Demo.audio) Demo.fresh _ out Hcall).
Defined.

Lemma Final_at_rest_witness :
  run [Process Demo.audio] Demo.fresh = Some (Demo.played, Demo.audio) /\
  state Demo.played = Final /\
  cur_time Demo.played = f_zero.
Proof.
  unfold Demo.played, Demo.fresh, Open.
  set (ramp := prepared_volume_ramp_time _).
  set (add := prepared_silence_add_time _).
  set (bs := prepared_ramp_block_size _).
  set (f0 := VolumeRampFilter_new _ ramp add bs).
  assert (Hret : returned (FilterPCM (length Demo.audio) Demo.audio f0) = true)
    by (vm_compute; reflexivity).
  destruct (returned_state_after _ f0 Hret) as (out & Hcall).
  pose proof (run_single _ _ _ _ Hcall) as Hrun.
  set (f1 := state_after _ f0) in *.
  assert (Hfinal : state f1 = Final) by (vm_compute; reflexivity).
  split; [exact Hrun|]. split; [exact Hfinal|].
  exact (proj1 (Final_at_rest (L := Binary32_pcm_laws) (mono8 1000) ramp add bs
                  [Process Demo.audio] f1 Demo.audio Hrun Hfinal)).
Defined.

Lemma delay_line_bounds_witness :
  run [Process Demo.audio] Demo.fresh = Some (Demo.played, Demo.audio) /\
  fifo_available (delay_buf Demo.played) =
    last_delay_buf_size Demo.played +
    TimeToSize (mono8 1000) (volume_ramp_time Demo.fresh).
Proof.
  unfold Demo.played, Demo.fresh, Open.
  set (ramp := prepared_volume_ramp_time _).
  set (add := prepared_silence_add_time _).
  set (bs := prepared_ramp_block_size _).
  set (f0 := VolumeRampFilter_new _ ramp add bs).
  assert (Hret : returned (FilterPCM (length Demo.audio) Demo.audio f0) = true)
    by (vm_compute; reflexivity).
  destruct (returned_state_after _ f0 Hret) as (out & Hcall).
  pose proof (run_single _ _ _ _ Hcall) as Hrun.
  set (f1 := state_after _ f0) in *.
  split; [exact Hrun|].
  exact (proj1 (proj2 (delay_line_bounds (L := Binary32_pcm_laws) (mono8 1000) ramp add bs
                         [Process Demo.audio] f1 Demo.audio Hrun))).
Defined.

Lemma FilterPCM_split_witness :
  N.of_nat (length (firstn 8 Demo.audio)) mod block_bytes Demo.fresh = 0 /\
  exists f1 out1 f2 out2 f12,
    FilterPCM 8 (firstn 8 Demo.audio) Demo.fresh = Some (f1, out1) /\
    FilterPCM 8 (skipn 8 Demo.audio) f1 = Some (f2, out2) /\
    FilterPCM 16 (firstn 8 Demo.audio ++ skipn 8 Demo.audio) Demo.fresh =
      Some (f12, out1 ++ out2) /\
    state f12 = state f2 /\ cur_time f12 = cur_time f2 /\ pv f12 = pv f2 /\
    pending f12 = pending f2.
Proof.
  assert (Hmod : N.of_nat (length (firstn 8 Demo.audio)) mod block_bytes Demo.fresh = 0)
    by (vm_compute; reflexivity).
  split; [exact Hmod|].
  apply (FilterPCM_split (L := Binary32_pcm_laws)
           (firstn 8 Demo.audio) (skipn 8 Demo.audio) Demo.fresh).
  - vm_compute. discriminate.
  - exact Hmod.
  - vm_compute. reflexivity.
Defined.

Lemma silence_phase_witness :
  renders_silence (state Demo.fresh) /\
  exists f',
    FilterPCM 4 (firstn 4 Demo.audio) Demo.fresh =
      Some (f', [Byte.x00; Byte.x00; Byte.x00; Byte.x00]) /\
    state f' = Silence.
Proof.
  assert (Hs : renders_silence (state Demo.fresh)) by (left; reflexivity).
  split; [exact Hs|].
  destruct (silence_phase (L := Binary32_pcm_laws) 2 (firstn 4 Demo.audio) Demo.fresh Hs)
    as (f' & E & T).
  - vm_compute. discriminate.
  - lia.
  - vm_compute. reflexivity.
  - vm_compute. reflexivity.
  - intros j Hj. assert (j = 1%nat) as -> by lia. vm_compute. reflexivity.
  - exists f'. split; [exact E|].
    replace (f_ge (advance 2 (block_time Demo.fresh) (cur_time Demo.fresh))
                  (f_add (volume_ramp_time Demo.fresh) (silence_add_time Demo.fresh)))
      with false in T by (vm_compute; reflexivity).
    exact (proj1 T).
Defined.

Lemma ramp_completes_witness :
  state Demo.risen = RampUp /\
  exists f' out,
    FilterPCM 4 (firstn 4 Demo.audio) Demo.risen = Some (f', out) /\
    state f' = Final /\ cur_time f' = f_zero.
Proof.
  assert (Hs : state Demo.risen = RampUp) by (vm_compute; reflexivity).
  split; [exact Hs|].
  destruct (ramp_completes (L := Binary32_pcm_laws) (firstn 4 Demo.audio) Demo.risen Hs)
    as (f' & E & Hf & Hc).
  - vm_compute. discriminate.
  - discriminate.
  - vm_compute. reflexivity.
  - vm_compute. reflexivity.
  - exists f'. eexists. split; [exact E|]. split; [exact Hf | exact Hc].
Defined.

Lemma flush_drains_witness :
  state (flushes 1 Demo.played) = RampDown /\
  length (flush_out 1 Demo.played) = 2%nat.
Proof.
  assert (H1 : state (flushes 1 Demo.played) = RampDown) by (vm_compute; reflexivity).
  split; [exact H1|].
  destruct (flush_drains (L := Binary32_pcm_laws) 1 Demo.played) as (_ & Hl & _).
  - intros j Hj. destruct j as [|[|j]]; [| |lia].
    + vm_compute. discriminate.
    + rewrite H1. discriminate.
  - rewrite Hl. vm_compute. reflexivity.
Defined.

Lemma plugin_opens_silent_witness :
  state (Open (init volume_ramp_filter_plugin Demo.config) (mono8 1000)) = Silence /\
  snd (Flush (Open (init volume_ramp_filter_plugin Demo.config) (mono8 1000))) = [].
Proof.
  destruct (plugin_opens_silent (L := Binary32_pcm_laws) Demo.config (mono8 1000))
    as (Hs & _ & _ & _ & _ & _ & _ & Hf & _).
  - vm_compute. reflexivity.
  - vm_compute. reflexivity.
  - split; [exact Hs | exact Hf].
Defined.

Lemma nan_hold_never_ends_witness :
  returned (run [Process Demo.audio; DoFlush; Process Demo.audio] Demo.mute) = true /\
  state (state_after (run [Process Demo.audio; DoFlush; Process Demo.audio] Demo.mute)
                     Demo.mute) = Silence.
Proof.
  assert (Hret : returned (run [Process Demo.audio; DoFlush; Process Demo.audio] Demo.mute)
                 = true) by (vm_compute; reflexivity).
  split; [exact Hret|].
  destruct (returned_state_after _ Demo.mute Hret) as (W & Hrun).
  exact (proj1 (nan_hold_never_ends (mono8 1000) f_tenth 2 _ _ W Hrun)).
Defined.


Lemma rising_gains_sorted_witness :
  state Studio.armed = RampUp /\
  length (rising_gains (repeat 64 100) Studio.armed) = 69%nat /\
  hd 1 (rising_gains (repeat 64 100) Studio.armed) = 0 /\
  last (rising_gains (repeat 64 100) Studio.armed) 0 = 1010 /\
  StronglySorted N.le (rising_gains (repeat 64 100) Studio.armed).
Proof.
  assert (Hs : state Studio.armed = RampUp) by (vm_compute; reflexivity).
  split; [exact Hs|].
  split; [vm_compute; reflexivity|].
  split; [vm_compute; reflexivity|].
  split; [vm_compute; reflexivity|].
  refine (proj1 (rising_gains_sorted (repeat 64 100) Studio.armed Hs _ _ _ _ _)).
  - vm_compute. exact I.
  - vm_compute. reflexivity.
  - vm_compute. reflexivity.
  - vm_compute. reflexivity.
  - apply Forall_forall. intros k Hk. apply repeat_spec in Hk. subst k.
    vm_compute. reflexivity.
Defined.

Lemma falling_gains_sorted_witness :
  state Demo.played = Final /\
  falling_gains 5 Demo.played = [1024; 614; 204] /\
  StronglySorted N.ge (falling_gains 5 Demo.played).
Proof.
  assert (Hs : state Demo.played = Final) by (vm_compute; reflexivity).
  split; [exact Hs|].
  split; [vm_compute; reflexivity|].
  refine (proj1 (falling_gains_sorted 5 Demo.played _ _ _ _ _)).
  - rewrite Hs. discriminate.
  - vm_compute. exact I.
  - vm_compute. reflexivity.
  - vm_compute. reflexivity.
  - vm_compute. reflexivity.
Defined.

Lemma accumulator_regular_witness :
  run [Process (firstn 10 Demo.audio)] Demo.fresh =
    Some (Demo.rising, firstn 10 Demo.audio) /\
  state Demo.rising = RampUp /\
  f_ge (cur_time Demo.rising) (volume_ramp_time Demo.fresh) = false.
Proof.
  assert (Hret : returned (FilterPCM 10 (firstn 10 Demo.audio) Demo.fresh) = true)
    by (vm_compute; reflexivity).
  destruct (returned_state_after _ Demo.fresh Hret) as (out & Hcall).
  pose proof (run_single (firstn 10 Demo.audio) Demo.fresh _ out Hcall) as Hrun.
  assert (Hs : state Demo.rising = RampUp) by (vm_compute; reflexivity).
  split; [exact Hrun|]. split; [exact Hs|].
  refine (proj1 (proj1 (proj2 (accumulator_regular (mono8 1000) _ _ _
                                 [Process (firstn 10 Demo.audio)] Demo.rising
                                 (firstn 10 Demo.audio) Hrun _ _)) Hs)).
  - vm_compute. reflexivity.
  - vm_compute. reflexivity.
Defined.

End CoverageWitnesses.
